(** * InsiderTracker: a shallow embedding of [src/main.py]

    The development follows the Python source method by method.

    - [PyFloat]: Python floats are IEEE 754 binary64 values; they are
      modelled by [spec_float] at precision 53, with the arithmetic and the
      comparisons of the IEEE specification, and [py_float] is the builtin
      [float(str)].
    - [PyStr]: the string methods the source calls ([strip], [replace] with a
      one-character pattern, [join]).  A string is a sequence of code points
      below 256.
    - [Html]: what the BeautifulSoup queries of [fetch_insider_data] return.
    - [Pandas]: a column-oriented [DataFrame] with the operations used.
    - [Tracker]: the state of an [InsiderTracker] object, the objects it
      shares with its callers (a heap of data frames, so that aliasing is
      visible), and its methods in a state-and-exception monad.

    Everything outside the process (the clock, the HTTP endpoint, the
    market-cap provider) and the two pandas routines whose result is not fixed
    by the source ([pd.to_datetime], the default sorting kind) are fields of
    an environment [Env].  [NumPy] and [PandasSort] follow the routine that
    pandas and NumPy run for the default sorting kind. *)

From Stdlib Require Import ZArith List Ascii Bool Lia Permutation Sorted.
From Stdlib Require Import Floats.
From stdpp Require Import base option list gmap strings.

Local Open Scope Z_scope.

(* ===================================================================== *)
(** ** Python floats *)
(* ===================================================================== *)

Module PyFloat.

Definition prec : Z := 53.
Definition emax : Z := 1024.

  (** A Python [float]. *)
Definition float : Type := spec_float.

Definition nan : float := S754_nan.
Definition inf (neg : bool) : float := S754_infinity neg.
Definition zero : float := S754_zero false.

Definition fdiv : float → float → float := SFdiv prec emax.
Definition fmul : float → float → float := SFmul prec emax.
Definition flt : float → float → bool := SFltb.
Definition fle : float → float → bool := SFleb.
Definition feq : float → float → bool := SFeqb.
  (** [x > y] and [x >= y] *)
Definition fgt (x y : float) : bool := flt y x.
Definition fge (x y : float) : bool := fle y x.

Definition is_nan (x : float) : bool :=
    match x with S754_nan => true | _ => false end.
Definition is_inf (x : float) : bool :=
    match x with S754_infinity _ => true | _ => false end.
Definition is_finite (x : float) : bool := negb (is_nan x || is_inf x).

  (** [float(n)] for an integer [n]: the nearest binary64 value. *)
Definition of_Z (n : Z) : float := binary_normalize prec emax n 0 false.

  (** The binary64 value nearest to [m * 10 ^ e10] (ties to even), with the
      sign [neg]: one rounding of the exact quotient or product. *)
Definition of_decimal (neg : bool) (m : Z) (e10 : Z) : float :=
    match m with
    | Zpos p =>
        if 0 <=? e10
        then binary_round prec emax neg (p * Z.to_pos (10 ^ e10)) 0
        else SFdiv prec emax (S754_finite neg p 0)
                   (S754_finite false (Z.to_pos (10 ^ (- e10))) 0)
    | _ => S754_zero neg
    end.

Definition hundred : float := Eval vm_compute in of_Z 100.

  (** A Python number: an [int] or a [float]. *)
Inductive pynumber :=
  | PyInt (n : Z)
  | PyFlt (x : float).

  (** [float(n)] for a number [n]. *)
Definition to_float (n : pynumber) : float :=
    match n with PyInt z => of_Z z | PyFlt x => x end.

End PyFloat.

(* ===================================================================== *)
(** ** Python strings *)
(* ===================================================================== *)

Module PyStr.

Definition chars (s : string) : list ascii := String.list_ascii_of_string s.
Definition of_chars (l : list ascii) : string := String.string_of_list_ascii l.

Definition code (c : ascii) : nat := nat_of_ascii c.

  (** [c.isspace()] on the code points below 256. *)
Definition is_space (c : ascii) : bool :=
    let n := code c in
    ((9 <=? n) && (n <=? 13) || (28 <=? n) && (n <=? 32)
     || (n =? 133) || (n =? 160))%nat.

Fixpoint lstrip_chars (l : list ascii) : list ascii :=
    match l with
    | c :: l' => if is_space c then lstrip_chars l' else l
    | [] => []
    end.

Definition strip_chars (l : list ascii) : list ascii :=
    rev (lstrip_chars (rev (lstrip_chars l))).

  (** [s.strip()] *)
Definition strip (s : string) : string := of_chars (strip_chars (chars s)).

  (** [s.replace(c, '')] for a one-character pattern [c]. *)
Definition remove_char (c : ascii) (s : string) : string :=
    of_chars (filter (λ x, x ≠ c) (chars s)).

  (** [''.join(l)] *)
Definition join (l : list string) : string := foldr String.append "" l.

  (** A string is truthy when it is not empty. *)
Definition truthy (s : string) : bool :=
    match s with EmptyString => false | _ => true end.

Definition lower_char (c : ascii) : ascii :=
    let n := code c in
    if ((65 <=? n) && (n <=? 90))%nat then ascii_of_nat (n + 32) else c.

End PyStr.

(** *** [float(str)] *)

Module FloatParse.
  Import PyFloat PyStr.

Definition digit_val (c : ascii) : option Z :=
    let n := code c in
    if ((48 <=? n) && (n <=? 57))%nat then Some (Z.of_nat (n - 48)) else None.

Definition is_underscore (c : ascii) : bool := (code c =? 95)%nat.

  (** The rest of a [digitpart] after its first digit:
      [(["_"] digit)*].  [acc] is the value read so far and [cnt] the number
      of digits; the unread suffix is returned. *)
Fixpoint digits_tail (acc : Z) (cnt : nat) (l : list ascii)
    : Z * nat * list ascii :=
    match l with
    | [] => (acc, cnt, [])
    | c :: l' =>
        match digit_val c with
        | Some d => digits_tail (10 * acc + d) (S cnt) l'
        | None =>
            if is_underscore c then
              match l' with
              | c' :: l'' =>
                  match digit_val c' with
                  | Some d => digits_tail (10 * acc + d) (S cnt) l''
                  | None => (acc, cnt, l)
                  end
              | [] => (acc, cnt, l)
              end
            else (acc, cnt, l)
        end
    end.

  (** [digitpart ::= digit (["_"] digit)*], continuing the value [acc]. *)
Definition digitpart (acc : Z) (l : list ascii)
    : option (Z * nat * list ascii) :=
    match l with
    | c :: l' =>
        match digit_val c with
        | Some d => Some (digits_tail (10 * acc + d) 1 l')
        | None => None
        end
    | [] => None
    end.

Definition is_dot (c : ascii) : bool := (code c =? 46)%nat.

  (** [number ::= [digitpart] "." digitpart | digitpart ["."]]:
      the digits as an integer, the number of digits after the point, and
      the unread suffix. *)
Definition number (l : list ascii) : option (Z * nat * list ascii) :=
    match digitpart 0 l with
    | Some (ip, _, r) =>
        match r with
        | c :: r' =>
            if is_dot c then
              match digitpart ip r' with
              | Some res => Some res
              | None => Some (ip, 0%nat, r')
              end
            else Some (ip, 0%nat, r)
        | [] => Some (ip, 0%nat, [])
        end
    | None =>
        match l with
        | c :: r' => if is_dot c then digitpart 0 r' else None
        | [] => None
        end
    end.

  (** An optional sign: [true] for ["-"]. *)
Definition sign (l : list ascii) : bool * list ascii :=
    match l with
    | c :: l' =>
        if (code c =? 45)%nat then (true, l')
        else if (code c =? 43)%nat then (false, l')
        else (false, l)
    | [] => (false, [])
    end.

  (** [exponent ::= ("e" | "E") [sign] digitpart]; absent when the suffix
      is empty, an error when it is anything else. *)
Definition exponent (l : list ascii) : option Z :=
    match l with
    | [] => Some 0
    | c :: l' =>
        if (code (lower_char c) =? 101)%nat then
          let '(neg, l'') := sign l' in
          match digitpart 0 l'' with
          | Some (e, _, []) => Some (if neg then - e else e)
          | _ => None
          end
        else None
    end.

Definition is_word (w : string) (l : list ascii) : bool :=
    bool_decide (map lower_char l = chars w).

  (** The white space that [float] strips from both ends: the six ASCII
      characters of C's [isspace], and U+0085 and U+00A0, which [float]
      replaces by a space beforehand.  The separators U+001C to U+001F,
      which [str.strip] removes, are left in place and refused. *)
Definition is_float_space (c : ascii) : bool :=
    let n := code c in
    ((9 <=? n) && (n <=? 13) || (n =? 32) || (n =? 133) || (n =? 160))%nat.

Fixpoint lstrip_float (l : list ascii) : list ascii :=
    match l with
    | c :: l' => if is_float_space c then lstrip_float l' else l
    | [] => []
    end.

Definition strip_float (l : list ascii) : list ascii :=
    rev (lstrip_float (rev (lstrip_float l))).

  (** [float(s)] for a string [s]; [None] stands for [ValueError]. *)
Definition py_float (s : string) : option float :=
    let '(neg, l) := sign (strip_float (chars s)) in
    if is_word "inf" l || is_word "infinity" l then Some (inf neg)
    else if is_word "nan" l then Some nan
    else
      match number l with
      | Some (m, k, r) =>
          match exponent r with
          | Some e => Some (of_decimal neg m (e - Z.of_nat k))
          | None => None
          end
      | None => None
      end.

End FloatParse.

(* ===================================================================== *)
(** ** The parsed page *)
(* ===================================================================== *)

(** What the BeautifulSoup queries of [fetch_insider_data] return on a
    parsed document. *)
Module Html.
  Import PyStr.

Inductive cell_tag := Th | Td.

  (** A [th] or [td] element with its text nodes ([td.strings]) in document
      order. *)
Record cell := { tag : cell_tag; strings : list string }.

  (** A [tr] element: whether its class is [header-row], and the result of
      [find_all(['th', 'td'])] on it. *)
Record tr := { header_row_class : bool; cells : list cell }.

  (** A [table] element, as the result of [table.find_all('tr')]. *)
Definition table : Type := list tr.

Record document := {
    (** [soup.find('table', {'id': 'insider-table'})] *)
    table_by_id : option table;
    (** [soup.find('div', {'class': 'content'})], and [find_all('table')]
        on it when it exists *)
    content_tables : option (list table)
  }.

Definition is_td (c : cell) : bool :=
    match tag c with Td => true | Th => false end.

  (** [th.text] *)
Definition text (c : cell) : string := join (strings c).

  (** [table.find('tr', {'class': 'header-row'}) or table.find('tr')] *)
Definition header_row (t : table) : option tr :=
    match filter (λ r, header_row_class r = true) t with
    | r :: _ => Some r
    | [] => head t
    end.

  (** Lines 89-93. *)
Definition extract_headers (t : table) : list string :=
    match header_row t with
    | Some r => map (λ th, strip (text th)) (cells r)
    | None => []
    end.

  (** Line 101:
      [''.join(s.strip() for s in td.strings if s.strip())] *)
Definition visible_text (td : cell) : string :=
    join (map strip (filter (λ s, truthy (strip s) = true) (strings td))).

  (** Lines 99-102: the cells of one data row. *)
Definition row_of_tr (r : tr) : list string :=
    map visible_text (filter (λ c, is_td c = true) (cells r)).

  (** Line 103: [if row and len(row) == len(headers)] *)
Definition keep_row (headers row : list string) : bool :=
    match row with [] => false | _ :: _ => true end
    && (length row =? length headers)%nat.

  (** Lines 96-104, on the rows already split into cells. *)
Definition keep_rows (headers : list string) (raw : list (list string))
    : list (list string) :=
    filter (λ row, keep_row headers row = true) raw.

  (** Lines 96-104: [data_rows = table.find_all('tr')[1:]] and the loop. *)
Definition extract_rows (headers : list string) (t : table)
    : list (list string) :=
    keep_rows headers (map row_of_tr (tail t)).

End Html.

(* ===================================================================== *)
(** ** Exceptions and log records *)
(* ===================================================================== *)

Inductive exn :=
| KeyError (label : string)
| ValueError
| TypeError
| AttributeError
| OverflowError
| RequestException      (* raised by [requests.get] or [raise_for_status] *)
| ProviderException     (* raised by [get_company_overview] *)
| InvalidReference.     (* a reference to no object: not a Python state *)

Inductive level := INFO | WARNING | ERROR.

(** The messages of the [logger] calls of the source. *)
Inductive message :=
| MsgNoApiKey                    (* line 33 *)
| MsgMarketCapFailed (ticker : string) (e : exn)   (* line 55 *)
| MsgUsingCache                  (* line 63 *)
| MsgFetching                    (* line 67 *)
| MsgTableNotFoundById           (* line 78 *)
| MsgFetched (n : nat)           (* line 115 *)
| MsgErrorFetching (e : exn)     (* line 119 *)
| MsgFetchingMarketCap           (* line 137 *)
| MsgErrorProcessing (e : exn)   (* line 150 *)
| MsgNoMarketCapFiltering.       (* line 183 *)

(* ===================================================================== *)
(** ** Data frames *)
(* ===================================================================== *)

Module Pandas.
  Import PyFloat FloatParse PyStr.

  (** A column with its dtype: [object] holding strings, [float64],
      [int64], [datetime64] (microseconds; [None] is [NaT]). *)
Inductive column :=
  | ColStr (l : list string)
  | ColFloat (l : list float)
  | ColInt (l : list Z)
  | ColTime (l : list (option Z)).

  (** A frame: the row labels and the labelled columns, in order. *)
Record DataFrame := { index : list nat; columns : list (string * column) }.

  (** [pd.DataFrame(rows, columns=headers)] for rows that all have
      [len(headers)] cells, as [fetch_insider_data] builds them. *)
Definition from_rows (rows : list (list string)) (headers : list string)
    : DataFrame :=
    {| index := seq 0 (length rows);
       columns :=
         imap (λ j h, (h, ColStr (map (λ row, default "" (row !! j)) rows)))
              headers |}.

  (** [len(df)] *)
Definition len (df : DataFrame) : nat := length (index df).

  (** [df.empty]: some axis has length 0. *)
Definition empty (df : DataFrame) : bool :=
    (len df =? 0)%nat || (length (columns df) =? 0)%nat.

Definition has_label (label : string) (kc : string * column) : bool :=
    bool_decide (kc.1 = label).

  (** [df[label]] as a Series.  A missing label raises [KeyError]; with a
      repeated label [df[label]] is a frame, on which the operation that the
      source applies next raises [dup]. *)
Definition getitem (label : string) (dup : exn) (df : DataFrame)
    : exn + column :=
    match filter (λ kc, has_label label kc = true) (columns df) with
    | [] => inl (KeyError label)
    | [kc] => inr kc.2
    | _ => inl dup
    end.

  (** [df[label] = col]: replaces the columns with that label, or appends a
      new one. *)
Definition setitem (label : string) (col : column) (df : DataFrame)
    : DataFrame :=
    {| index := index df;
       columns :=
         if existsb (has_label label) (columns df)
         then map (λ kc, if has_label label kc then (label, col) else kc)
                  (columns df)
         else columns df ++ [(label, col)] |}.

  (** [df[label] = 0] *)
Definition setitem_zero (label : string) (df : DataFrame) : DataFrame :=
    setitem label (ColInt (replicate (len df) 0)) df.

  (** The values of a numeric column as floats. *)
Definition as_floats (c : column) : option (list float) :=
    match c with
    | ColFloat l => Some l
    | ColInt l => Some (map of_Z l)
    | _ => None
    end.

  (** The column that [series.apply(f)] makes of the numbers that [f]
      returned, for a series with at least one row: [int64] when all of
      them are ints, and [float64] otherwise. *)
Definition infer_numbers (l : list pynumber) : column :=
    match mapM (λ n, match n with PyInt z => Some z | PyFlt _ => None end) l with
    | Some zs => ColInt zs
    | None => ColFloat (map to_float l)
    end.

  (** [series.str.replace(c, '')]: the [.str] accessor needs strings. *)
Definition str_replace (c : ascii) (col : column) : exn + list string :=
    match col with
    | ColStr l => inr (map (remove_char c) l)
    | _ => inl AttributeError
    end.

  (** [series.astype(float)] on strings: [float] of every cell, and
      [ValueError] when one of them is refused. *)
Definition astype_float (l : list string) : exn + list float :=
    match mapM py_float l with
    | Some fs => inr fs
    | None => inl ValueError
    end.

  (** [a / b] on two Series with the same index: IEEE division, cell by
      cell. *)
Definition truediv (a b : column) : exn + list float :=
    match as_floats a, as_floats b with
    | Some xs, Some ys => inr (zip_with fdiv xs ys)
    | _, _ => inl TypeError
    end.

  (** [series * 100] *)
Definition mul100 (l : list float) : list float :=
    map (λ x, fmul x hundred) l.

  (** [series > t] for a datetime [t]: [NaT] compares false, and anything
      but a datetime column raises. *)
Definition gt_time (col : column) (t : Z) : exn + list bool :=
    match col with
    | ColTime l =>
        inr (map (λ d, match d with Some x => bool_decide (t < x)
                                  | None => false end) l)
    | _ => inl TypeError
    end.

  (** [series >= x] for a number [x]. *)
Definition ge_num (col : column) (x : float) : exn + list bool :=
    match as_floats col with
    | Some l => inr (map (λ v, fge v x) l)
    | None => inl TypeError
    end.

  (** [series.isin(values)] for a list of strings. *)
Definition isin (col : column) (values : list string) : list bool :=
    match col with
    | ColStr l => map (λ s, bool_decide (s ∈ values)) l
    | ColFloat l => map (λ _, false) l
    | ColInt l => map (λ _, false) l
    | ColTime l => map (λ _, false) l
    end.

  (** [a & b] on two boolean Series. *)
Definition mask_and (a b : list bool) : list bool := zip_with andb a b.

Fixpoint mask_list {A} (m : list bool) (l : list A) : list A :=
    match m, l with
    | b :: m', x :: l' => if b then x :: mask_list m' l' else mask_list m' l'
    | _, _ => []
    end.

  (** The rows at the positions [pos], in that order. *)
Definition take {A} (pos : list nat) (l : list A) : list A :=
    omap (λ i, l !! i) pos.

Definition map_column (f : ∀ A, list A → list A) (c : column) : column :=
    match c with
    | ColStr l => ColStr (f _ l)
    | ColFloat l => ColFloat (f _ l)
    | ColInt l => ColInt (f _ l)
    | ColTime l => ColTime (f _ l)
    end.

Definition map_rows (f : ∀ A, list A → list A) (df : DataFrame)
    : DataFrame :=
    {| index := f _ (index df);
       columns := map (λ kc, (kc.1, map_column f kc.2)) (columns df) |}.

  (** [df[mask]] for a boolean Series: a new frame with the selected rows. *)
Definition select (m : list bool) (df : DataFrame) : DataFrame :=
    map_rows (λ A, mask_list m) df.

  (** The frame with its rows in the order [pos]. *)
Definition reorder (pos : list nat) (df : DataFrame) : DataFrame :=
    map_rows (λ A, take pos) df.

End Pandas.

(* ===================================================================== *)
(** ** The tracker and its environment *)
(* ===================================================================== *)

Module Tracker.
  Import PyFloat FloatParse PyStr Html Pandas.

  (** A reference to a data frame object. *)
Definition ref : Type := nat.

  (** The attributes of an [InsiderTracker] (lines 24-31), the frames that
      are alive (a reference is a position in [heap]; a new object is added
      at the end), and a record of what the object did to the outside. *)
Record World := {
    heap : list DataFrame;
    _cached_data : option ref;
    _last_fetch_time : option Z;
    _market_cap_cache : gmap string float;
    av_api_key : option string;
    clock_reads : nat;          (* calls of [datetime.now()] so far *)
    requests : nat;             (* calls of [requests.get] so far *)
    lookups : list string;      (* calls of [get_company_overview] so far *)
    log : list (level * message)
  }.

  (** The response of the provider: the overview record, field by field. *)
Definition overview : Type := gmap string string.

Record Env := {
    (** the [n]-th reading of [datetime.now()], in microseconds since
        1970-01-01 *)
    now : nat → Z;
    (** the parsed page of the [n]-th request; [None] when [requests.get]
        or [raise_for_status] raises *)
    http_get : nat → option document;
    (** the [n]-th call of [get_company_overview]; [None] when it raises *)
    get_company_overview : nat → string → option overview;
    (** [pd.to_datetime] on a column; [None] when it raises *)
    to_datetime : column → option (list (option Z));
    (** the row positions in which [sort_values(ascending=False)], with its
        default [kind], puts a float column; the scalar routine of NumPy is
        [PandasSort.nargsort_desc] *)
    argsort_desc : list float → list nat
  }.

  (** [timedelta(minutes=5)] and [timedelta(days=1)], in microseconds. *)
Definition _cache_duration : Z := 5 * 60 * 1000000.
Definition day : Z := 24 * 60 * 60 * 1000000.

  (** [timedelta(days=n)] for an integer [n]: the magnitude of the days is
      at most 999999999. *)
Definition timedelta_days (n : Z) : exn + Z :=
    if bool_decide (-999999999 ≤ n ≤ 999999999) then inr (n * day)
    else inl OverflowError.

  (** [datetime.min] and [datetime.max], in microseconds since
      1970-01-01: the first instant of the year 1 and the last of the year
      9999. *)
Definition datetime_min : Z := -62135596800000000.
Definition datetime_max : Z := 253402300799999999.

  (** [t - delta] for a datetime [t] and a timedelta [delta]. *)
Definition datetime_sub (t delta : Z) : exn + Z :=
    if bool_decide (datetime_min ≤ t - delta ≤ datetime_max)
    then inr (t - delta)
    else inl OverflowError.

  (** [t - timedelta(days=n)] (lines 162 and 218, with [t] the reading of
      the clock). *)
Definition days_before (t : Z) (n : Z) : exn + Z :=
    match timedelta_days n with
    | inr delta => datetime_sub t delta
    | inl e => inl e
    end.

  (** [not self.av_api_key] is false exactly for a non-empty string. *)
Definition has_api_key (w : World) : bool :=
    match av_api_key w with Some k => truthy k | None => false end.

  (** *** State and exceptions *)

Inductive outcome (A : Type) :=
  | Return (a : A)
  | Raise (e : exn).
  Arguments Return {A} a.
  Arguments Raise {A} e.

Definition M (A : Type) : Type := World → outcome A * World.

#[global] Instance M_ret : MRet M := λ A a w, (Return a, w).
#[global] Instance M_bind : MBind M := λ A B f m w,
    match m w with
    | (Return a, w') => f a w'
    | (Raise e, w') => (Raise e, w')
    end.

Definition raise {A} (e : exn) : M A := λ w, (Raise e, w).
Definition get : M World := λ w, (Return w, w).
Definition modify (f : World → World) : M unit := λ w, (Return tt, f w).

  (** [try: body except Exception as e: handler(e)] *)
Definition try_except {A} (body : M A) (handler : exn → M A) : M A := λ w,
    match body w with
    | (Return a, w') => (Return a, w')
    | (Raise e, w') => handler e w'
    end.

Definition lift {A} (r : exn + A) : M A :=
    match r with inl e => raise e | inr a => mret a end.

  (** *** Attribute updates *)

Definition set_heap (h : list DataFrame) (w : World) : World :=
    {| heap := h; _cached_data := _cached_data w;
       _last_fetch_time := _last_fetch_time w;
       _market_cap_cache := _market_cap_cache w; av_api_key := av_api_key w;
       clock_reads := clock_reads w; requests := requests w;
       lookups := lookups w; log := log w |}.

Definition set_cached_data (c : option ref) (w : World) : World :=
    {| heap := heap w; _cached_data := c;
       _last_fetch_time := _last_fetch_time w;
       _market_cap_cache := _market_cap_cache w; av_api_key := av_api_key w;
       clock_reads := clock_reads w; requests := requests w;
       lookups := lookups w; log := log w |}.

Definition set_last_fetch_time (t : option Z) (w : World) : World :=
    {| heap := heap w; _cached_data := _cached_data w;
       _last_fetch_time := t;
       _market_cap_cache := _market_cap_cache w; av_api_key := av_api_key w;
       clock_reads := clock_reads w; requests := requests w;
       lookups := lookups w; log := log w |}.

Definition set_market_cap_cache (c : gmap string float) (w : World) : World :=
    {| heap := heap w; _cached_data := _cached_data w;
       _last_fetch_time := _last_fetch_time w;
       _market_cap_cache := c; av_api_key := av_api_key w;
       clock_reads := clock_reads w; requests := requests w;
       lookups := lookups w; log := log w |}.

Definition set_clock_reads (n : nat) (w : World) : World :=
    {| heap := heap w; _cached_data := _cached_data w;
       _last_fetch_time := _last_fetch_time w;
       _market_cap_cache := _market_cap_cache w; av_api_key := av_api_key w;
       clock_reads := n; requests := requests w;
       lookups := lookups w; log := log w |}.

Definition set_requests (n : nat) (w : World) : World :=
    {| heap := heap w; _cached_data := _cached_data w;
       _last_fetch_time := _last_fetch_time w;
       _market_cap_cache := _market_cap_cache w; av_api_key := av_api_key w;
       clock_reads := clock_reads w; requests := n;
       lookups := lookups w; log := log w |}.

Definition set_lookups (l : list string) (w : World) : World :=
    {| heap := heap w; _cached_data := _cached_data w;
       _last_fetch_time := _last_fetch_time w;
       _market_cap_cache := _market_cap_cache w; av_api_key := av_api_key w;
       clock_reads := clock_reads w; requests := requests w;
       lookups := l; log := log w |}.

Definition set_log (l : list (level * message)) (w : World) : World :=
    {| heap := heap w; _cached_data := _cached_data w;
       _last_fetch_time := _last_fetch_time w;
       _market_cap_cache := _market_cap_cache w; av_api_key := av_api_key w;
       clock_reads := clock_reads w; requests := requests w;
       lookups := lookups w; log := l |}.

  (** *** Objects *)

  (** A new frame object. *)
Definition alloc (df : DataFrame) : M ref := λ w,
    (Return (length (heap w)), set_heap (heap w ++ [df]) w).

Definition deref (r : ref) : M DataFrame := λ w,
    match heap w !! r with
    | Some df => (Return df, w)
    | None => (Raise InvalidReference, w)
    end.

  (** An update of the object [r] in place. *)
Definition update (r : ref) (f : DataFrame → DataFrame) : M unit := λ w,
    match heap w !! r with
    | Some df => (Return tt, set_heap (<[r := f df]> (heap w)) w)
    | None => (Raise InvalidReference, w)
    end.

  (** [df.copy()] *)
Definition copy (r : ref) : M ref := df ← deref r; alloc df.

  (** [df[label]] on the object [r] *)
Definition series (r : ref) (label : string) (dup : exn) : M column :=
    df ← deref r; lift (getitem label dup df).

  (** [logger.info], [logger.warning], [logger.error] *)
Definition logger (lv : level) (msg : message) : M unit :=
    modify (λ w, set_log (log w ++ [(lv, msg)]) w).

  (** *** The methods *)

  Section methods.
    Context (env : Env).

    (** [datetime.now()] *)
Definition datetime_now : M Z := λ w,
      (Return (now env (clock_reads w)), set_clock_reads (S (clock_reads w)) w).

    (** Lines 68-71: the request, and the page it returns. *)
Definition requests_get : M document := λ w,
      let w' := set_requests (S (requests w)) w in
      match http_get env (requests w) with
      | Some doc => (Return doc, w')
      | None => (Raise RequestException, w')
      end.

    (** Line 48: [self.fd.get_company_overview(ticker)] *)
Definition fd_get_company_overview (ticker : string) : M overview := λ w,
      let w' := set_lookups (lookups w ++ [ticker]) w in
      match get_company_overview env (length (lookups w)) ticker with
      | Some ov => (Return ov, w')
      | None => (Raise ProviderException, w')
      end.

    (** Line 49: [float(overview.get('MarketCapitalization', 0))] *)
Definition market_cap_field (ov : overview) : exn + float :=
      match ov !! "MarketCapitalization" with
      | Some s =>
          match py_float s with Some x => inr x | None => inl ValueError end
      | None => inr zero
      end.

    (** Lines 37-56.  The [0] of lines 40 and 56 is an [int]; what the
        cache holds and what line 53 returns are floats. *)
Definition _get_market_cap (ticker : string) : M pynumber :=
      w ← get;
      if negb (has_api_key w) then mret (PyInt 0)
      else
        match _market_cap_cache w !! ticker with
        | Some cached => mret (PyFlt cached)
        | None =>
            try_except
              (ov ← fd_get_company_overview ticker;
               market_cap ← lift (market_cap_field ov);
               modify (λ w, set_market_cap_cache
                              (<[ticker := market_cap]> (_market_cap_cache w)) w);;
               mret (PyFlt market_cap))
              (λ e, logger WARNING (MsgMarketCapFailed ticker e);;
                    mret (PyInt 0))
        end.

    (** [series.apply(self._get_market_cap)]: the cells in order.  The
        tickers are strings, as in every frame built from a page. *)
Fixpoint apply_get_market_cap (tickers : list string) : M (list pynumber) :=
      match tickers with
      | [] => mret []
      | t :: ts =>
          x ← _get_market_cap t;
          xs ← apply_get_market_cap ts;
          mret (x :: xs)
      end.

Definition ticker_cells (c : column) : exn + list string :=
      match c with ColStr l => inr l | _ => inl TypeError end.

    (** [pd.to_datetime(series)] *)
Definition pd_to_datetime (c : column) : exn + list (option Z) :=
      match to_datetime env c with
      | Some l => inr l
      | None => inl ValueError
      end.

    (** [df.sort_values('Value ($)', ascending=False)]: a new frame.  The key
        is the float column that line 132 has just written. *)
Definition sort_values_desc (r : ref) (label : string) : M ref :=
      df ← deref r;
      key ← lift (getitem label ValueError df);
      match key with
      | ColFloat ks => alloc (reorder (argsort_desc env ks) df)
      | _ => raise TypeError
      end.

    (** Lines 122-151. *)
Definition process_insider_data (df : option ref) : M (option ref) :=
      match df with
      | None => mret None
      | Some r =>
          d ← deref r;
          if empty d then mret None
          else
            try_except
              ((* line 129 *)
               date ← series r "Date" ValueError;
               date ← lift (pd_to_datetime date);
               update r (setitem "Date" (ColTime date));;
               (* line 132 *)
               value ← series r "Value ($)" AttributeError;
               value ← lift (str_replace "," value);
               value ← lift (astype_float value);
               update r (setitem "Value ($)" (ColFloat value));;
               (* line 133 *)
               cost ← series r "Cost" AttributeError;
               cost ← lift (str_replace "$" cost);
               cost ← lift (str_replace "," (ColStr cost));
               cost ← lift (astype_float cost);
               update r (setitem "Cost" (ColFloat cost));;
               (* lines 136-142 *)
               w ← get;
               (if has_api_key w then
                  logger INFO MsgFetchingMarketCap;;
                  ticker ← series r "Ticker" TypeError;
                  ticker ← lift (ticker_cells ticker);
                  caps ← apply_get_market_cap ticker;
                  update r (setitem "Market Cap" (infer_numbers caps));;
                  value ← series r "Value ($)" TypeError;
                  caps ← series r "Market Cap" TypeError;
                  ratio ← lift (truediv value caps);
                  update r (setitem "Trade % of Market Cap"
                                    (ColFloat (mul100 ratio)))
                else
                  update r (setitem_zero "Market Cap");;
                  update r (setitem_zero "Trade % of Market Cap"));;
               (* line 145 *)
               sorted ← sort_values_desc r "Value ($)";
               mret (Some sorted))
              (λ e, logger ERROR (MsgErrorProcessing e);;
                    mret None)
      end.

    (** Lines 74-86: the table, by its id or as the second table of the
        content region. *)
Definition find_table (doc : document) : M table :=
      table ←
        match table_by_id doc with
        | Some t => mret (Some t)
        | None =>
            logger INFO MsgTableNotFoundById;;
            mret (match content_tables doc with
                  | Some tables =>
                      if (2 <=? length tables)%nat then tables !! 1%nat else None
                  | None => None
                  end)
        end;
      match table with
      | Some t => mret t
      | None => raise ValueError
      end.

    (** Lines 61-64: the copy of the cached frame, when [use_cache] is set
        and the cache is younger than [_cache_duration]. *)
Definition cached_copy (use_cache : bool) : M (option ref) :=
      w ← get;
      match use_cache, _cached_data w, _last_fetch_time w with
      | true, Some cached, Some last =>
          t ← datetime_now;
          if bool_decide (t - last < _cache_duration) then
            logger INFO MsgUsingCache;;
            c ← copy cached;
            mret (Some c)
          else mret None
      | _, _, _ => mret None
      end.

    (** Lines 66-120: the [try] statement. *)
Definition fetch_from_network : M (option ref) :=
      try_except
        (logger INFO MsgFetching;;
         doc ← requests_get;
         table ← find_table doc;
         let headers := extract_headers table in
         let rows := extract_rows headers table in
         df ← alloc (from_rows rows headers);
         d ← deref df;
         (if empty d then raise ValueError else mret tt);;
         (* lines 112-113 *)
         processed ← process_insider_data (Some df);
         modify (set_cached_data processed);;
         t ← datetime_now;
         modify (set_last_fetch_time (Some t));;
         (* lines 115-116 *)
         d ← deref df;
         logger INFO (MsgFetched (len d));;
         match processed with
         | Some c => c' ← copy c; mret (Some c')
         | None => raise AttributeError
         end)
        (λ e, logger ERROR (MsgErrorFetching e);;
              mret None).

    (** Lines 58-120. *)
Definition fetch_insider_data (use_cache : bool) : M (option ref) :=
      hit ← cached_copy use_cache;
      match hit with
      | Some c => mret (Some c)
      | None => fetch_from_network
      end.

    (** Lines 155-157, 168-170, 186-188 and 206-208:
        [df = self._cached_data; if df is None: df = self.fetch_insider_data()] *)
Definition cached_or_fetch : M (option ref) :=
      w ← get;
      match _cached_data w with
      | Some df => mret (Some df)
      | None => fetch_insider_data true
      end.

    (** Lines 153-164. *)
Definition get_recent_trades (days : Z) (min_value : float)
      : M (option ref) :=
      df ← cached_or_fetch;
      match df with
      | None => mret None
      | Some r =>
          d ← deref r;
          if empty d then mret None
          else
            t ← datetime_now;
            cutoff_date ← lift (days_before t days);
            date ← series r "Date" ValueError;
            recent ← lift (gt_time date cutoff_date);
            value ← series r "Value ($)" ValueError;
            large ← lift (ge_num value min_value);
            d ← deref r;
            res ← alloc (select (mask_and recent large) d);
            mret (Some res)
      end.

    (** Lines 166-178; [transaction_type] is a string or a list of them. *)
Definition get_trades_by_type (transaction_type : string + list string)
      : M (option ref) :=
      df ← cached_or_fetch;
      match df with
      | None => mret None
      | Some r =>
          d ← deref r;
          if empty d then mret None
          else
            let transaction_type :=
              match transaction_type with inl s => [s] | inr l => l end in
            col ← series r "Transaction" AttributeError;
            res ← alloc (select (isin col transaction_type) d);
            mret (Some res)
      end.

    (** Lines 180-193. *)
Definition get_trades_by_market_cap_percent (min_percent : float)
      : M (option ref) :=
      w ← get;
      if negb (has_api_key w) then
        logger WARNING MsgNoMarketCapFiltering;;
        mret None
      else
        df ← cached_or_fetch;
        match df with
        | None => mret None
        | Some r =>
            d ← deref r;
            if empty d then mret None
            else
              col ← series r "Trade % of Market Cap" ValueError;
              m ← lift (ge_num col min_percent);
              res ← alloc (select m d);
              mret (Some res)
        end.

    (** The keys of [filters] that [filter_trades] looks at. *)
Record Filters := {
      min_value : option float;
      max_days : option Z;
      transaction_types : option (list string);
      min_market_cap_percent : option float;
      tickers : option (list string)
    }.

    (** One [df = df[mask]] step of lines 214-228. *)
Definition restrict (r : ref) (mask : DataFrame → M (list bool)) : M ref :=
      d ← deref r;
      m ← mask d;
      alloc (select m d).

    (** Lines 195-230. *)
Definition filter_trades (filters : Filters) : M (option ref) :=
      df ← cached_or_fetch;
      match df with
      | None => mret None
      | Some r =>
          d ← deref r;
          if empty d then mret None
          else
            r ← match min_value filters with
                | Some x =>
                    restrict r (λ d,
                      col ← lift (getitem "Value ($)" ValueError d);
                      lift (ge_num col x))
                | None => mret r
                end;
            r ← match max_days filters with
                | Some days =>
                    t ← datetime_now;
                    cutoff_date ← lift (days_before t days);
                    restrict r (λ d,
                      col ← lift (getitem "Date" ValueError d);
                      lift (gt_time col cutoff_date))
                | None => mret r
                end;
            r ← match transaction_types filters with
                | Some l =>
                    restrict r (λ d,
                      col ← lift (getitem "Transaction" AttributeError d);
                      mret (isin col l))
                | None => mret r
                end;
            w ← get;
            r ← match min_market_cap_percent filters with
                | Some x =>
                    if has_api_key w then
                      restrict r (λ d,
                        col ← lift (getitem "Trade % of Market Cap" ValueError d);
                        lift (ge_num col x))
                    else mret r
                | None => mret r
                end;
            r ← match tickers filters with
                | Some l =>
                    restrict r (λ d,
                      col ← lift (getitem "Ticker" AttributeError d);
                      mret (isin col l))
                | None => mret r
                end;
            mret (Some r)
      end.

  End methods.

  (** Lines 19-35, for the value [key] of [ALPHA_VANTAGE_API_KEY]. *)
Definition init (key : option string) : World :=
    {| heap := []; _cached_data := None; _last_fetch_time := None;
       _market_cap_cache := ∅; av_api_key := key;
       clock_reads := 0; requests := 0; lookups := [];
       log := match key with
              | Some k => if truthy k then [] else [(WARNING, MsgNoApiKey)]
              | None => [(WARNING, MsgNoApiKey)]
              end |}.

End Tracker.

(* ===================================================================== *)
(** ** The default sorting kind *)
(* ===================================================================== *)

(** [sort_values] is called without a [kind]: pandas then sorts the key
    column with NumPy's [argsort(kind='quicksort')].  This module follows
    the scalar routine of NumPy ([npysort/quicksort.cpp], [aquicksort_] and
    [aheapsort_]): an introsort on the array [tosort] of row positions.

    A segment [pl .. pr] of [tosort] is a list here, [pl] being its position
    0 and [pr] its last position.  The routine keeps the segments that wait
    on an explicit stack; they are disjoint, so the order in which they are
    sorted does not show in the result, and the stack is the recursion of
    [aquicksort_]. *)
Module NumPy.
  Import PyFloat.

  (** [npy::double_tag::less]: [a < b], with the NaN values after every
      number. *)
Definition less (a b : float) : bool :=
    flt a b || (is_nan b && negb (is_nan a)).

Definition SMALL_QUICKSORT : nat := 16.

  (** [npy_get_msb]: the position of the highest bit that is set. *)
Definition npy_get_msb (n : nat) : Z := Z.log2 (Z.of_nat n).

  Section sort.
    (** [lt p q] is [less(v[p], v[q])] for two entries of [tosort]. *)
    Context (lt : nat → nat → bool).

    (** The entry at the position [p], and [INTP_SWAP] of the entries at
        [p] and [q]. *)
Definition at_ (a : list nat) (p : nat) : nat := nth p a 0%nat.
Definition swap (a : list nat) (p q : nat) : list nat :=
      <[p := at_ a q]> (<[q := at_ a p]> a).

    (** The entries at [p] and [q] are swapped when the first is less
        than the second. *)
Definition swap_if_less (a : list nat) (p q : nat) : list nat :=
      if lt (at_ a p) (at_ a q) then swap a p q else a.

    (** [do { ++pi; } while (less(v[tosort[pi]], vp))], entered at [pi + 1];
        the position it stops at. *)
Fixpoint scan_up (fuel : nat) (a : list nat) (vp : nat) (pi : nat) : nat :=
      match fuel with
      | O => pi
      | S fuel => if lt (at_ a pi) vp then scan_up fuel a vp (S pi) else pi
      end.

    (** [do { --pj; } while (less(vp, v[tosort[pj]]))], entered at
        [pj - 1]. *)
Fixpoint scan_down (fuel : nat) (a : list nat) (vp : nat) (pj : nat) : nat :=
      match fuel with
      | O => pj
      | S fuel => if lt vp (at_ a pj) then scan_down fuel a vp (pj - 1) else pj
      end.

    (** The [for (;;)] loop of the partition: the array and [pi] when it
        breaks. *)
Fixpoint partition_loop (fuel : nat) (a : list nat) (vp : nat)
        (pi pj : nat) : list nat * nat :=
      match fuel with
      | O => (a, pi)
      | S fuel =>
          let pi := scan_up (length a) a vp (S pi) in
          let pj := scan_down (length a) a vp (pj - 1) in
          if (pj <=? pi)%nat then (a, pi)
          else partition_loop fuel (swap a pi pj) vp pi pj
      end.

    (** The partition of a segment of more than [SMALL_QUICKSORT + 1]
        entries: the median of the first, the middle and the last entry is
        the pivot; the segment afterwards, and the position of the pivot. *)
Definition partition (a : list nat) : list nat * nat :=
      let pl := 0%nat in
      let pr := (length a - 1)%nat in
      let pm := (pl + (pr - pl) / 2)%nat in
      let a := swap_if_less a pm pl in
      let a := swap_if_less a pr pm in
      let a := swap_if_less a pm pl in
      let vp := at_ a pm in
      let pj := (pr - 1)%nat in
      let a := swap a pm pj in
      let '(a, pi) := partition_loop (length a) a vp pl pj in
      (swap a pi (pr - 1), pi).

    (** The inner loop of the insertion sort: [vi] is put into the sorted
        entries before it, behind the last one that is not greater.
        [before] holds these entries from the nearest to the first. *)
Fixpoint insert_entry (vi : nat) (before : list nat) : list nat :=
      match before with
      | vk :: before' =>
          if lt vi vk then vk :: insert_entry vi before' else vi :: before
      | [] => [vi]
      end.

    (** The insertion sort of a segment. *)
Definition insertion_sort (a : list nat) : list nat :=
      rev (foldl (λ before vi, insert_entry vi before) [] a).

    (** [aheapsort_]: [a = tosort - 1], so that the entries are [a[1]] to
        [a[n]]. *)
Definition heap_at (a : list nat) (k : nat) : nat := at_ a (k - 1).
Definition heap_set (a : list nat) (k : nat) (x : nat) : list nat :=
      <[(k - 1)%nat := x]> a.

    (** The loop [for (i = .., j = ..; j <= n;)] that moves the entry [tmp]
        down from the position [i], and [a[i] = tmp] after it. *)
Fixpoint sift_down (fuel : nat) (a : list nat) (tmp : nat) (i j n : nat)
      : list nat :=
      match fuel with
      | O => heap_set a i tmp
      | S fuel =>
          if (j <=? n)%nat then
            let j := if (j <? n)%nat && lt (heap_at a j) (heap_at a (j + 1))
                     then (j + 1)%nat else j in
            if lt tmp (heap_at a j)
            then sift_down fuel (heap_set a i (heap_at a j)) tmp j (j + j) n
            else heap_set a i tmp
          else heap_set a i tmp
      end.

    (** [for (l = n >> 1; l > 0; --l)]: the heap is built. *)
Fixpoint build_heap (l : nat) (a : list nat) (n : nat) : list nat :=
      match l with
      | O => a
      | S l' => build_heap l' (sift_down n a (heap_at a l) l (l + l) n) n
      end.

    (** [for (; n > 1;)]: the greatest entry is taken out of the heap, again
        and again. *)
Fixpoint sort_heap (fuel : nat) (a : list nat) (n : nat) : list nat :=
      match fuel with
      | O => a
      | S fuel =>
          if (1 <? n)%nat then
            let tmp := heap_at a n in
            let a := heap_set a n (heap_at a 1) in
            let n := (n - 1)%nat in
            sort_heap fuel (sift_down n a tmp 1 2 n) n
          else a
      end.

Definition aheapsort (a : list nat) : list nat :=
      let n := length a in
      sort_heap n (build_heap (n / 2) a n) n.

    (** [aquicksort_] on a segment.  [popped] says that the segment comes
        from the stack, with the depth [cdepth] that was stored with it: the
        test [cdepth < 0] is made then, and not while the loop of the
        partitions goes on with the smaller part. *)
Fixpoint aquicksort_segment (fuel : nat) (popped : bool) (cdepth : Z)
        (a : list nat) : list nat :=
      match fuel with
      | O => a
      | S fuel =>
          if popped && (cdepth <? 0) then aheapsort a
          else if (SMALL_QUICKSORT <? length a - 1)%nat then
            let '(a, pi) := partition a in
            let left := take pi a in
            let right := drop (S pi) a in
            let cdepth := cdepth - 1 in
            (* the larger part is pushed, the loop goes on with the other *)
            if (length left <? length right)%nat
            then aquicksort_segment fuel false cdepth left
                 ++ at_ a pi :: aquicksort_segment fuel true cdepth right
            else aquicksort_segment fuel true cdepth left
                 ++ at_ a pi :: aquicksort_segment fuel false cdepth right
          else insertion_sort a
      end.

Definition aquicksort (num : nat) : list nat :=
      aquicksort_segment (S num) true (npy_get_msb num * 2) (seq 0 num).

    (** [p] is not after [q] in the order of the sort, and a segment whose
        entries are in that order. *)
Definition le (p q : nat) : Prop := lt q p = false.
Definition sorted (a : list nat) : Prop := StronglySorted le a.

    (** The entries below the node [k] of a heap of [n] entries are not
        greater than its entry. *)
Definition heap_node (a : list nat) (n k : nat) : Prop :=
      ((2 * k ≤ n)%nat → le (heap_at a (2 * k)) (heap_at a k))
      ∧ ((2 * k + 1 ≤ n)%nat → le (heap_at a (2 * k + 1)) (heap_at a k)).

  End sort.

Definition key (v : list float) (p : nat) : float := nth p v nan.

  (** [v.argsort(kind='quicksort')] for a float array [v]. *)
Definition argsort (v : list float) : list nat :=
    aquicksort (λ p q, less (key v p) (key v q)) (length v).

End NumPy.

(** [nargsort(items, kind='quicksort', ascending=False, na_position='last')]
    of [pandas/core/sorting.py], which [sort_values] calls on the key
    column: the NaN values are taken out, the rest is sorted in reverse
    position order and the result reversed, and the NaN rows are added at
    the end. *)
Module PandasSort.
  Import PyFloat Pandas NumPy.

Definition nargsort_desc (items : list float) : list nat :=
    let idx := seq 0 (length items) in
    let non_nan_idx := rev (filter (λ p, is_nan (key items p) = false) idx) in
    let nan_idx := filter (λ p, is_nan (key items p) = true) idx in
    let non_nans := map (key items) non_nan_idx in
    let indexer := take (argsort non_nans) non_nan_idx in
    rev indexer ++ nan_idx.

End PandasSort.

(* ===================================================================== *)
(** * Vocabulary of the statements *)
(* ===================================================================== *)

Module Spec.
  Import PyFloat FloatParse PyStr Html Pandas Tracker.

  (** *** Extraction *)

  (** A row passes line 103 when it has a cell and as many cells as there
      are headers. *)
Definition valid_row (headers row : list string) : Prop :=
    row ≠ [] ∧ length row = length headers.

  (** A table whose header row has no cell, followed by a row without any
      [td]. *)
Definition bare_table : table :=
    [ {| header_row_class := true; cells := [] |};
      {| header_row_class := false; cells := [] |} ].

  (** *** Sorting *)

  (** [x >= y] as a relation. *)
Definition ge (x y : float) : Prop := fge x y = true.

  (** Descending order with the NaN values last, as [sort_values] with
      [ascending=False] and the default [na_position] leaves a float
      column. *)
Definition descending_nan_last (l : list float) : Prop :=
    ∃ vals nans,
      l = vals ++ nans
      ∧ Forall (λ x, is_nan x = false) vals
      ∧ Forall (λ x, is_nan x = true) nans
      ∧ StronglySorted ge vals.

  (** What pandas promises of [sort_values] whatever the [kind]: the rows
      are rearranged, and the keys come out in order. *)
Definition sorts_descending (argsort : list float → list nat) : Prop :=
    ∀ keys,
      argsort keys ≡ₚ seq 0 (length keys)
      ∧ descending_nan_last (take (argsort keys) keys).

  (** Rows with equal keys keep their original order: of two row labels
      that follow each other in the result, the second is the larger when
      the keys are equal. *)
Fixpoint ties_in_row_order (rows : list (float * nat)) : Prop :=
    match rows with
    | (k1, i1) :: (((k2, i2) :: _) as rest) =>
        (feq k1 k2 = true → (i1 < i2)%nat) ∧ ties_in_row_order rest
    | _ => True
    end.

  (** A sorting routine by insertion.  [before x y] says that a row with
      key [x] goes in front of a row with key [y] that followed it in the
      frame. *)
Fixpoint insert_desc (before : float → float → bool)
           (x : float * nat) (l : list (float * nat)) : list (float * nat) :=
    match l with
    | [] => [x]
    | y :: l' =>
        if before x.1 y.1 then x :: y :: l' else y :: insert_desc before x l'
    end.

  (** A [before] test fit for [insert_desc]: a row is put in front only of
      keys it is not below, and when it is not, the other key is not below
      it. *)
Definition fit (before : float → float → bool) : Prop :=
    ∀ x y, is_nan x = false → is_nan y = false →
           if before x y then ge x y else ge y x.

Definition keyed (keys : list float) : list (float * nat) :=
    zip keys (seq 0 (length keys)).

Definition argsort_by (before : float → float → bool) (keys : list float)
    : list nat :=
    let rows := keyed keys in
    (foldr (insert_desc before) []
           (filter (λ r, is_nan r.1 = false) rows)
     ++ filter (λ r, is_nan r.1 = true) rows).*2.

  (** A stable routine (a merge sort's result): equal keys keep their
      order. *)
Definition stable_argsort : list float → list nat := argsort_by fge.

  (** *** Effects *)

  (** The world a computation leaves, and its result. *)
Definition world_after {A} (m : M A) (w : World) : World := (m w).2.
Definition result_of {A} (m : M A) (w : World) : outcome A := (m w).1.

  (** [m] leaves the observation [f] of the world as it was. *)
Definition keeps {A B} (f : World → B) (m : M A) : Prop :=
    ∀ w, f (world_after m w) = f w.

  (** An observation that does not depend on the frames, the log, or the
      number of clock readings. *)
Definition blind {B} (f : World → B) : Prop :=
    (∀ h w, f (set_heap h w) = f w)
    ∧ (∀ l w, f (set_log l w) = f w)
    ∧ (∀ n w, f (set_clock_reads n w) = f w).

  (** The cache attributes of the tracker. *)
Definition attrs (w : World) : option ref * option Z :=
    (_cached_data w, _last_fetch_time w).

  (** *** Processing *)

  (** The frame that lines 129-142 leave in the caller's object, for the
      converted columns [date], [value], [cost] and the enrichment columns
      [cap] and [pct]. *)
Definition converted (date : list (option Z)) (value cost : list float)
      (cap pct : column) (df : DataFrame) : DataFrame :=
    setitem "Trade % of Market Cap" pct
      (setitem "Market Cap" cap
        (setitem "Cost" (ColFloat cost)
          (setitem "Value ($)" (ColFloat value)
            (setitem "Date" (ColTime date) df)))).

  (** *** Currency cells *)

  (** What line 132 does to one cell of the value column, and line 133 to
      one cell of the cost column; [None] stands for the [ValueError] that
      ends the conversion of the whole column. *)
Definition normalize_value (s : string) : option float :=
    py_float (remove_char "," s).
Definition normalize_cost (s : string) : option float :=
    py_float (remove_char "," (remove_char "$" s)).

  (** Decimal numerals: the digits before the point and, when there is a
      point, the digits after it. *)
Definition digit_char (d : nat) : ascii := ascii_of_nat (48 + d).
Definition digits_text (ds : list nat) : list ascii := digit_char <$> ds.
Definition is_digits (ds : list nat) : Prop := Forall (λ d, (d < 10)%nat) ds.

Definition decimal_text (ip : list nat) (frac : option (list nat))
    : list ascii :=
    digits_text ip
    ++ match frac with
       | Some f => "."%char :: digits_text f
       | None => []
       end.

Definition digits_value (acc : Z) (ds : list nat) : Z :=
    foldl (λ acc d, 10 * acc + Z.of_nat d) acc ds.

  (** The float nearest to the numeral. *)
Definition decimal_float (ip : list nat) (frac : option (list nat)) : float :=
    of_decimal false (digits_value 0 (ip ++ default [] frac))
               (- Z.of_nat (length (default [] frac))).

  (** *** The cache *)

  (** The cached frame is there and younger than [_cache_duration] at the
      next reading of the clock. *)
Definition cache_is_fresh (env : Env) (w : World) : bool :=
    match _cached_data w, _last_fetch_time w with
    | Some _, Some last =>
        bool_decide (now env (clock_reads w) - last < _cache_duration)
    | _, _ => false
    end.

  (** The requests that a call sends: none, or one. *)
Definition sends_request {A} (m : M A) : Prop :=
    ∀ w, requests (world_after m w) = S (requests w).

  (** *** Queries *)

  (** [k] on the value of [r], or the exception of [r]. *)
Definition and_then {A B} (r : exn + A) (k : A → exn + B) : exn + B :=
    match r with inr a => k a | inl e => inl e end.

  (** The mask of the rows whose value is at least [x], whose date is after
      [cutoff], whose transaction type is one of [types], whose percentage
      of the market capitalisation is at least [x], and whose ticker is one
      of [names]. *)
Definition value_mask (x : float) (d : DataFrame) : exn + list bool :=
    match getitem "Value ($)" ValueError d with
    | inr col => ge_num col x
    | inl e => inl e
    end.

Definition date_mask (cutoff : Z) (d : DataFrame) : exn + list bool :=
    match getitem "Date" ValueError d with
    | inr col => gt_time col cutoff
    | inl e => inl e
    end.

Definition type_mask (types : list string) (d : DataFrame) : exn + list bool :=
    match getitem "Transaction" AttributeError d with
    | inr col => inr (isin col types)
    | inl e => inl e
    end.

Definition percent_mask (x : float) (d : DataFrame) : exn + list bool :=
    match getitem "Trade % of Market Cap" ValueError d with
    | inr col => ge_num col x
    | inl e => inl e
    end.


  (** What the three single queries make of a frame [d] that is not empty;
      [t] is the reading of the clock. *)
Definition recent_trades (t days : Z) (min_value : float) (d : DataFrame)
    : exn + DataFrame :=
    and_then (days_before t days) (λ cutoff,
    and_then (date_mask cutoff d) (λ recent,
    and_then (value_mask min_value d) (λ large,
    inr (select (mask_and recent large) d)))).





  (** The tracker [w] with the new frames [ext] and [n] readings of the
      clock; everything else is as in [w]. *)
Definition with_frames (ext : list DataFrame) (n : nat) (w : World) : World :=
    set_heap (heap w ++ ext) (set_clock_reads n w).

  (** *** Market capitalisation *)

  (** What one call of the provider gives for [ticker], as the [n]-th
      lookup: the capitalisation, or the exception that lines 48-49
      raise. *)
Definition lookup_result (env : Env) (n : nat) (ticker : string)
    : exn + float :=
    match get_company_overview env n ticker with
    | Some ov => market_cap_field ov
    | None => inl ProviderException
    end.

  (** The number of provider lookups made for [ticker] so far. *)
Definition lookups_of (ticker : string) (w : World) : nat :=
    length (filter (λ t, t = ticker) (lookups w)).

End Spec.

(* ===================================================================== *)
(** * A page, a provider and a clock to run the methods on *)
(* ===================================================================== *)

Module Demo.
  Import PyFloat FloatParse PyStr Html Pandas Tracker Spec.

Definition th (s : string) : cell := {| tag := Th; strings := [s] |}.
Definition td (s : string) : cell := {| tag := Td; strings := [s] |}.

Definition header_tr (names : list string) : tr :=
    {| header_row_class := true; cells := th <$> names |}.
Definition data_tr (texts : list string) : tr :=
    {| header_row_class := false; cells := td <$> texts |}.

Definition headers : list string :=
    ["Ticker"; "Owner"; "Date"; "Transaction"; "Cost"; "Value ($)"].

  (** A page whose table carries the id [insider-table]. *)
Definition page (rows : list (list string)) : document :=
    {| table_by_id := Some (header_tr headers :: (data_tr <$> rows));
       content_tables := None |}.

  (** Three trades; the first and the last have the same value. *)
Definition trades : list (list string) :=
    [ ["ACME"; "Doe John"; "2024-03-01"; "Buy"; "$12.50"; "2,500,000"];
      ["INIT"; "Roe Jane"; "2024-03-02"; "Sale"; "8.00"; "4,000,000"];
      ["ACME"; "Poe Anna"; "2024-03-02"; "Buy"; "12.00"; "2,500,000"] ].

  (** A page whose value cell carries a currency symbol. *)
Definition trades_with_symbol : list (list string) :=
    [ ["ACME"; "Doe John"; "2024-03-01"; "Buy"; "$12.50"; "$1,234.50"] ].

  (** A trade of value zero after a trade of positive value. *)
Definition trades_with_zero : list (list string) :=
    [ ["ACME"; "Doe John"; "2024-03-01"; "Buy"; "$12.50"; "1,000"];
      ["INIT"; "Roe Jane"; "2024-03-02"; "Sale"; "8.00"; "0"] ].

  (** Twenty trades of two values in turn: 1,000,000 in the rows 0, 2, 4,
      ... and 2,000,000 in the rows 1, 3, 5, ... *)
Definition tied_trades : list (list string) :=
    (λ i, ["ACME"; "Doe John"; "2024-03-01"; "Buy"; "10.00";
           if Nat.even i then "1,000,000" else "2,000,000"]) <$> seq 0 20.

  (** Midnight of the [n]-th day after 1970-01-01. *)
Definition midnight (n : Z) : Z := n * day.

Definition calendar (s : string) : option Z :=
    if bool_decide (s = "2024-03-01") then Some (midnight 19783)
    else if bool_decide (s = "2024-03-02") then Some (midnight 19784)
    else None.

  (** [pd.to_datetime] on the dates of [calendar]; any other text is
      refused. *)
Definition demo_to_datetime (c : column) : option (list (option Z)) :=
    match c with
    | ColStr l => mapM (λ s, Some <$> calendar s) l
    | ColTime l => Some l
    | _ => None
    end.

  (** The first reading of the clock is midnight of 2024-03-03; every later
      reading is ten minutes after it. *)
Definition clock (n : nat) : Z :=
    match n with
    | O => midnight 19785
    | S _ => midnight 19785 + 10 * 60 * 1000000
    end.

  (** A provider that is down. *)
Definition provider_down (n : nat) (ticker : string) : option overview := None.

  (** A provider that knows ACME (capitalisation 50,000,000), has a record
      without the field for INIT, and fails on the rest. *)
Definition provider_up (n : nat) (ticker : string) : option overview :=
    if bool_decide (ticker = "ACME")
    then Some {[ "MarketCapitalization" := "50000000" ]}
    else if bool_decide (ticker = "INIT") then Some ∅
    else None.

Definition demo_env (pages : nat → option document)
      (provider : nat → string → option overview)
      (argsort : list float → list nat) : Env :=
    {| now := clock; http_get := pages; get_company_overview := provider;
       to_datetime := demo_to_datetime; argsort_desc := argsort |}.

  (** The same page at every request. *)
Definition always (rows : list (list string)) (n : nat) : option document :=
    Some (page rows).

  (** A first page of [trades], then pages of [rows]. *)
Definition then_rows (rows : list (list string)) (n : nat) : option document :=
    match n with O => Some (page trades) | S _ => Some (page rows) end.

  (** The filters of a call [filter_trades({})]. *)
Definition no_filters : Filters :=
    {| min_value := None; max_days := None; transaction_types := None;
       min_market_cap_percent := None; tickers := None |}.

  (** The filters of a call [filter_trades({'min_market_cap_percent': x})]. *)
Definition only_percent (x : float) : Filters :=
    {| min_value := None; max_days := None; transaction_types := None;
       min_market_cap_percent := Some x; tickers := None |}.

  (** A tracker without credential that has fetched [trades] once. *)
Definition fetched_once : World :=
    world_after
      (fetch_insider_data (demo_env (always trades) provider_down stable_argsort) true)
      (init None).

End Demo.

(* ===================================================================== *)
(** * Vocabulary of the further properties *)
(* ===================================================================== *)

Module More.
  Import PyFloat FloatParse PyStr Html Pandas Tracker Spec.

  (** *** What a method may change *)

  (** [w'] comes after [w]: the credential is the same, the market-cap
      cache, the record of lookups and the log have only grown, no object,
      request or clock reading was forgotten, and without a credential the
      provider was not called and the market-cap cache is the same. *)
Record evolves (w w' : World) : Prop := {
    ev_key : av_api_key w' = av_api_key w;
    ev_cache : _market_cap_cache w ⊆ _market_cap_cache w';
    ev_lookups : lookups w `prefix_of` lookups w';
    ev_log : log w `prefix_of` log w';
    ev_heap : (length (heap w) ≤ length (heap w'))%nat;
    ev_requests : (requests w ≤ requests w')%nat;
    ev_clock : (clock_reads w ≤ clock_reads w')%nat;
    ev_no_key :
      has_api_key w = false →
      lookups w' = lookups w ∧ _market_cap_cache w' = _market_cap_cache w
  }.

  (** Every run of [m] takes a world to one that comes after it. *)
Definition steps {A} (m : M A) : Prop := ∀ w, evolves w (world_after m w).

  (** [m] returns from [w]: it does not raise. *)
Definition returns {A} (m : M A) (w : World) : Prop :=
    ∃ a, result_of m w = Return a.

  (** The cached reference, when there is one, is a reference to a frame. *)
Definition cache_valid (w : World) : Prop :=
    ∀ c, _cached_data w = Some c → is_Some (heap w !! c).

  (** *** Processing *)

  (** The frame after the conversions of lines 129-133, and the tracker
      after them and the log record of line 137, for the frame object [r]:
      the state in which line 138 starts to resolve the tickers. *)
Definition before_enrichment (date : list (option Z)) (value cost : list float)
      (df : DataFrame) : DataFrame :=
    setitem "Cost" (ColFloat cost)
      (setitem "Value ($)" (ColFloat value)
        (setitem "Date" (ColTime date) df)).

Definition before_lookups (r : ref) (d : DataFrame) (w : World) : World :=
    set_log (log w ++ [(INFO, MsgFetchingMarketCap)])
            (set_heap (<[r := d]> (heap w)) w).

  (** *** The page *)

  (** Lines 74-86 without the log record: the table that is found. *)
Definition found_table (doc : document) : option table :=
    match table_by_id doc with
    | Some t => Some t
    | None =>
        match content_tables doc with
        | Some tables =>
            if (2 <=? length tables)%nat then tables !! 1%nat else None
        | None => None
        end
    end.

  (** Lines 89-106: the raw frame of a table. *)
Definition table_frame (t : table) : DataFrame :=
    let headers := extract_headers t in
    from_rows (extract_rows headers t) headers.

  (** The raw frame of a response, when the request succeeded, a table was
      found and the frame is not empty. *)
Definition page_frame (response : option document) : option DataFrame :=
    match response with
    | Some doc =>
        match found_table doc with
        | Some t => if empty (table_frame t) then None else Some (table_frame t)
        | None => None
        end
    | None => None
    end.

  (** *** Filters *)

  (** The filters of a call
      [filter_trades({'min_value': x, 'max_days': n, 'transaction_types': l})],
      the keys that [main] uses. *)
Definition main_filters (x : float) (n : Z) (l : list string) : Filters :=
    {| min_value := Some x; max_days := Some n; transaction_types := Some l;
       min_market_cap_percent := None; tickers := None |}.

  (** A page whose table has the header cells [names]. *)
Definition page_with (names : list string) (rows : list (list string))
    : document :=
    {| table_by_id := Some (Demo.header_tr names :: (Demo.data_tr <$> rows));
       content_tables := None |}.

  (** A page without the transaction column. *)
Definition page_without_transaction (n : nat) : option document :=
    Some (page_with ["Ticker"; "Date"; "Cost"; "Value ($)"]
                    [["ACME"; "2024-03-01"; "$12.50"; "2,500,000"]]).

  (** The frame that the tracker [Demo.fetched_once] has cached. *)
Definition cached_trades : DataFrame :=
    default {| index := []; columns := [] |} (heap Demo.fetched_once !! 1%nat).

  (** A tracker that has fetched a page without the transaction column. *)
Definition fetched_without_transaction : World :=
    world_after
      (fetch_insider_data
         (Demo.demo_env page_without_transaction Demo.provider_down stable_argsort)
         true)
      (init None).

  (** *** Market capitalisation *)

  (** The provider answers every lookup with a record whose field, when it
      is there, is a number. *)
Definition provider_reliable (env : Env) : Prop :=
    ∀ n ticker, ∃ v, lookup_result env n ticker = inr v.

  (** A provider that has the same record for every ticker. *)
Definition provider_const (n : nat) (ticker : string) : option overview :=
    Some {[ "MarketCapitalization" := "50000000" ]}.

End More.

Section float_examples.
  Import PyFloat FloatParse.
  Local Open Scope float_scope.

Example py_float_plain : py_float "1234.50" = Some (Prim2SF 1234.5).
  Proof. vm_compute. reflexivity. Qed.

Example py_float_forms :
    py_float " 1_024.5e1 " = Some (Prim2SF 10245)
    ∧ py_float "-.5" = Some (Prim2SF (-0.5))
    ∧ py_float "7." = Some (Prim2SF 7)
    ∧ py_float "-Infinity" = Some (inf true)
    ∧ py_float "NaN" = Some nan.
  Proof. vm_compute. repeat split; reflexivity. Qed.

Example py_float_rejects :
    py_float "$1234.50" = None ∧ py_float "1,234.50" = None
    ∧ py_float "" = None ∧ py_float "." = None ∧ py_float "1__0" = None
    ∧ py_float "1e" = None ∧ py_float "None" = None.
  Proof. vm_compute. repeat split; reflexivity. Qed.

  (** The white space at the ends: a tab or a no-break space is stripped,
      the separator U+001C is not. *)
Example py_float_white_space :
    py_float (String (ascii_of_nat 9) "5") = Some (Prim2SF 5)
    ∧ py_float (String (ascii_of_nat 160) "5") = Some (Prim2SF 5)
    ∧ py_float (String (ascii_of_nat 28) "5") = None
    ∧ PyStr.strip (String (ascii_of_nat 28) "5") = "5"%string.
  Proof. vm_compute. repeat split; reflexivity. Qed.

End float_examples.

(* ===================================================================== *)
(** * Float order and the sorting routines *)
(* ===================================================================== *)

Section float_order.
  Import PyFloat Pandas Spec.

Lemma compare_cont_swap m1 m2 :
    Pos.compare_cont Eq m2 m1 = CompOpp (Pos.compare_cont Eq m1 m2).
  Proof. apply (Pos.compare_antisym m1 m2). Qed.

Lemma SFcompare_swap x y :
    SFcompare y x = option_map CompOpp (SFcompare x y).
  Proof.
    destruct x as [[]|[]| |[] m1 e1], y as [[]|[]| |[] m2 e2];
      try reflexivity; simpl;
      rewrite (Z.compare_antisym e1 e2), (compare_cont_swap m1 m2);
      destruct (e1 ?= e2)%Z, (Pos.compare_cont Eq m1 m2); reflexivity.
  Qed.

Lemma SFcompare_not_nan x y :
    is_nan x = false → is_nan y = false → is_Some (SFcompare x y).
  Proof.
    destruct x as [[]|[]| |[] m1 e1], y as [[]|[]| |[] m2 e2];
      simpl; intros; try discriminate; eauto.
  Qed.

Lemma fge_total x y :
    is_nan x = false → is_nan y = false → fge x y = false → fge y x = true.
  Proof.
    intros Hx Hy. unfold fge, fle, SFleb. rewrite (SFcompare_swap x y).
    destruct (SFcompare_not_nan x y Hx Hy) as [[] ->]; simpl; congruence.
  Qed.

Lemma fgt_fge x y : fgt x y = true → fge x y = true.
  Proof.
    unfold fgt, fge, flt, fle, SFltb, SFleb.
    destruct (SFcompare y x) as [[]|]; congruence.
  Qed.

Lemma not_fgt_fge x y :
    is_nan x = false → is_nan y = false → fgt x y = false → fge y x = true.
  Proof.
    intros Hx Hy. unfold fgt, fge, flt, fle, SFltb, SFleb.
    rewrite (SFcompare_swap x y).
    destruct (SFcompare_not_nan x y Hx Hy) as [[] ->]; simpl; congruence.
  Qed.

Lemma fle_trans x y z : fle x y = true → fle y z = true → fle x z = true.
  Proof.
    unfold fle, SFleb.
    destruct x as [[]|[]| |[] m1 e1], y as [[]|[]| |[] m2 e2],
             z as [[]|[]| |[] m3 e3];
      simpl; try reflexivity; try discriminate; try (intros; assumption).
    all: change (Pos.compare_cont Eq) with Pos.compare.
    all: destruct (Z.compare_spec e1 e2), (Z.compare_spec e2 e3),
           (Z.compare_spec e1 e3);
         destruct (Pos.compare_spec m1 m2), (Pos.compare_spec m2 m3),
           (Pos.compare_spec m1 m3);
         simpl; try reflexivity; try discriminate; try lia.
  Qed.

#[local] Instance ge_trans : Transitive ge.
  Proof. intros x y z Hxy Hyz. unfold ge, fge in *. by eapply fle_trans. Qed.

Lemma fge_fit : fit fge.
  Proof.
    intros x y Hx Hy. destruct (fge x y) eqn:E; [exact E|].
    by apply fge_total.
  Qed.

  Context (before : float → float → bool) (Hfit : fit before).

Lemma insert_desc_perm x l : insert_desc before x l ≡ₚ x :: l.
  Proof.
    induction l as [|y l IH]; simpl; [reflexivity|].
    destruct (before x.1 y.1); [reflexivity|].
    rewrite IH. apply Permutation_swap.
  Qed.

Lemma insert_desc_sorted x l :
    is_nan x.1 = false →
    Forall (λ r, is_nan r.1 = false) l →
    Sorted (λ a b, ge a.1 b.1) l →
    Sorted (λ a b, ge a.1 b.1) (insert_desc before x l).
  Proof.
    intros Hx Hl Hs. induction l as [|y l IH]; simpl.
    - repeat constructor.
    - apply Forall_cons in Hl as [Hy Hl].
      pose proof (Hfit x.1 y.1 Hx Hy) as Hxy.
      destruct (before x.1 y.1).
      + constructor; [exact Hs | constructor; exact Hxy].
      + apply Sorted_inv in Hs as [Hs Hhd].
        constructor; [by apply IH|].
        destruct l as [|z l]; simpl.
        * constructor; exact Hxy.
        * destruct (before x.1 z.1); constructor;
            [exact Hxy | by inversion Hhd].
  Qed.

Lemma insertion_sorted l :
    Forall (λ r : float * nat, is_nan r.1 = false) l →
    Sorted (λ a b, ge a.1 b.1) (foldr (insert_desc before) [] l)
    ∧ foldr (insert_desc before) [] l ≡ₚ l.
  Proof.
    induction 1 as [|x l Hx Hl [IHs IHp]]; simpl.
    - split; [constructor | reflexivity].
    - split.
      + apply insert_desc_sorted; [exact Hx | | exact IHs].
        by rewrite IHp.
      + by rewrite insert_desc_perm, IHp.
  Qed.

Lemma take_keyed (keys : list float) (rows : list (float * nat)) :
    rows ⊆ keyed keys → take rows.*2 keys = rows.*1.
  Proof.
    unfold take. induction rows as [|[k i] rows IH]; intros Hsub; [reflexivity|].
    assert (Hin : (k, i) ∈ keyed keys) by (apply Hsub; left).
    unfold keyed in Hin. apply list_elem_of_lookup in Hin as [j Hj].
    apply lookup_zip_with_Some in Hj as (k' & i' & Heq & Hk & Hi).
    injection Heq as -> ->. apply lookup_seq in Hi as [-> _].
    simpl. rewrite Hk. simpl. f_equal. apply IH.
    intros r Hr. apply Hsub. by right.
  Qed.

Lemma argsort_by_sorts : sorts_descending (argsort_by before).
  Proof.
    intros keys. unfold argsort_by.
    set (rows := keyed keys).
    set (vals := filter (λ r : float * nat, is_nan r.1 = false) rows).
    set (nans := filter (λ r : float * nat, is_nan r.1 = true) rows).
    assert (Hvals : Forall (λ r : float * nat, is_nan r.1 = false) vals)
      by (apply Forall_forall; intros r Hr;
          by apply list_elem_of_filter in Hr as [? _]).
    destruct (insertion_sorted vals Hvals) as [Hs Hp].
    assert (Hperm : foldr (insert_desc before) [] vals ++ nans ≡ₚ rows).
    { rewrite Hp. subst vals nans.
      rewrite (list_filter_iff (λ r : float * nat, is_nan r.1 = true)
                 (λ r, ¬ is_nan r.1 = false))
        by (intros r; destruct (is_nan r.1); split; congruence).
      apply filter_app_complement. }
    split.
    - rewrite Hperm. unfold rows, keyed.
      rewrite snd_zip; [reflexivity|]. by rewrite length_seq.
    - rewrite take_keyed by (intros r Hr; rewrite Hperm in Hr; exact Hr).
      rewrite fmap_app.
      exists ((foldr (insert_desc before) [] vals).*1), (nans.*1).
      split; [reflexivity|]. split; [|split].
      + apply Forall_fmap. rewrite Hp. exact Hvals.
      + apply Forall_fmap, Forall_forall. intros r Hr.
        by apply list_elem_of_filter in Hr as [? _].
      + apply Sorted_StronglySorted; [apply ge_trans|].
        clear -Hs. induction Hs as [|r l Hl IH Hhd]; simpl; constructor;
          [exact IH|].
        destruct Hhd; simpl; constructor; assumption.
  Qed.

End float_order.

(* ===================================================================== *)
(** * The default sorting kind sorts *)
(* ===================================================================== *)

Section numpy_sort.
  Import NumPy.
  Local Open Scope nat_scope.

  (** The order of the entries: [lt] is a strict weak order. *)
  Context (lt : nat → nat → bool).
  Context (lt_asym : ∀ p q, lt p q = true → lt q p = false).
  Context (le_trans : ∀ p q r, lt q p = false → lt r q = false → lt r p = false).

Lemma le_refl p : le lt p p.
  Proof.
    unfold le. destruct (lt p p) eqn:E; [|reflexivity].
    by rewrite (lt_asym _ _ E) in E.
  Qed.

Lemma lt_le p q : lt p q = true → le lt p q.
  Proof. apply lt_asym. Qed.

Lemma le_total p q : le lt p q ∨ le lt q p.
  Proof.
    unfold le. destruct (lt q p) eqn:E; [right; by apply lt_asym | by left].
  Qed.

Lemma le_tr p q r : le lt p q → le lt q r → le lt p r.
  Proof. unfold le. intros H1 H2. by eapply le_trans. Qed.

  (** *** Arrays *)

Lemma at_lookup a p : p < length a → a !! p = Some (at_ a p).
  Proof.
    intros Hp. unfold at_. rewrite nth_lookup.
    destruct (lookup_lt_is_Some_2 a p Hp) as [x ->]. reflexivity.
  Qed.

Lemma at_insert a p q x :
    p < length a → at_ (<[p := x]> a) q = if decide (q = p) then x else at_ a q.
  Proof.
    intros Hp. unfold at_. rewrite !nth_lookup.
    destruct (decide (q = p)) as [->|Hne].
    - by rewrite list_lookup_insert_eq.
    - by rewrite list_lookup_insert_ne.
  Qed.

Lemma length_swap a p q : length (swap a p q) = length a.
  Proof. unfold swap. by rewrite !length_insert. Qed.

Lemma at_swap a p q k :
    p < length a → q < length a →
    at_ (swap a p q) k
    = if decide (k = p) then at_ a q
      else if decide (k = q) then at_ a p else at_ a k.
  Proof.
    intros Hp Hq. unfold swap.
    rewrite at_insert by by rewrite length_insert.
    destruct (decide (k = p)); [done|]. by rewrite at_insert.
  Qed.

Lemma insert_perm (a : list nat) q x :
    q < length a → at_ a q :: <[q := x]> a ≡ₚ x :: a.
  Proof.
    revert q. induction a as [|y a IH]; intros [|q] Hq; simpl in *; try lia.
    - apply perm_swap.
    - change (at_ (y :: a) (S q)) with (at_ a q).
      rewrite (perm_swap y (at_ a q)), IH by lia. apply perm_swap.
  Qed.

Lemma swap_comm a p q : swap a p q = swap a q p.
  Proof.
    unfold swap. destruct (decide (p = q)) as [->|Hne]; [done|].
    by rewrite list_insert_insert_ne.
  Qed.

Lemma swap_perm a p q : p < length a → q < length a → swap a p q ≡ₚ a.
  Proof.
    assert (∀ a p q, p ≤ q → q < length a → swap a p q ≡ₚ a) as Hle.
    { clear a p q. intros a. induction a as [|x a IH]; intros p q Hpq Hq;
        [simpl in Hq; lia|].
      destruct p as [|p], q as [|q]; try lia.
      - reflexivity.
      - unfold swap. simpl. change (at_ (x :: a) (S q)) with (at_ a q).
        change (at_ (x :: a) 0) with x. apply insert_perm. simpl in Hq. lia.
      - unfold swap. simpl. change (at_ (x :: a) (S q)) with (at_ a q).
        change (at_ (x :: a) (S p)) with (at_ a p).
        constructor. apply (IH p q); simpl in Hq; lia. }
    intros Hp Hq. destruct (le_lt_dec p q).
    - by apply Hle.
    - rewrite swap_comm. apply Hle; [lia | done].
  Qed.

  (** *** Sorted lists *)

Lemma sorted_app l r :
    sorted lt l → sorted lt r → (∀ x y, x ∈ l → y ∈ r → le lt x y) → sorted lt (l ++ r).
  Proof.
    intros Hl Hr Hlr. induction Hl as [|x l Hl IH Hx]; [done|].
    simpl. constructor.
    - apply IH. intros ? ? ? ?. apply Hlr; [by right | done].
    - apply Forall_app. split; [done|].
      apply Forall_forall. intros y Hy. apply Hlr; [by left | done].
  Qed.

Lemma sorted_rev_desc l :
    StronglySorted (λ x y, le lt y x) l → sorted lt (rev l).
  Proof.
    induction 1 as [|x l Hl IH Hx]; [constructor|].
    simpl. apply sorted_app; [done | repeat constructor |].
    intros y z Hy [->|[]%elem_of_nil]%elem_of_cons.
    rewrite Forall_forall in Hx. apply Hx.
    by rewrite (Permutation_rev l).
  Qed.

  (** *** The insertion sort *)

Lemma insert_entry_perm vi before : insert_entry lt vi before ≡ₚ vi :: before.
  Proof.
    induction before as [|vk before IH]; [done|]. simpl.
    destruct (lt vi vk); [|done]. rewrite IH. apply perm_swap.
  Qed.

Lemma insert_entry_sorted vi before :
    StronglySorted (λ x y, le lt y x) before →
    StronglySorted (λ x y, le lt y x) (insert_entry lt vi before).
  Proof.
    induction 1 as [|vk before Hs IH Hk]; [repeat constructor|]. simpl.
    destruct (lt vi vk) eqn:E.
    - constructor; [done|]. rewrite insert_entry_perm.
      constructor; [by apply lt_le | done].
    - constructor; [by constructor|].
      constructor; [exact E|].
      eapply Forall_impl; [exact Hk|]. intros y Hy. simpl in *.
      by eapply le_tr.
  Qed.

Lemma insertion_sort_spec a :
    insertion_sort lt a ≡ₚ a ∧ sorted lt (insertion_sort lt a).
  Proof.
    unfold insertion_sort.
    assert (∀ acc, StronglySorted (λ x y, le lt y x) acc →
                   foldl (λ before vi, insert_entry lt vi before) acc a
                   ≡ₚ acc ++ a
                   ∧ StronglySorted (λ x y, le lt y x)
                       (foldl (λ before vi, insert_entry lt vi before) acc a))
      as H.
    { induction a as [|x a IH]; intros acc Hacc; simpl.
      - by rewrite app_nil_r.
      - destruct (IH (insert_entry lt x acc)) as [Hp Hs];
          [by apply insert_entry_sorted|].
        split; [|done]. rewrite Hp, insert_entry_perm.
        apply Permutation_middle. }
    destruct (H [] ltac:(constructor)) as [Hp Hs]. split.
    - by rewrite <- Permutation_rev, Hp.
    - by apply sorted_rev_desc.
  Qed.

  (** *** The partition *)

Lemma scan_up_spec fuel a vp : ∀ start stop,
    start ≤ stop → stop - start < fuel → lt (at_ a stop) vp = false →
    let r := scan_up lt fuel a vp start in
    start ≤ r ≤ stop ∧ lt (at_ a r) vp = false
    ∧ ∀ k, start ≤ k < r → lt (at_ a k) vp = true.
  Proof.
    induction fuel as [|fuel IH]; intros start stop Hle Hfuel Hstop; [lia|].
    simpl. destruct (lt (at_ a start) vp) eqn:E.
    - assert (start ≠ stop) by congruence.
      destruct (IH (S start) stop) as (Hr & Hlt & Hk); [lia | lia | done |].
      split; [lia|]. split; [done|]. intros k Hk'.
      destruct (decide (k = start)) as [->|]; [done|]. apply Hk. lia.
    - split; [lia|]. split; [done|]. intros k Hk. lia.
  Qed.

Lemma scan_down_spec fuel a vp : ∀ start stop,
    stop ≤ start → start - stop < fuel → lt vp (at_ a stop) = false →
    let r := scan_down lt fuel a vp start in
    stop ≤ r ≤ start ∧ lt vp (at_ a r) = false
    ∧ ∀ k, r < k ≤ start → lt vp (at_ a k) = true.
  Proof.
    induction fuel as [|fuel IH]; intros start stop Hle Hfuel Hstop; [lia|].
    simpl. destruct (lt vp (at_ a start)) eqn:E.
    - assert (start ≠ stop) by congruence.
      destruct (IH (start - 1) stop) as (Hr & Hlt & Hk); [lia | lia | done |].
      split; [lia|]. split; [done|]. intros k Hk'.
      destruct (decide (k = start)) as [->|]; [done|]. apply Hk. lia.
    - split; [lia|]. split; [done|]. intros k Hk. lia.
  Qed.

Lemma partition_loop_spec vp : ∀ fuel a pi pj,
    let pr := length a - 1 in
    pj - pi ≤ fuel → pi < pj → pj ≤ pr - 1 → 1 ≤ pr →
    at_ a (pr - 1) = vp →
    (∀ k, k ≤ pi → lt vp (at_ a k) = false) →
    (∀ k, pj ≤ k ≤ pr → lt (at_ a k) vp = false) →
    ∃ a' pi',
      partition_loop lt fuel a vp pi pj = (a', pi')
      ∧ a' ≡ₚ a
      ∧ pi < pi' ≤ pr - 1
      ∧ at_ a' (pr - 1) = vp
      ∧ (∀ k, k < pi' → lt vp (at_ a' k) = false)
      ∧ (∀ k, pi' ≤ k ≤ pr → lt (at_ a' k) vp = false).
  Proof.
    induction fuel as [|fuel IH]; intros a pi pj pr Hfuel Hij Hj Hpr Hvp Hlow Hhigh;
      [lia|].
    cbn [partition_loop].
    destruct (scan_up_spec (length a) a vp (S pi) pj) as (Hi' & Hstop_i & Hscan_i);
      [lia | lia | apply Hhigh; lia |].
    set (pi' := scan_up lt (length a) a vp (S pi)) in *.
    destruct (scan_down_spec (length a) a vp (pj - 1) pi) as (Hj' & Hstop_j & Hscan_j);
      [lia | lia | apply Hlow; lia |].
    set (pj' := scan_down lt (length a) a vp (pj - 1)) in *.
    destruct (pj' <=? pi') eqn:Hbreak.
    - apply Nat.leb_le in Hbreak.
      exists a, pi'. split; [done|]. split; [done|]. split; [lia|].
      split; [done|]. split.
      + intros k Hk. destruct (le_lt_dec k pi); [by apply Hlow|].
        apply lt_asym, Hscan_i. lia.
      + intros k Hk. destruct (decide (k = pi')) as [->|]; [done|].
        destruct (le_lt_dec pj k); [apply Hhigh; lia|].
        apply lt_asym, Hscan_j. lia.
    - apply Nat.leb_gt in Hbreak.
      assert (pi' < length a) by lia. assert (pj' < length a) by lia.
      destruct (IH (swap a pi' pj') pi' pj') as (a' & pi'' & Hrun & Hperm & Hpos & Hvp' & Hlow' & Hhigh').
      + lia.
      + lia.
      + rewrite length_swap. lia.
      + rewrite length_swap. lia.
      + rewrite length_swap, at_swap by done.
        repeat destruct (decide _); try lia. done.
      + intros k Hk. rewrite at_swap by done.
        destruct (decide (k = pi')) as [->|]; [done|].
        destruct (decide (k = pj')); [lia|].
        destruct (le_lt_dec k pi); [by apply Hlow|].
        apply lt_asym, Hscan_i. lia.
      + rewrite length_swap. intros k Hk. rewrite at_swap by done.
        destruct (decide (k = pi')); [lia|].
        destruct (decide (k = pj')) as [->|]; [done|].
        destruct (le_lt_dec pj k); [apply Hhigh; lia|].
        apply lt_asym, Hscan_j. lia.
      + rewrite length_swap in *.
        exists a', pi''. split; [done|]. split.
        { by rewrite Hperm, swap_perm. }
        split; [lia|]. done.
  Qed.

Lemma swap_if_less_length a p q : length (swap_if_less lt a p q) = length a.
  Proof. unfold swap_if_less. destruct (lt _ _); [apply length_swap | done]. Qed.

Lemma swap_if_less_perm a p q :
    p < length a → q < length a → swap_if_less lt a p q ≡ₚ a.
  Proof. unfold swap_if_less. destruct (lt _ _); [apply swap_perm | done]. Qed.

  (** After [swap_if_less a p q] the entry at [p] is not less than the one
      at [q]; the other entries are where they were. *)
Lemma swap_if_less_at a p q :
    p < length a → q < length a →
    let a' := swap_if_less lt a p q in
    le lt (at_ a' q) (at_ a' p)
    ∧ (∀ k, k ≠ p → k ≠ q → at_ a' k = at_ a k)
    ∧ ((at_ a' p = at_ a p ∧ at_ a' q = at_ a q)
       ∨ (at_ a' p = at_ a q ∧ at_ a' q = at_ a p)).
  Proof.
    intros Hp Hq. unfold swap_if_less.
    destruct (lt (at_ a p) (at_ a q)) eqn:E; cbn zeta.
    - rewrite !at_swap by done. split; [|split].
      + repeat destruct (decide _); subst; try done; by apply lt_le.
      + intros k ? ?. rewrite at_swap by done. by repeat destruct (decide _).
      + right. repeat destruct (decide _); subst; done.
    - split; [exact E|]. split; [done|]. by left.
  Qed.

Lemma partition_spec a :
    SMALL_QUICKSORT < length a - 1 →
    ∃ a' pi,
      partition lt a = (a', pi)
      ∧ a' ≡ₚ a ∧ pi < length a
      ∧ (∀ k, k < pi → le lt (at_ a' k) (at_ a' pi))
      ∧ (∀ k, pi < k < length a → le lt (at_ a' pi) (at_ a' k)).
  Proof.
    unfold SMALL_QUICKSORT. intros Hn. unfold partition. cbv zeta.
    rewrite !Nat.sub_0_r. cbn [Nat.add].
    set (pr := length a - 1). set (pm := pr / 2).
    assert (pm < pr - 1) as Hpm.
    { subst pm. apply Nat.Div0.div_lt_upper_bound. lia. }
    assert (0 < pm) as Hpm0.
    { subst pm. apply Nat.div_str_pos. lia. }
    set (a1 := swap_if_less lt a pm 0).
    set (a2 := swap_if_less lt a1 pr pm).
    set (a3 := swap_if_less lt a2 pm 0).
    assert (length a1 = length a) as Hl1 by apply swap_if_less_length.
    assert (length a2 = length a) as Hl2
      by (unfold a2; by rewrite swap_if_less_length).
    assert (length a3 = length a) as Hl3
      by (unfold a3; by rewrite swap_if_less_length).
    destruct (swap_if_less_at a pm 0) as (H1 & H1o & H1c); [lia | lia |].
    fold a1 in H1, H1o, H1c.
    destruct (swap_if_less_at a1 pr pm) as (H2 & H2o & H2c); [lia | lia |].
    fold a2 in H2, H2o, H2c.
    destruct (swap_if_less_at a2 pm 0) as (H3 & H3o & H3c); [lia | lia |].
    fold a3 in H3, H3o, H3c.
    assert (le lt (at_ a3 pm) (at_ a3 pr)) as Hmr.
    { rewrite (H3o pr) by lia.
      assert (at_ a2 0 = at_ a1 0) as H20 by (apply H2o; lia).
      destruct H3c as [[-> _]|[-> _]]; [done|].
      rewrite H20.
      destruct H2c as [[Hr Hm]|[-> _]]; [|done].
      rewrite Hr, Hm in H2. rewrite Hr. by eapply le_tr. }
    assert (a3 ≡ₚ a) as Hperm3.
    { unfold a3, a2, a1.
      rewrite !swap_if_less_perm; rewrite ?swap_if_less_length; try done; lia. }
    set (vp := at_ a3 pm).
    set (a4 := swap a3 pm (pr - 1)).
    assert (length a4 = length a) as Hl4 by (unfold a4; by rewrite length_swap).
    destruct (partition_loop_spec vp (length a4) a4 0 (pr - 1))
      as (a5 & pi & Hrun & Hperm5 & Hpi & Hvp5 & Hlow & Hhigh).
    - rewrite Hl4. lia.
    - lia.
    - rewrite Hl4. fold pr. lia.
    - rewrite Hl4. fold pr. lia.
    - rewrite Hl4. fold pr. unfold a4. rewrite at_swap by lia.
      repeat destruct (decide _); try lia; done.
    - intros k Hk. assert (k = 0) as -> by lia.
      unfold a4. rewrite at_swap by lia.
      repeat destruct (decide _); try lia. exact H3.
    - rewrite Hl4. fold pr. intros k Hk. unfold a4. rewrite at_swap by lia.
      destruct (decide (k = pm)); [lia|].
      destruct (decide (k = pr - 1)); [apply le_refl|].
      assert (k = pr) as -> by lia. exact Hmr.
    - rewrite Hl4 in *. fold pr in Hpi, Hvp5, Hhigh. rewrite Hrun.
      assert (length a5 = length a) as Hl5.
      { by rewrite (Permutation_length Hperm5). }
      exists (swap a5 pi (pr - 1)), pi. split; [done|]. split.
      { rewrite swap_perm by (rewrite Hl5; lia).
        rewrite Hperm5. unfold a4. rewrite swap_perm by lia. done. }
      split; [lia|].
      assert (at_ (swap a5 pi (pr - 1)) pi = vp) as Hpivot.
      { rewrite at_swap by (rewrite Hl5; lia).
        by destruct (decide (pi = pi)). }
      rewrite Hpivot. split.
      + intros k Hk. rewrite at_swap by (rewrite Hl5; lia).
        repeat destruct (decide _); try lia. by apply Hlow.
      + intros k Hk. rewrite at_swap by (rewrite Hl5; lia).
        destruct (decide (k = pi)); [lia|].
        destruct (decide (k = pr - 1)); apply Hhigh; lia.
  Qed.

  (** *** The heap sort *)

Lemma length_heap_set a k x : length (heap_set a k x) = length a.
  Proof. apply length_insert. Qed.

Lemma heap_at_set a k m x :
    1 ≤ k ≤ length a → 1 ≤ m →
    heap_at (heap_set a k x) m = if decide (m = k) then x else heap_at a m.
  Proof.
    intros Hk Hm. unfold heap_at, heap_set. rewrite at_insert by lia.
    destruct (decide (m - 1 = k - 1)), (decide (m = k)); try lia; done.
  Qed.

Lemma heap_set_id a k : 1 ≤ k ≤ length a → heap_set a k (heap_at a k) = a.
  Proof.
    intros Hk. unfold heap_set, heap_at. apply list_insert_id.
    apply at_lookup. lia.
  Qed.

Lemma heap_set_move a i j tmp :
    1 ≤ i ≤ length a → 1 ≤ j ≤ length a → i ≠ j →
    heap_set (heap_set a i (heap_at a j)) j tmp ≡ₚ heap_set a i tmp.
  Proof.
    intros Hi Hj Hne.
    assert (heap_set (heap_set a i (heap_at a j)) j tmp
            = swap (heap_set a i tmp) (i - 1) (j - 1)) as ->.
    { unfold swap, heap_set, heap_at.
      rewrite !at_insert by lia.
      destruct (decide (j - 1 = i - 1)); [lia|].
      destruct (decide (i - 1 = i - 1)); [|lia].
      rewrite (list_insert_insert_ne _ (i - 1) (j - 1)) by lia.
      by rewrite list_insert_insert_eq. }
    apply swap_perm; rewrite length_heap_set; lia.
  Qed.

  (** The child that the loop compares [tmp] with. *)
Lemma child_choice a i n :
    1 ≤ i → i + i ≤ n →
    let j := i + i in
    let jc := if (j <? n) && lt (heap_at a j) (heap_at a (j + 1))
              then j + 1 else j in
    (jc = 2 * i ∨ jc = 2 * i + 1) ∧ jc ≤ n
    ∧ (le lt (heap_at a (2 * i)) (heap_at a jc))
    ∧ (2 * i + 1 ≤ n → le lt (heap_at a (2 * i + 1)) (heap_at a jc)).
  Proof.
    intros Hi Hj. cbv zeta.
    replace (i + i) with (2 * i) by lia.
    destruct (2 * i <? n) eqn:Hlt; cbn [andb].
    - apply Nat.ltb_lt in Hlt.
      destruct (lt (heap_at a (2 * i)) (heap_at a (2 * i + 1))) eqn:E.
      + split; [by right|]. split; [lia|]. split; [by apply lt_le|].
        intros _. apply le_refl.
      + split; [by left|]. split; [lia|]. split; [apply le_refl|].
        intros _. exact E.
    - apply Nat.ltb_ge in Hlt.
      split; [by left|]. split; [lia|]. split; [apply le_refl|]. lia.
  Qed.

Lemma sift_down_spec lo n : ∀ fuel a tmp i,
    1 ≤ lo ≤ i → i ≤ n ≤ length a → n < i + fuel →
    (∀ k, lo ≤ k → k ≠ i → heap_node lt a n k) →
    (lo < i → heap_node lt a n i ∧ le lt tmp (heap_at a i)) →
    let a' := sift_down lt fuel a tmp i (i + i) n in
    length a' = length a
    ∧ a' ≡ₚ heap_set a i tmp
    ∧ (∀ k, lo ≤ k → heap_node lt a' n k)
    ∧ (∀ p, 1 ≤ p → p < i ∨ n < p → heap_at a' p = heap_at a p).
  Proof.
    induction fuel as [|fuel IH]; intros a tmp i Hlo Hn Hfuel Hheap Hhole;
      [lia|].
    (* the array when [tmp] is put at [i] *)
    assert ((¬ (i + i ≤ n)
             ∨ (∀ c, (c = 2 * i ∨ c = 2 * i + 1) → c ≤ n → le lt (heap_at a c) tmp)) →
            length (heap_set a i tmp) = length a
            ∧ heap_set a i tmp ≡ₚ heap_set a i tmp
            ∧ (∀ k, lo ≤ k → heap_node lt (heap_set a i tmp) n k)
            ∧ (∀ p, 1 ≤ p → p < i ∨ n < p →
                    heap_at (heap_set a i tmp) p = heap_at a p)) as Hstop.
    { intros Hchildren. split; [apply length_heap_set|]. split; [done|]. split.
      - intros k Hk.
        assert (∀ c, (c = 2 * k ∨ c = 2 * k + 1) → c ≤ n →
                     le lt (heap_at (heap_set a i tmp) c)
                        (heap_at (heap_set a i tmp) k)) as Hnode.
        { intros c Hc Hcn. rewrite !heap_at_set by lia.
          destruct (decide (k = i)) as [->|Hki].
          - destruct (decide (c = i)); [lia|].
            destruct Hchildren as [Hnone|Hle]; [lia | by apply Hle].
          - destruct (Hheap k Hk Hki) as [H1 H2].
            destruct (decide (c = i)) as [->|Hci].
            + destruct Hhole as [_ Htmp]; [lia|].
              eapply le_tr; [exact Htmp|].
              destruct Hc as [->| ->]; [apply H1 | apply H2]; lia.
            + destruct Hc as [->| ->]; [apply H1 | apply H2]; lia. }
        split; intros ?; apply Hnode; auto.
      - intros p Hp Hout. rewrite heap_at_set by lia.
        destruct (decide (p = i)); [lia | done]. }
    cbn [sift_down]. cbv zeta.
    destruct (i + i <=? n) eqn:Hj; [|apply Hstop; left; apply Nat.leb_gt in Hj; lia].
    apply Nat.leb_le in Hj.
    destruct (child_choice a i n) as (Hjc & Hjcn & Hc1 & Hc2); [lia | done |].
    cbv zeta in Hjc, Hjcn, Hc1, Hc2.
    set (jc := if (i + i <? n) && lt (heap_at a (i + i)) (heap_at a (i + i + 1))
               then i + i + 1 else i + i) in *.
    destruct (lt tmp (heap_at a jc)) eqn:Hlt.
    - (* the entry at [jc] moves up, and the loop goes on from [jc] *)
      set (a1 := heap_set a i (heap_at a jc)).
      assert (length a1 = length a) as Hl1 by apply length_heap_set.
      assert (∀ p, 1 ≤ p → heap_at a1 p
                           = if decide (p = i) then heap_at a jc else heap_at a p)
        as Hat1.
      { intros p Hp. unfold a1. by rewrite heap_at_set by lia. }
      destruct (IH a1 tmp jc) as (Hlen & Hperm & Hheap' & Hout).
      + lia.
      + lia.
      + lia.
      + intros k Hk Hkj.
        assert (∀ c, (c = 2 * k ∨ c = 2 * k + 1) → c ≤ n →
                     le lt (heap_at a1 c) (heap_at a1 k)) as Hnode.
        { intros c Hc Hcn. rewrite !Hat1 by lia.
          destruct (decide (k = i)) as [->|Hki].
          - destruct (decide (c = i)); [lia|].
            destruct Hc as [->| ->]; [done | by apply Hc2].
          - destruct (Hheap k Hk Hki) as [H1 H2].
            destruct (decide (c = i)) as [->|Hci].
            + destruct Hhole as [[Hi1 Hi2] _]; [lia|].
              apply (le_tr _ (heap_at a i)).
              * destruct Hjc as [Hjc|Hjc]; rewrite Hjc; [apply Hi1 | apply Hi2];
                  lia.
              * destruct Hc as [Hc|Hc]; rewrite Hc; [apply H1 | apply H2]; lia.
            + destruct Hc as [->| ->]; [apply H1 | apply H2]; lia. }
        split; intros ?; apply Hnode; auto.
      + intros _. split; [|rewrite Hat1 by lia;
                            destruct (decide (jc = i)); [lia | by apply lt_le]].
        destruct (Hheap jc) as [H1 H2]; [lia | lia |].
        split; intros ?; rewrite !Hat1 by lia;
          repeat destruct (decide _); try lia; auto.
      + split; [by rewrite Hlen|]. split.
        { rewrite Hperm. unfold a1. apply heap_set_move; lia. }
        split; [done|].
        intros p Hp Hpout. rewrite Hout by lia. rewrite Hat1 by lia.
        destruct (decide (p = i)); [lia | done].
    - apply Hstop. right. intros c Hc Hcn.
      eapply le_tr; [|exact Hlt].
      destruct Hc as [->| ->]; [done | by apply Hc2].
  Qed.

Lemma build_heap_spec n : ∀ l a,
    n ≤ length a → l ≤ n →
    (∀ k, l < k → heap_node lt a n k) →
    let a' := build_heap lt l a n in
    length a' = length a
    ∧ a' ≡ₚ a
    ∧ (∀ k, 1 ≤ k → heap_node lt a' n k)
    ∧ (∀ p, n < p → heap_at a' p = heap_at a p).
  Proof.
    induction l as [|l IH]; intros a Hn Hl Hheap.
    - cbn. repeat split; try done; apply Hheap; lia.
    - cbn [build_heap]. cbv zeta.
      destruct (sift_down_spec (S l) n n a (heap_at a (S l)) (S l))
        as (Hlen & Hperm & Hheap' & Hout); [lia | lia | lia | | lia |].
      { intros k Hk Hne. apply Hheap. lia. }
      cbv zeta in Hlen, Hperm, Hheap', Hout.
      rewrite heap_set_id in Hperm by lia.
      set (a1 := sift_down lt n a (heap_at a (S l)) (S l) (S l + S l) n) in *.
      destruct (IH a1) as (Hlen2 & Hperm2 & Hheap2 & Hout2).
      + lia.
      + lia.
      + intros k Hk. apply Hheap'. lia.
      + cbv zeta in Hlen2, Hperm2, Hheap2, Hout2.
        split; [congruence|]. split; [by rewrite Hperm2|]. split; [done|].
        intros p Hp. rewrite Hout2 by done. apply Hout; lia.
  Qed.

  (** The first entry of a heap is the greatest. *)
Lemma heap_root_max a n :
    (∀ k, 1 ≤ k → heap_node lt a n k) →
    ∀ k, 1 ≤ k ≤ n → le lt (heap_at a k) (heap_at a 1).
  Proof.
    intros Hheap k. induction (lt_wf k) as [k _ IH]. intros Hk.
    destruct (decide (k = 1)) as [->|Hne]; [apply le_refl|].
    apply (le_tr _ (heap_at a (k / 2))).
    - destruct (Hheap (k / 2)) as [H1 H2].
      { apply Nat.div_le_lower_bound; lia. }
      pose proof (Nat.div_mod_eq k 2) as Hdiv.
      pose proof (Nat.mod_upper_bound k 2 ltac:(lia)) as Hmod.
      destruct (decide (k mod 2 = 0)) as [H0|H0].
      + replace k with (2 * (k / 2)) at 1 by lia. apply H1. lia.
      + replace k with (2 * (k / 2) + 1) at 1 by lia. apply H2. lia.
    - apply IH.
      + apply Nat.div_lt; lia.
      + split; [apply Nat.div_le_lower_bound; lia|].
        etransitivity; [apply Nat.Div0.div_le_upper_bound with (q := k); lia|lia].
  Qed.

Lemma heap_at_lookup a k : 1 ≤ k ≤ length a → a !! (k - 1) = Some (heap_at a k).
  Proof. intros Hk. apply at_lookup. lia. Qed.

  (** Two arrays with the same entries behind the first [n]. *)
Lemma drop_heap_eq a b n :
    length a = length b →
    (∀ p, n < p → heap_at a p = heap_at b p) → drop n a = drop n b.
  Proof.
    intros Hlen Heq. apply list_eq. intros i. rewrite !lookup_drop.
    destruct (le_lt_dec (length a) (n + i)).
    - rewrite !lookup_ge_None_2; [done | lia | lia].
    - specialize (Heq (n + i + 1) ltac:(lia)). unfold heap_at in Heq.
      replace (n + i + 1 - 1) with (n + i) in Heq by lia.
      rewrite !at_lookup by lia. by rewrite Heq.
  Qed.

Lemma take_perm_of_drop_eq (a b : list nat) n :
    a ≡ₚ b → drop n a = drop n b → take n a ≡ₚ take n b.
  Proof.
    intros Hperm Hdrop.
    rewrite <- (take_drop n a), <- (take_drop n b), Hdrop in Hperm.
    by apply Permutation_app_inv_r in Hperm.
  Qed.

Lemma sort_heap_spec : ∀ fuel a n,
    n ≤ length a → n ≤ S fuel →
    (∀ k, 1 ≤ k → heap_node lt a n k) →
    sorted lt (drop n a) →
    (∀ x y, x ∈ take n a → y ∈ drop n a → le lt x y) →
    sort_heap lt fuel a n ≡ₚ a ∧ sorted lt (sort_heap lt fuel a n).
  Proof.
    assert (∀ a n, n ≤ 1 → sorted lt (drop n a) →
                   (∀ x y, x ∈ take n a → y ∈ drop n a → le lt x y) → sorted lt a)
      as Hdone.
    { intros a n Hn Hs Hcross. rewrite <- (take_drop n a).
      apply sorted_app; [|done|done].
      destruct a as [|x a], n as [|[|n]]; try lia; repeat constructor. }
    induction fuel as [|fuel IH]; intros a n Hn Hfuel Hheap Hsorted Hcross.
    { simpl. split; [done|]. apply (Hdone a n); [lia | done | done]. }
    cbn [sort_heap]. destruct (1 <? n) eqn:H1n;
      [|split; [done|]; apply Nat.ltb_ge in H1n; by apply (Hdone a n)].
    apply Nat.ltb_lt in H1n. cbv zeta.
    set (tmp := heap_at a n).
    set (a1 := heap_set a n (heap_at a 1)).
    assert (length a1 = length a) as Hl1 by apply length_heap_set.
    assert (∀ p, 1 ≤ p → heap_at a1 p
                         = if decide (p = n) then heap_at a 1 else heap_at a p)
      as Hat1.
    { intros p Hp. unfold a1. by rewrite heap_at_set by lia. }
    destruct (sift_down_spec 1 (n - 1) (n - 1) a1 tmp 1)
      as (Hlen & Hperm & Hheap' & Hout); [lia | lia | lia | | lia |].
    { intros k Hk Hne. destruct (Hheap k Hk) as [Hk1 Hk2].
      split; intros ?; rewrite !Hat1 by lia;
        repeat destruct (decide _); try lia; [apply Hk1 | apply Hk2]; lia. }
    cbv zeta in Hlen, Hperm, Hheap', Hout.
    change (1 + 1) with 2 in *.
    set (a2 := sift_down lt (n - 1) a1 tmp 1 2 (n - 1)) in *.
    (* the array with the first and the last entry of the heap exchanged *)
    assert (heap_set a1 1 tmp = swap a 0 (n - 1)) as Hswap.
    { unfold a1, tmp, heap_set, heap_at, swap. by rewrite Nat.sub_diag. }
    rewrite Hswap in Hperm.
    assert (a2 ≡ₚ a) as Hperm2 by (rewrite Hperm; apply swap_perm; lia).
    assert (drop (n - 1) a2 = heap_at a 1 :: drop n a) as Hdrop.
    { rewrite (drop_heap_eq a2 a1 (n - 1)) by (done || intros; apply Hout; lia).
      unfold a1, heap_set.
      rewrite (drop_S _ (heap_at a 1) (n - 1))
        by (apply list_lookup_insert_eq; lia).
      replace (S (n - 1)) with n by lia.
      by rewrite drop_insert_lt by lia. }
    assert (∀ x, x ∈ take (n - 1) a2 → x ∈ take n a) as Htake.
    { intros x Hx.
      rewrite (take_perm_of_drop_eq a2 (swap a 0 (n - 1)) (n - 1)) in Hx.
      - apply elem_of_take in Hx as (p & Hp & Hlt).
        apply elem_of_take.
        assert (swap a 0 (n - 1) !! p = Some (at_ (swap a 0 (n - 1)) p)) as Hp'
          by (apply at_lookup; rewrite length_swap; lia).
        rewrite Hp' in Hp. injection Hp as <-.
        rewrite at_swap by lia.
        destruct (decide (p = 0)); [exists (n - 1)|].
        + split; [apply at_lookup|]; lia.
        + destruct (decide (p = n - 1)); [lia|].
          exists p. split; [apply at_lookup|]; lia.
      - done.
      - rewrite Hdrop. rewrite <- Hswap. unfold a1, heap_set.
        rewrite drop_insert_lt by lia.
        rewrite (drop_S _ (heap_at a 1) (n - 1))
          by (apply list_lookup_insert_eq; lia).
        replace (S (n - 1)) with n by lia.
        by rewrite drop_insert_lt by lia. }
    destruct (IH a2 (n - 1)) as [Hp Hs].
    - lia.
    - lia.
    - done.
    - rewrite Hdrop. constructor; [done|].
      apply Forall_forall. intros y Hy. apply Hcross; [|done].
      apply elem_of_take. exists 0. split; [|lia].
      change 0 with (1 - 1). apply heap_at_lookup. lia.
    - intros x y Hx. rewrite Hdrop. intros [->|Hy]%elem_of_cons.
      + apply Htake in Hx. apply elem_of_take in Hx as (p & Hp & Hlt).
        assert (x = heap_at a (p + 1)) as ->.
        { pose proof (heap_at_lookup a (p + 1) ltac:(lia)) as Hp'.
          replace (p + 1 - 1) with p in Hp' by lia. congruence. }
        apply (heap_root_max a n); [done | lia].
      + apply Hcross; [by apply Htake | done].
    - split; [by rewrite Hp | done].
  Qed.

Lemma aheapsort_spec a : aheapsort lt a ≡ₚ a ∧ sorted lt (aheapsort lt a).
  Proof.
    unfold aheapsort. cbv zeta.
    destruct (build_heap_spec (length a) (length a / 2) a)
      as (Hlen & Hperm & Hheap & _).
    - done.
    - apply Nat.Div0.div_le_upper_bound. lia.
    - intros k Hk. assert (length a < 2 * k).
      { pose proof (Nat.div_mod_eq (length a) 2).
        pose proof (Nat.mod_upper_bound (length a) 2 ltac:(lia)). lia. }
      split; lia.
    - cbv zeta in Hlen, Hperm, Hheap.
      set (a1 := build_heap lt (length a / 2) a (length a)) in *.
      destruct (sort_heap_spec (length a) a1 (length a)) as [Hp Hs].
      + lia.
      + lia.
      + done.
      + rewrite drop_ge by lia. constructor.
      + intros x y _. rewrite drop_ge by lia. by intros ?%elem_of_nil.
      + split; [by rewrite Hp | done].
  Qed.

  (** *** The introsort *)

Lemma aquicksort_segment_spec : ∀ fuel popped cdepth a,
    length a < fuel →
    aquicksort_segment lt fuel popped cdepth a ≡ₚ a
    ∧ sorted lt (aquicksort_segment lt fuel popped cdepth a).
  Proof.
    induction fuel as [|fuel IH]; intros popped cdepth a Hfuel; [lia|].
    cbn [aquicksort_segment].
    destruct (popped && (cdepth <? 0)%Z); [apply aheapsort_spec|].
    destruct (SMALL_QUICKSORT <? length a - 1) eqn:Hbig;
      [|apply insertion_sort_spec].
    apply Nat.ltb_lt in Hbig.
    destruct (partition_spec a Hbig) as (a' & pi & -> & Hperm & Hpi & Hlow & Hhigh).
    assert (length a' = length a) as Hlen by by rewrite Hperm.
    assert (a' = take pi a' ++ at_ a' pi :: drop (S pi) a') as Hsplit.
    { symmetry. apply take_drop_middle, at_lookup. lia. }
    assert (∀ x, x ∈ take pi a' → le lt x (at_ a' pi)) as Hleft.
    { intros x (p & Hp & Hlt)%elem_of_take.
      rewrite at_lookup in Hp by lia. injection Hp as <-. by apply Hlow. }
    assert (∀ y, y ∈ drop (S pi) a' → le lt (at_ a' pi) y) as Hright.
    { intros y (p & Hp)%list_elem_of_lookup. rewrite lookup_drop in Hp.
      pose proof (lookup_lt_Some _ _ _ Hp).
      rewrite at_lookup in Hp by lia. injection Hp as <-. apply Hhigh. lia. }
    assert (∀ l r, l ≡ₚ take pi a' → sorted lt l → r ≡ₚ drop (S pi) a' → sorted lt r →
                   l ++ at_ a' pi :: r ≡ₚ a ∧ sorted lt (l ++ at_ a' pi :: r))
      as Hjoin.
    { intros l r Hl Hsl Hr Hsr. split.
      - rewrite Hl, Hr, <- Hsplit. done.
      - apply sorted_app; [done | |].
        + constructor; [done|]. apply Forall_forall. intros y Hy.
          apply Hright. by rewrite <- Hr.
        + intros x y Hx [->|Hy]%elem_of_cons.
          * apply Hleft. by rewrite <- Hl.
          * apply (le_tr _ (at_ a' pi)); [apply Hleft; by rewrite <- Hl|].
            apply Hright. by rewrite <- Hr. }
    assert (length (take pi a') < fuel) as Hfl by (rewrite length_take; lia).
    assert (length (drop (S pi) a') < fuel) as Hfr by (rewrite length_drop; lia).
    destruct (length (take pi a') <? length (drop (S pi) a'));
      apply Hjoin; apply IH; done.
  Qed.

Theorem aquicksort_spec num :
    aquicksort lt num ≡ₚ seq 0 num ∧ sorted lt (aquicksort lt num).
  Proof.
    unfold aquicksort. apply aquicksort_segment_spec. rewrite length_seq. lia.
  Qed.

End numpy_sort.

(* ===================================================================== *)
(** * [sort_values] with the default kind sorts *)
(* ===================================================================== *)

Section nargsort.
  Import PyFloat Pandas Spec NumPy PandasSort.

  (** *** The order of the sort on floats *)

Lemma fle_not_flt x y : fle x y = true → flt y x = false.
  Proof.
    unfold fle, flt, SFleb, SFltb. rewrite (SFcompare_swap x y).
    destruct (SFcompare x y) as [[]|]; simpl; congruence.
  Qed.

Lemma flt_not_nan x y : flt x y = true → is_nan x = false ∧ is_nan y = false.
  Proof.
    unfold flt, SFltb.
    destruct x as [[]|[]| |[] m1 e1], y as [[]|[]| |[] m2 e2];
      simpl; intros; try discriminate; done.
  Qed.

Lemma flt_asym x y : flt x y = true → flt y x = false.
  Proof.
    unfold flt, SFltb. rewrite (SFcompare_swap x y).
    destruct (SFcompare x y) as [[]|]; simpl; congruence.
  Qed.

Lemma less_asym x y : less x y = true → less y x = false.
  Proof.
    unfold less. intros [Hlt|[Hy Hx%negb_true_iff]%andb_true_iff]%orb_true_iff.
    - destruct (flt_not_nan _ _ Hlt) as [-> ->].
      by rewrite (flt_asym _ _ Hlt).
    - rewrite Hx, Hy. cbn. rewrite orb_false_r.
      unfold flt, SFltb. by destruct y, x.
  Qed.

Lemma less_false x y :
    is_nan x = false → is_nan y = false → less x y = false → fle y x = true.
  Proof.
    intros Hx Hy. unfold less. rewrite Hy. cbn. rewrite orb_false_r.
    intros Hlt. by apply (not_fgt_fge y x).
  Qed.

Lemma less_le_trans x y z :
    less y x = false → less z y = false → less z x = false.
  Proof.
    intros Hyx Hzy.
    destruct (is_nan x) eqn:Hx.
    - (* [x] is NaN: so are [y] and [z] *)
      assert (is_nan y = true) as Hy.
      { unfold less in Hyx. rewrite Hx in Hyx.
        apply orb_false_iff in Hyx as [_ Hyx]. by destruct (is_nan y). }
      assert (is_nan z = true) as Hz.
      { unfold less in Hzy. rewrite Hy in Hzy.
        apply orb_false_iff in Hzy as [_ Hzy]. by destruct (is_nan z). }
      unfold less. rewrite Hz. cbn. rewrite andb_false_r, orb_false_r.
      unfold flt, SFltb. by destruct z, x.
    - unfold less. rewrite Hx. cbn. rewrite orb_false_r.
      destruct (is_nan z) eqn:Hz.
      { unfold flt, SFltb. by destruct z, x. }
      destruct (is_nan y) eqn:Hy.
      { unfold less in Hzy. rewrite Hy, Hz in Hzy. cbn in Hzy.
        by rewrite orb_true_r in Hzy. }
      apply fle_not_flt. apply (fle_trans _ y).
      + by apply less_false.
      + by apply less_false.
  Qed.

  (** [argsort]: the positions, in the order of their keys. *)
Lemma argsort_spec v :
    argsort v ≡ₚ seq 0 (length v)
    ∧ StronglySorted (λ p q, less (key v q) (key v p) = false) (argsort v).
  Proof.
    apply (aquicksort_spec (λ p q, less (key v p) (key v q))).
    - intros p q. apply less_asym.
    - intros p q r. apply less_le_trans.
  Qed.

  (** *** Lists of positions *)

Lemma take_all_from {A} (l pre : list A) :
    take (seq (length pre) (length l)) (pre ++ l) = l.
  Proof.
    revert pre. induction l as [|x l IH]; intros pre; [reflexivity|].
    unfold take in *. cbn [length seq omap list_omap].
    rewrite list_lookup_middle by done. f_equal.
    specialize (IH (pre ++ [x])).
    rewrite length_app, Nat.add_1_r, <- app_assoc in IH. exact IH.
  Qed.

Lemma take_all {A} (l : list A) : take (seq 0 (length l)) l = l.
  Proof. apply (take_all_from l []). Qed.

Lemma take_nth {A} (d : A) (l : list A) (pos : list nat) :
    Forall (λ p, (p < length l)%nat) pos →
    take pos l = map (λ p, nth p l d) pos.
  Proof.
    unfold take. induction 1 as [|p pos Hp _ IH]; [reflexivity|].
    cbn [omap list_omap map]. rewrite <- IH.
    destruct (lookup_lt_is_Some_2 l p Hp) as [x Hx].
    by rewrite Hx, (nth_lookup_Some _ _ _ _ Hx).
  Qed.

Lemma strongly_sorted_app {A} (R : A → A → Prop) l r :
    StronglySorted R l → StronglySorted R r →
    (∀ x y, x ∈ l → y ∈ r → R x y) → StronglySorted R (l ++ r).
  Proof.
    intros Hl Hr Hlr. induction Hl as [|x l Hl IH Hx]; [done|].
    simpl. constructor.
    - apply IH. intros ? ? ? ?. apply Hlr; [by right | done].
    - apply Forall_app. split; [done|].
      apply Forall_forall. intros y Hy. apply Hlr; [by left | done].
  Qed.

  (** A list in order, mapped and reversed, is in the opposite order. *)
Lemma strongly_sorted_rev_map {A B} (R : A → A → Prop) (R' : B → B → Prop)
      (f : A → B) l :
    StronglySorted R l →
    (∀ x y, x ∈ l → y ∈ l → R x y → R' (f y) (f x)) →
    StronglySorted R' (rev (map f l)).
  Proof.
    induction 1 as [|x l Hl IH Hx]; intros Hf; [constructor|].
    cbn [map rev]. apply strongly_sorted_app.
    - apply IH. intros y z Hy Hz. apply Hf; by right.
    - repeat constructor.
    - intros y z Hy [->|[]%elem_of_nil]%elem_of_cons.
      rewrite <- Permutation_rev in Hy.
      apply list_elem_of_fmap in Hy as (y' & -> & Hy').
      apply Hf; [by left | by right |].
      rewrite Forall_forall in Hx. by apply Hx.
  Qed.

  (** *** [nargsort] *)

  (** [sort_values] with the default kind puts the keys in descending
      order, the NaN values last, and rearranges the rows. *)
Lemma nargsort_desc_sorts : sorts_descending nargsort_desc.
  Proof.
    intros keys. unfold nargsort_desc. cbv zeta.
    set (idx := seq 0 (length keys)).
    set (nn := rev (filter (λ p, is_nan (key keys p) = false) idx)).
    set (nans := filter (λ p, is_nan (key keys p) = true) idx).
    set (vals := map (key keys) nn).
    destruct (argsort_spec vals) as [Hperm Hsorted].
    set (pos := argsort vals) in *.
    assert (length vals = length nn) as Hlen by apply length_map.
    assert (∀ p, p ∈ nn → (p < length keys)%nat ∧ is_nan (key keys p) = false)
      as Hnn.
    { intros p Hp. unfold nn in Hp. rewrite <- Permutation_rev in Hp.
      apply list_elem_of_filter in Hp as [Hnan Hp].
      apply elem_of_seq in Hp. split; [lia | done]. }
    assert (∀ p, p ∈ nans → (p < length keys)%nat ∧ is_nan (key keys p) = true)
      as Hnans.
    { intros p Hp. apply list_elem_of_filter in Hp as [Hnan Hp].
      apply elem_of_seq in Hp. split; [lia | done]. }
    assert (Forall (λ p, (p < length nn)%nat) pos) as Hpos.
    { apply Forall_forall. intros p Hp. rewrite Hperm in Hp.
      apply elem_of_seq in Hp. lia. }
    assert (take pos nn ≡ₚ nn) as Hindexer.
    { unfold take. rewrite Hperm, Hlen.
      change (take (seq 0 (length nn)) nn ≡ₚ nn). by rewrite take_all. }
    assert (∀ l, (∀ p, p ∈ l → (p < length keys)%nat) →
                 take l keys = map (key keys) l) as Htake.
    { intros l Hl. apply take_nth. apply Forall_forall. exact Hl. }
    split.
    - rewrite <- Permutation_rev, Hindexer. unfold nn.
      rewrite <- Permutation_rev. unfold nans.
      rewrite (list_filter_iff (λ p, is_nan (key keys p) = true)
                 (λ p, ¬ is_nan (key keys p) = false))
        by (intros p; destruct (is_nan (key keys p)); split; congruence).
      apply filter_app_complement.
    - unfold take at 1. rewrite omap_app.
      exists (take (rev (take pos nn)) keys), (take nans keys).
      split; [reflexivity|].
      assert (∀ p, p ∈ rev (take pos nn) → p ∈ nn) as Hin.
      { intros p Hp. by rewrite <- Permutation_rev, Hindexer in Hp. }
      rewrite (Htake (rev (take pos nn))) by (intros p Hp; by apply Hnn, Hin).
      rewrite (Htake nans) by (intros p Hp; by apply Hnans).
      split; [|split].
      + apply Forall_forall. intros x (p & -> & Hp)%list_elem_of_fmap.
        by apply Hnn, Hin.
      + apply Forall_forall. intros x (p & -> & Hp)%list_elem_of_fmap.
        by apply Hnans.
      + rewrite map_rev. rewrite (take_nth 0%nat) by exact Hpos.
        rewrite map_map.
        assert (∀ p, p ∈ pos →
                     key keys (nth p nn 0%nat) = key vals p
                     ∧ is_nan (key vals p) = false) as Hkey.
        { intros p Hp. rewrite Forall_forall in Hpos. specialize (Hpos p Hp).
          assert (key vals p = key keys (nth p nn 0%nat)) as ->.
          { unfold key at 1, vals.
            rewrite (nth_indep _ nan (key keys 0%nat))
              by (rewrite length_map; lia).
            apply map_nth. }
          split; [done|]. apply Hnn.
          apply list_elem_of_lookup. exists p.
          destruct (lookup_lt_is_Some_2 nn p Hpos) as [x Hx].
          by rewrite (nth_lookup_Some _ _ _ _ Hx). }
        rewrite (map_ext_in _ (key vals)).
        2:{ intros p Hp. apply Hkey. by apply list_elem_of_In. }
        apply (strongly_sorted_rev_map _ ge (key vals) pos Hsorted).
        intros p q Hp Hq Hless. unfold ge, fge.
        destruct (Hkey p Hp) as [_ Hnp]. destruct (Hkey q Hq) as [_ Hnq].
        by apply less_false.
  Qed.

End nargsort.

(* ===================================================================== *)
(** * Currency cells (lines 131-133) *)
(* ===================================================================== *)

Section currency.
  Import PyFloat FloatParse PyStr Pandas Spec.

Lemma chars_of_chars l : chars (of_chars l) = l.
  Proof. apply String.list_ascii_of_string_of_list_ascii. Qed.

  (** What the parser sees of a digit. *)
Lemma digit_char_parsed d :
    (d < 10)%nat →
    digit_val (digit_char d) = Some (Z.of_nat d)
    ∧ is_float_space (digit_char d) = false
    ∧ sign (digit_char d :: []) = (false, [digit_char d])
    ∧ lower_char (digit_char d) = digit_char d
    ∧ digit_char d ≠ "i"%char ∧ digit_char d ≠ "n"%char.
  Proof.
    intros Hd.
    do 10 (destruct d as [|d]; [vm_compute; repeat split; congruence|]).
    lia.
  Qed.

Lemma sign_digit d l :
    (d < 10)%nat → sign (digit_char d :: l) = (false, digit_char d :: l).
  Proof.
    intros Hd.
    do 10 (destruct d as [|d]; [reflexivity|]). lia.
  Qed.

Lemma digits_tail_digit acc cnt c l d :
    digit_val c = Some d →
    digits_tail acc cnt (c :: l) = digits_tail (10 * acc + d) (S cnt) l.
  Proof. intros H. cbn [digits_tail]. by rewrite H. Qed.

Lemma digits_tail_stop acc cnt c l :
    digit_val c = None → is_underscore c = false →
    digits_tail acc cnt (c :: l) = (acc, cnt, c :: l).
  Proof. intros H1 H2. cbn [digits_tail]. by rewrite H1, H2. Qed.

Lemma digits_tail_digits ds : ∀ acc cnt rest,
    is_digits ds →
    digits_tail acc cnt (digits_text ds ++ rest)
    = digits_tail (digits_value acc ds) (cnt + length ds) rest.
  Proof.
    induction ds as [|d ds IH]; intros acc cnt rest Hds.
    - simpl. by rewrite Nat.add_0_r.
    - apply Forall_cons in Hds as [Hd Hds].
      destruct (digit_char_parsed d Hd) as (Hval & _).
      cbn [digits_text fmap list_fmap app].
      rewrite (digits_tail_digit _ _ _ _ _ Hval).
      change (digit_char <$> ds) with (digits_text ds).
      rewrite IH by exact Hds. simpl. f_equal. lia.
  Qed.

Lemma digitpart_digits d ds acc rest :
    is_digits (d :: ds) →
    digitpart acc (digits_text (d :: ds) ++ rest)
    = Some (digits_tail (digits_value acc (d :: ds)) (S (length ds)) rest).
  Proof.
    intros [Hd Hds]%Forall_cons.
    destruct (digit_char_parsed d Hd) as (Hval & _).
    unfold digitpart. cbn [digits_text fmap list_fmap app].
    rewrite Hval, digits_tail_digits by exact Hds. reflexivity.
  Qed.

Lemma number_decimal ip frac :
    ip ≠ [] → is_digits ip → is_digits (default [] frac) →
    number (decimal_text ip frac)
    = Some (digits_value 0 (ip ++ default [] frac),
            length (default [] frac), []).
  Proof.
    intros Hne Hip Hfrac. destruct ip as [|d ip]; [done|].
    unfold number, decimal_text. rewrite digitpart_digits by exact Hip.
    destruct frac as [[|f fs]|]; simpl default in *.
    - rewrite app_nil_r. reflexivity.
    - rewrite digits_tail_stop by reflexivity.
      change (is_dot ".") with true. cbv iota.
      rewrite <- (app_nil_r (digits_text (f :: fs))).
      rewrite digitpart_digits by exact Hfrac.
      unfold digits_value. rewrite foldl_app. reflexivity.
    - rewrite !app_nil_r. reflexivity.
  Qed.

Lemma strip_float_id (l : list ascii) c c' :
    head l = Some c → is_float_space c = false →
    last l = Some c' → is_float_space c' = false →
    strip_float l = l.
  Proof.
    intros Hhd Hc Hlast Hc'. unfold strip_float.
    destruct l as [|x l]; [done|]. injection Hhd as ->.
    cbn [lstrip_float]. rewrite Hc.
    destruct (last_Some (c :: l) c') as [[l' Heq] _]; [exact Hlast|].
    rewrite Heq, rev_app_distr. cbn [rev app lstrip_float].
    rewrite Hc'. cbn [rev]. by rewrite rev_involutive.
  Qed.

Lemma last_digits_text ds d :
    last ds = Some d → last (digits_text ds) = Some (digit_char d).
  Proof. intros H. unfold digits_text. by rewrite fmap_last, H. Qed.

  (** [float] of a decimal numeral. *)
Lemma py_float_decimal s ip frac :
    ip ≠ [] → is_digits ip → is_digits (default [] frac) →
    chars s = decimal_text ip frac →
    py_float s = Some (decimal_float ip frac).
  Proof.
    intros Hne Hip Hfrac Hs. unfold py_float. rewrite Hs.
    destruct ip as [|d ip]; [done|].
    pose proof Hip as [Hd _]%Forall_cons.
    destruct (digit_char_parsed d Hd) as (_ & Hsp & _ & Hlow & Hi & Hn).
    assert (strip_float (decimal_text (d :: ip) frac) = decimal_text (d :: ip) frac)
      as ->.
    { assert (∃ c', last (decimal_text (d :: ip) frac) = Some c'
                    ∧ is_float_space c' = false) as (c' & Hlast & Hc').
      { unfold decimal_text. destruct frac as [f|].
        - destruct (last f) as [x|] eqn:Hx.
          + exists (digit_char x). split.
            * rewrite last_app. cbn [last]. rewrite last_cons.
              by rewrite (last_digits_text _ _ Hx).
            * apply digit_char_parsed.
              apply (proj1 (Forall_forall (λ d : nat, (d < 10)%nat) f) Hfrac).
              apply last_Some_elem_of. exact Hx.
          + apply last_None in Hx as ->. exists "."%char.
            cbn [digits_text fmap list_fmap].
            split; [by rewrite last_snoc | reflexivity].
        - rewrite app_nil_r.
          destruct (last (d :: ip)) as [x|] eqn:Hx;
            [|by apply last_None in Hx].
          exists (digit_char x). split; [by apply last_digits_text|].
          apply digit_char_parsed.
          apply (proj1 (Forall_forall (λ d : nat, (d < 10)%nat) (d :: ip)) Hip).
          apply last_Some_elem_of. exact Hx. }
      by eapply strip_float_id. }
    unfold decimal_text at 1. cbn [digits_text fmap list_fmap app].
    rewrite sign_digit by exact Hd.
    change (digit_char d :: (digit_char <$> ip) ++ _)
      with (decimal_text (d :: ip) frac).
    assert (∀ w, head (chars w) = Some "i"%char ∨ head (chars w) = Some "n"%char →
                 is_word w (decimal_text (d :: ip) frac) = false) as Hword.
    { intros w Hw. unfold is_word. apply bool_decide_eq_false. intros Heq.
      apply (f_equal head) in Heq. unfold decimal_text in Heq.
      cbn [digits_text fmap list_fmap app map head] in Heq.
      rewrite Hlow in Heq. destruct Hw as [Hw|Hw]; congruence. }
    rewrite !Hword by (vm_compute; auto). cbn [orb].
    rewrite number_decimal by done. cbn [exponent].
    unfold decimal_float. by rewrite Z.sub_0_l.
  Qed.

  (** The two columns, cell by cell. *)
Lemma value_column_cells (l : list string) :
    (match str_replace "," (ColStr l) with
     | inr v => astype_float v
     | inl e => inl e
     end)
    = match mapM normalize_value l with
      | Some fs => inr fs
      | None => inl ValueError
      end.
  Proof.
    unfold str_replace, astype_float.
    assert (mapM py_float (map (remove_char ",") l) = mapM normalize_value l)
      as ->; [|reflexivity].
    induction l as [|s l IH]; [reflexivity|].
    simpl. unfold normalize_value at 1. by rewrite IH.
  Qed.

Lemma value_cells_inv c v0 value :
    str_replace "," c = inr v0 → astype_float v0 = inr value →
    ∃ cells, c = ColStr cells ∧ mapM normalize_value cells = Some value.
  Proof.
    intros Hv0 Hvalue. destruct c as [cells| | |]; try discriminate.
    exists cells. split; [reflexivity|].
    pose proof (value_column_cells cells) as H. rewrite Hv0, Hvalue in H.
    destruct (mapM normalize_value cells); congruence.
  Qed.

Lemma cost_cells_inv c k0 k1 cost :
    str_replace "$" c = inr k0 → str_replace "," (ColStr k0) = inr k1 →
    astype_float k1 = inr cost →
    ∃ cells, c = ColStr cells ∧ mapM normalize_cost cells = Some cost.
  Proof.
    intros Hk0 Hk1 Hcost. destruct c as [cells| | |]; try discriminate.
    exists cells. split; [reflexivity|].
    injection Hk0 as <-. injection Hk1 as <-.
    unfold astype_float in Hcost.
    assert (mapM py_float (map (remove_char ",") (map (remove_char "$") cells))
            = mapM normalize_cost cells) as Heq.
    { clear. induction cells as [|s l IH]; [reflexivity|].
      simpl. unfold normalize_cost at 1. by rewrite IH. }
    rewrite Heq in Hcost. destruct (mapM normalize_cost cells); congruence.
  Qed.

End currency.

(* ===================================================================== *)
(** * Table extraction (lines 89-104) *)
(* ===================================================================== *)

Section extraction.
  Import Html Spec.

Lemma keep_row_valid headers row :
    keep_row headers row = true ↔ valid_row headers row.
  Proof.
    unfold keep_row, valid_row. rewrite andb_true_iff, Nat.eqb_eq.
    destruct row as [|c row]; split; intros [H1 H2]; split;
      solve [discriminate | assumption | reflexivity | contradiction].
  Qed.

Lemma keep_rows_app headers a b :
    keep_rows headers (a ++ b) = keep_rows headers a ++ keep_rows headers b.
  Proof. unfold keep_rows. apply filter_app. Qed.

Lemma keep_rows_valid headers raw :
    Forall (valid_row headers) raw → keep_rows headers raw = raw.
  Proof.
    unfold keep_rows. induction 1 as [|row raw Hrow _ IH]; [reflexivity|].
    rewrite filter_cons_True by (apply keep_row_valid, Hrow). by rewrite IH.
  Qed.

Lemma keep_rows_drop headers bad before after :
    ¬ valid_row headers bad →
    keep_rows headers (before ++ bad :: after)
    = keep_rows headers before ++ keep_rows headers after.
  Proof.
    intros Hbad. rewrite keep_rows_app. f_equal. unfold keep_rows.
    rewrite filter_cons_False; [reflexivity|]. by rewrite keep_row_valid.
  Qed.

  (** C9, as stated, fails: the only data row of [bare_table] has exactly as
      many cells as there are headers (none), and it is not kept. *)
Lemma bare_row_dropped :
    let headers := extract_headers bare_table in
    let row := row_of_tr {| header_row_class := false; cells := [] |} in
    map row_of_tr (tail bare_table) = [row]
    ∧ length row = length headers
    ∧ extract_rows headers bare_table = [].
  Proof. vm_compute. repeat split; reflexivity. Qed.

  (** C9 (amended): during table extraction a row is kept if and only if it
      has at least one cell and its cell count equals the header count.  A
      row that fails the test is dropped by a total, pure step (nothing is
      raised or logged), the rows around it are kept or dropped as if it were
      not there, and rows that pass are all kept in their order: ten raw rows
      of which one fails give the other nine. *)
Theorem extract_rows_keeps_valid_rows (headers : list string) (t : table) :
    (∀ row, row ∈ extract_rows headers t
            ↔ row ∈ map row_of_tr (tail t) ∧ valid_row headers row)
    ∧ (∀ before bad after,
          ¬ valid_row headers bad →
          keep_rows headers (before ++ bad :: after)
          = keep_rows headers before ++ keep_rows headers after)
    ∧ (∀ before bad after,
          Forall (valid_row headers) (before ++ after) →
          ¬ valid_row headers bad →
          length (before ++ bad :: after) = 10%nat →
          keep_rows headers (before ++ bad :: after) = before ++ after
          ∧ length (keep_rows headers (before ++ bad :: after)) = 9%nat).
  Proof.
    split; [|split].
    - intros row. unfold extract_rows, keep_rows.
      rewrite list_elem_of_filter, keep_row_valid. tauto.
    - intros before bad after. apply keep_rows_drop.
    - intros before bad after Hok Hbad Hlen.
      rewrite keep_rows_drop by exact Hbad.
      rewrite <- keep_rows_app, keep_rows_valid by exact Hok.
      split; [reflexivity|].
      rewrite !length_app in *. simpl in Hlen. lia.
  Qed.

End extraction.

(* ===================================================================== *)
(** * Reasoning about the methods *)
(* ===================================================================== *)

Section frames.
  Import Pandas Tracker Spec.
  Context {B : Type} (f : World → B).

Lemma keeps_ret {A} (a : A) : keeps f (mret a).
  Proof. intros w. reflexivity. Qed.

Lemma keeps_raise {A} e : keeps f (raise (A := A) e).
  Proof. intros w. reflexivity. Qed.

Lemma keeps_get : keeps f get.
  Proof. intros w. reflexivity. Qed.

Lemma keeps_lift {A} (r : exn + A) : keeps f (lift r).
  Proof. destruct r; intros w; reflexivity. Qed.

Lemma keeps_bind {A C} (m : M A) (k : A → M C) :
    keeps f m → (∀ a, keeps f (k a)) → keeps f (m ≫= k).
  Proof.
    intros Hm Hk w. specialize (Hm w). unfold world_after in *.
    unfold mbind, M_bind. destruct (m w) as [[a|e] w']; simpl in *.
    - rewrite <- Hm. apply Hk.
    - exact Hm.
  Qed.

Lemma keeps_try_except {A} (body : M A) (handler : exn → M A) :
    keeps f body → (∀ e, keeps f (handler e)) → keeps f (try_except body handler).
  Proof.
    intros Hm Hk w. specialize (Hm w). unfold world_after, try_except in *.
    destruct (body w) as [[a|e] w']; simpl in *.
    - exact Hm.
    - rewrite <- Hm. apply Hk.
  Qed.

Lemma keeps_modify (g : World → World) :
    (∀ w, f (g w) = f w) → keeps f (modify g).
  Proof. intros Hg w. apply Hg. Qed.

  Context (Hblind : blind f).

Lemma keeps_alloc df : keeps f (alloc df).
  Proof. intros w. apply Hblind. Qed.

Lemma keeps_deref r : keeps f (deref r).
  Proof. intros w. unfold world_after, deref. by destruct (heap w !! r). Qed.

Lemma keeps_update r g : keeps f (update r g).
  Proof.
    intros w. unfold world_after, update.
    destruct (heap w !! r); [apply Hblind | reflexivity].
  Qed.

Lemma keeps_logger lv msg : keeps f (logger lv msg).
  Proof. intros w. apply Hblind. Qed.

Lemma keeps_copy r : keeps f (copy r).
  Proof. apply keeps_bind; [apply keeps_deref | intros; apply keeps_alloc]. Qed.

Lemma keeps_series r label dup : keeps f (series r label dup).
  Proof. apply keeps_bind; [apply keeps_deref | intros; apply keeps_lift]. Qed.

Lemma keeps_datetime_now env : keeps f (datetime_now env).
  Proof. intros w. apply Hblind. Qed.

Lemma keeps_restrict r mask :
    (∀ d, keeps f (mask d)) → keeps f (restrict r mask).
  Proof.
    intros Hmask. apply keeps_bind; [apply keeps_deref | intros d].
    apply keeps_bind; [apply Hmask | intros; apply keeps_alloc].
  Qed.

End frames.

(** The steps of a proof that a method keeps an observation. *)
Ltac keeps_step :=
  lazymatch goal with
  | |- Spec.keeps _ (mret _) => apply keeps_ret
  | |- Spec.keeps _ (Tracker.raise _) => apply keeps_raise
  | |- Spec.keeps _ Tracker.get => apply keeps_get
  | |- Spec.keeps _ (Tracker.lift _) => apply keeps_lift
  | |- Spec.keeps _ (Tracker.alloc _) => apply keeps_alloc
  | |- Spec.keeps _ (Tracker.deref _) => apply keeps_deref
  | |- Spec.keeps _ (Tracker.update _ _) => apply keeps_update
  | |- Spec.keeps _ (Tracker.logger _ _) => apply keeps_logger
  | |- Spec.keeps _ (Tracker.copy _) => apply keeps_copy
  | |- Spec.keeps _ (Tracker.series _ _ _) => apply keeps_series
  | |- Spec.keeps _ (Tracker.datetime_now _) => apply keeps_datetime_now
  | |- Spec.keeps _ (Tracker.restrict _ _) => apply keeps_restrict; intros
  | |- Spec.keeps _ (Tracker.try_except _ _) => apply keeps_try_except; [|intros]
  | |- Spec.keeps _ (_ ≫= _) => apply keeps_bind; [|intros]
  | |- Spec.keeps _ (match ?x with _ => _ end) => destruct x
  | |- Spec.blind _ => repeat split
  end.

Ltac keeps_auto := repeat keeps_step; try done.

(** What a run that returned went through. *)
Section inversion.
  Import Pandas Tracker Spec.

Lemma run_eq {A} (m : M A) w a :
    result_of m w = Return a → m w = (Return a, world_after m w).
  Proof.
    unfold result_of, world_after. destruct (m w) as [res w']. simpl.
    by intros ->.
  Qed.

Lemma bind_inv {A C} (m : M A) (k : A → M C) w c w' :
    (m ≫= k) w = (Return c, w') →
    ∃ a w1, m w = (Return a, w1) ∧ k a w1 = (Return c, w').
  Proof.
    unfold mbind, M_bind. destruct (m w) as [[a|e] w1]; [eauto | discriminate].
  Qed.

Lemma ret_inv {A} (a b : A) w w' :
    (mret a : M A) w = (Return b, w') → a = b ∧ w' = w.
  Proof. by intros [= -> ->]. Qed.

Lemma get_inv w a w' : get w = (Return a, w') → a = w ∧ w' = w.
  Proof. by intros [= -> ->]. Qed.

Lemma lift_inv {A} (r : exn + A) a w w' :
    lift r w = (Return a, w') → r = inr a ∧ w' = w.
  Proof. destruct r; [discriminate | by intros [= -> ->]]. Qed.

Lemma deref_inv r w d w' :
    deref r w = (Return d, w') → heap w !! r = Some d ∧ w' = w.
  Proof.
    unfold deref. destruct (heap w !! r); [by intros [= -> ->] | discriminate].
  Qed.

Lemma series_inv r label dup w c w' :
    series r label dup w = (Return c, w') →
    ∃ d, heap w !! r = Some d ∧ getitem label dup d = inr c ∧ w' = w.
  Proof.
    intros (d & w1 & [Hd ->]%deref_inv & [Hc ->]%lift_inv)%bind_inv. eauto.
  Qed.

Lemma update_inv r f w u w' :
    update r f w = (Return u, w') →
    ∃ d, heap w !! r = Some d ∧ w' = set_heap (<[r := f d]> (heap w)) w.
  Proof.
    unfold update. destruct (heap w !! r) as [d|]; [|discriminate].
    intros [= _ <-]. eauto.
  Qed.

Lemma alloc_inv df w r w' :
    alloc df w = (Return r, w') →
    r = length (heap w) ∧ w' = set_heap (heap w ++ [df]) w.
  Proof. by intros [= <- <-]. Qed.

Lemma logger_inv lv msg w u w' :
    logger lv msg w = (Return u, w') → w' = set_log (log w ++ [(lv, msg)]) w.
  Proof. by intros [= _ <-]. Qed.

  (** A [try] whose handler returns [None], and which returned something. *)
Lemma try_except_some_inv {A} (body : M (option A)) handler w a w' :
    (∀ e w1 w2 r, handler e w1 = (r, w2) → r = Return None) →
    try_except body handler w = (Return (Some a), w') →
    body w = (Return (Some a), w').
  Proof.
    intros Hh. unfold try_except. destruct (body w) as [[x|e] w1]; [done|].
    intros Hrun. apply Hh in Hrun. discriminate.
  Qed.

End inversion.

(** Runs, forwards. *)
Section forward.
  Import Pandas Tracker Spec.

Lemma bind_run {A C} (m : M A) (k : A → M C) w a w1 :
    m w = (Return a, w1) → (m ≫= k) w = k a w1.
  Proof. intros H. unfold mbind, M_bind. by rewrite H. Qed.

Lemma bind_raise {A C} (m : M A) (k : A → M C) w e w1 :
    m w = (Raise e, w1) → (m ≫= k) w = (Raise e, w1).
  Proof. intros H. unfold mbind, M_bind. by rewrite H. Qed.

Lemma deref_run r d w : heap w !! r = Some d → deref r w = (Return d, w).
  Proof. intros H. unfold deref. by rewrite H. Qed.

Lemma series_run r d label dup w :
    heap w !! r = Some d → series r label dup w = lift (getitem label dup d) w.
  Proof. intros H. unfold series. by erewrite bind_run by by apply deref_run. Qed.

Lemma restrict_run r d mask m w :
    heap w !! r = Some d → mask d w = (Return m, w) →
    restrict r mask w
    = (Return (length (heap w)), set_heap (heap w ++ [select m d]) w).
  Proof.
    intros Hd Hm. unfold restrict.
    erewrite bind_run by by apply deref_run.
    erewrite bind_run by exact Hm. reflexivity.
  Qed.

Lemma restrict_raise r d mask e w :
    heap w !! r = Some d → mask d w = (Raise e, w) →
    restrict r mask w = (Raise e, w).
  Proof.
    intros Hd Hm. unfold restrict.
    erewrite bind_run by by apply deref_run.
    by erewrite bind_raise by exact Hm.
  Qed.

Lemma lift_and_then {A B} (r : exn + A) (k : A → exn + B) w :
    (lift r ≫= λ a, lift (k a)) w = lift (and_then r k) w.
  Proof. destruct r; reflexivity. Qed.


End forward.

(* ===================================================================== *)
(** * Columns of a frame *)
(* ===================================================================== *)

Section frame_columns.
  Import Pandas.

Lemma filter_label_replace label col cols :
    filter (λ kc, has_label label kc = true)
           (map (λ kc, if has_label label kc then (label, col) else kc) cols)
    = map (λ _, (label, col)) (filter (λ kc, has_label label kc = true) cols).
  Proof.
    induction cols as [|kc cols IH]; [reflexivity|].
    simpl map. destruct (has_label label kc) eqn:E.
    - rewrite !filter_cons_True, IH; [reflexivity | exact E |].
      unfold has_label. simpl. by apply bool_decide_eq_true.
    - rewrite !filter_cons_False, IH; [reflexivity | congruence | congruence].
  Qed.

Lemma filter_label_replace_ne label other col cols :
    label ≠ other →
    filter (λ kc, has_label label kc = true)
           (map (λ kc, if has_label other kc then (other, col) else kc) cols)
    = filter (λ kc, has_label label kc = true) cols.
  Proof.
    intros Hne. induction cols as [|kc cols IH]; [reflexivity|].
    simpl map. destruct (has_label other kc) eqn:E.
    - apply bool_decide_eq_true in E.
      rewrite !filter_cons_False, IH; [reflexivity | |];
        unfold has_label; rewrite bool_decide_eq_true; simpl; congruence.
    - destruct (has_label label kc) eqn:E'.
      + rewrite !filter_cons_True, IH; [reflexivity | exact E' | exact E'].
      + rewrite !filter_cons_False, IH; [reflexivity | congruence | congruence].
  Qed.

Lemma existsb_has_label label cols :
    existsb (has_label label) cols = false →
    filter (λ kc, has_label label kc = true) cols = [].
  Proof.
    induction cols as [|kc cols IH]; [reflexivity|]. simpl.
    intros [H1 H2]%orb_false_iff.
    rewrite filter_cons_False by congruence. by apply IH.
  Qed.

  (** Reading a column that has just been written. *)
Lemma getitem_setitem label dup dup' col old df :
    getitem label dup df = inr old →
    getitem label dup' (setitem label col df) = inr col.
  Proof.
    unfold getitem, setitem. simpl.
    destruct (existsb (has_label label) (columns df)) eqn:E.
    - rewrite filter_label_replace.
      destruct (filter _ (columns df)) as [|kc [|kc' rest]];
        [discriminate | reflexivity | discriminate].
    - rewrite (existsb_has_label _ _ E). discriminate.
  Qed.

  (** Writing a column leaves the others as they were. *)
Lemma getitem_setitem_ne label other dup col df :
    label ≠ other →
    getitem label dup (setitem other col df) = getitem label dup df.
  Proof.
    intros Hne. unfold getitem, setitem. simpl.
    destruct (existsb (has_label other) (columns df)).
    - by rewrite filter_label_replace_ne.
    - rewrite filter_app, filter_cons_False, filter_nil, app_nil_r; [reflexivity|].
      unfold has_label. rewrite bool_decide_eq_true. simpl. congruence.
  Qed.

Lemma index_setitem label col df : index (setitem label col df) = index df.
  Proof. reflexivity. Qed.

  (** A column of a frame whose rows were rearranged or selected. *)
Lemma getitem_map_rows f label dup df :
    getitem label dup (map_rows f df)
    = match getitem label dup df with
      | inr col => inr (map_column f col)
      | inl e => inl e
      end.
  Proof.
    unfold getitem, map_rows. simpl.
    assert (∀ cols,
      filter (λ kc, has_label label kc = true)
             (map (λ kc : string * column, (kc.1, map_column f kc.2)) cols)
      = map (λ kc, (kc.1, map_column f kc.2))
            (filter (λ kc, has_label label kc = true) cols)) as ->.
    { induction cols as [|kc cols IH]; [reflexivity|]. simpl map.
      destruct (has_label label kc) eqn:E.
      - rewrite !filter_cons_True, IH; [reflexivity | exact E | exact E].
      - rewrite !filter_cons_False, IH;
          [reflexivity | | ]; unfold has_label in *; simpl in *; congruence. }
    destruct (filter _ (columns df)) as [|kc [|kc' rest]]; reflexivity.
  Qed.

End frame_columns.

(* ===================================================================== *)
(** * The query operations (lines 153-230) *)
(* ===================================================================== *)

Section queries.
  Import PyFloat Pandas Tracker Spec Demo.

Lemma cached_or_fetch_cached env w c :
    _cached_data w = Some c → cached_or_fetch env w = (Return (Some c), w).
  Proof. intros H. unfold cached_or_fetch, mbind, M_bind, get. by rewrite H. Qed.

Example fetched_once_state :
    _cached_data fetched_once = Some 1%nat
    ∧ _last_fetch_time fetched_once = Some (midnight 19785)
    ∧ requests fetched_once = 1%nat
    ∧ length (heap fetched_once) = 3%nat
    ∧ (index <$> heap fetched_once !! 1%nat) = Some [1; 0; 2]%nat.
  Proof. vm_compute. repeat split; reflexivity. Qed.

  (** C8, as stated, fails: without a credential the result is [None], the
      value that a failed fetch returns, and not a reference to an empty
      frame. *)
Lemma no_credential_returns_none :
    let env := demo_env (always trades) provider_down stable_argsort in
    let out := get_trades_by_market_cap_percent env (of_Z 1) fetched_once in
    has_api_key fetched_once = false
    ∧ out.1 = Return None
    ∧ ¬ (∃ r df, out.1 = Return (Some r) ∧ heap out.2 !! r = Some df
                  ∧ empty df = true).
  Proof.
    vm_compute. split; [reflexivity|]. split; [reflexivity|].
    intros (r & df & H & _). discriminate H.
  Qed.

  (** C8 (amended): when no market-cap provider credential is configured,
      every call of [get_trades_by_market_cap_percent], whatever the cache
      state, returns the no-result value [None] (the value a failed fetch
      returns, not an empty dataset) and logs one warning; it fetches
      nothing and changes nothing else. *)
Theorem market_cap_percent_without_credential env min_percent w :
    has_api_key w = false →
    get_trades_by_market_cap_percent env min_percent w
    = (Return None, set_log (log w ++ [(WARNING, MsgNoMarketCapFiltering)]) w).
  Proof.
    intros Hkey. unfold get_trades_by_market_cap_percent, mbind, M_bind, get.
    by rewrite Hkey.
  Qed.

Lemma market_cap_percent_without_credential_witness :
    get_trades_by_market_cap_percent
      (demo_env (always trades) provider_down stable_argsort) (of_Z 1) fetched_once
    = (Return None,
       set_log (log fetched_once ++ [(WARNING, MsgNoMarketCapFiltering)])
               fetched_once).
  Proof.
    apply (market_cap_percent_without_credential _ _ fetched_once).
    vm_compute. reflexivity.
  Defined.

  (** C7 fails on the code: [filter_trades] with no filter that applies
      (an empty [filters], or only a market-cap percentage when there is no
      credential) returns the cached frame itself, so that what the caller
      does to the frame it got is done to the cache. *)
Theorem filter_trades_returns_the_cache env w c df :
    _cached_data w = Some c → heap w !! c = Some df → empty df = false →
    filter_trades env no_filters w = (Return (Some c), w)
    ∧ (∀ x, has_api_key w = false →
            filter_trades env (only_percent x) w = (Return (Some c), w))
    ∧ (∀ g : DataFrame → DataFrame,
          let w' := world_after (update c g) w in
          _cached_data w' = Some c ∧ heap w' !! c = Some (g df)).
  Proof.
    intros Hc Hdf Hne. repeat split.
    - unfold filter_trades, mbind, M_bind.
      rewrite (cached_or_fetch_cached _ _ _ Hc). unfold deref.
      rewrite Hdf, Hne. reflexivity.
    - intros x Hkey. unfold filter_trades, mbind, M_bind.
      rewrite (cached_or_fetch_cached _ _ _ Hc). unfold deref.
      rewrite Hdf, Hne. simpl. rewrite Hkey. reflexivity.
    - unfold world_after, update. rewrite Hdf. simpl. exact Hc.
    - unfold world_after, update. rewrite Hdf. simpl.
      apply list_lookup_insert_eq. by eapply lookup_lt_Some.
  Qed.

Lemma filter_trades_returns_the_cache_witness :
    let env := demo_env (always trades) provider_down stable_argsort in
    ∃ df, heap fetched_once !! 1%nat = Some df
          ∧ filter_trades env no_filters fetched_once
            = (Return (Some 1%nat), fetched_once).
  Proof.
    destruct (heap fetched_once !! 1%nat) as [df|] eqn:Hdf;
      [|vm_compute in Hdf; discriminate Hdf].
    exists df. split; [reflexivity|].
    refine (proj1 (filter_trades_returns_the_cache _ fetched_once 1%nat df _ Hdf _)).
    - vm_compute. reflexivity.
    - revert Hdf. vm_compute. intros [= <-]. reflexivity.
  Defined.

End queries.

(* ===================================================================== *)
(** * Market-cap resolution (lines 37-56) *)
(* ===================================================================== *)

Section market_cap.
  Import PyFloat Pandas Tracker Spec Demo.

  (** What one call does, case by case. *)
Lemma get_market_cap_run env ticker w :
    _get_market_cap env ticker w =
    if negb (has_api_key w) then (Return (PyInt 0), w)
    else
      match _market_cap_cache w !! ticker with
      | Some cached => (Return (PyFlt cached), w)
      | None =>
          let w1 := set_lookups (lookups w ++ [ticker]) w in
          match lookup_result env (length (lookups w)) ticker with
          | inr v =>
              (Return (PyFlt v),
               set_market_cap_cache (<[ticker := v]> (_market_cap_cache w)) w1)
          | inl e =>
              (Return (PyInt 0),
               set_log (log w ++ [(WARNING, MsgMarketCapFailed ticker e)]) w1)
          end
      end.
  Proof.
    unfold _get_market_cap, lookup_result, mbind, M_bind, get.
    destruct (negb (has_api_key w)); [reflexivity|].
    destruct (_market_cap_cache w !! ticker); [reflexivity|].
    unfold try_except, fd_get_company_overview.
    destruct (get_company_overview env (length (lookups w)) ticker) as [ov|];
      [|reflexivity].
    destruct (market_cap_field ov); reflexivity.
  Qed.

Lemma has_api_key_get_market_cap env ticker :
    keeps has_api_key (_get_market_cap env ticker).
  Proof.
    intros w. unfold world_after. rewrite get_market_cap_run.
    repeat case_match; reflexivity.
  Qed.

  (** An entry of the cache stays, and no lookup is made for its ticker. *)
Lemma get_market_cap_cached env ticker other v w :
    has_api_key w = true →
    _market_cap_cache w !! ticker = Some v →
    let w' := world_after (_get_market_cap env other) w in
    _market_cap_cache w' !! ticker = Some v
    ∧ lookups_of ticker w' = lookups_of ticker w.
  Proof.
    intros Hkey Hv. unfold world_after. rewrite get_market_cap_run, Hkey. simpl.
    destruct (_market_cap_cache w !! other) as [c|] eqn:Hother; [done|].
    assert (other ≠ ticker) as Hne by congruence.
    assert (lookups_of ticker (set_lookups (lookups w ++ [other]) w)
            = lookups_of ticker w) as Hcount.
    { unfold lookups_of. simpl. rewrite filter_app, length_app.
      rewrite filter_cons_False by exact Hne. simpl. lia. }
    destruct (lookup_result env (length (lookups w)) other); simpl.
    - split; [exact Hv | exact Hcount].
    - split; [by rewrite lookup_insert_ne | exact Hcount].
  Qed.

Lemma apply_get_market_cap_cached env ticker v ts : ∀ w,
    has_api_key w = true →
    _market_cap_cache w !! ticker = Some v →
    let w' := world_after (apply_get_market_cap env ts) w in
    _market_cap_cache w' !! ticker = Some v
    ∧ lookups_of ticker w' = lookups_of ticker w.
  Proof.
    induction ts as [|t ts IH]; intros w Hkey Hv; [done|].
    simpl. unfold world_after, mbind, M_bind.
    pose proof (get_market_cap_cached env ticker t v w Hkey Hv) as [Hv1 Hn1].
    pose proof (has_api_key_get_market_cap env t w) as Hkey1.
    unfold world_after in *.
    destruct (_get_market_cap env t w) as [[x|e] w1] eqn:Hrun; simpl in *.
    - rewrite Hkey in Hkey1.
      specialize (IH w1 Hkey1 Hv1). simpl in IH. unfold world_after in IH.
      destruct (apply_get_market_cap env ts w1) as [[xs|e] w2]; simpl in *;
        (split; [apply IH | rewrite <- Hn1; apply IH]).
    - done.
  Qed.

  (** C3, as stated, fails: with a credential and a provider that is down,
      two calls for the same ticker make two external lookups and store
      nothing. *)
Lemma failed_lookup_repeated :
    let env := demo_env (always trades) provider_down stable_argsort in
    let out := apply_get_market_cap env ["ACME"; "ACME"] (init (Some "demo")) in
    out.1 = Return [PyInt 0; PyInt 0]
    ∧ lookups out.2 = ["ACME"; "ACME"]
    ∧ lookups_of "ACME" out.2 = 2%nat
    ∧ _market_cap_cache out.2 !! "ACME" = None.
  Proof. vm_compute. repeat split; reflexivity. Qed.

  (** C3 (amended): with a credential, a call for a ticker that is in the
      market-cap cache returns the entry and does nothing else; a call for a
      ticker that is not makes exactly one external lookup, and stores its
      value (0.0 when the field is absent) exactly when the lookup raised
      nothing: after a lookup that raised, the call returns the integer 0
      and the cache is as before.  Once a ticker is in the cache, no later call for any
      ticker changes its entry or looks it up again. *)
Theorem market_cap_cached_after_successful_lookup env w ticker :
    has_api_key w = true →
    (∀ v, _market_cap_cache w !! ticker = Some v →
          _get_market_cap env ticker w = (Return (PyFlt v), w))
    ∧ (_market_cap_cache w !! ticker = None →
       let out := _get_market_cap env ticker w in
       lookups out.2 = lookups w ++ [ticker]
       ∧ match lookup_result env (length (lookups w)) ticker with
         | inr v =>
             out.1 = Return (PyFlt v)
             ∧ _market_cap_cache out.2 = <[ticker := v]> (_market_cap_cache w)
         | inl _ =>
             out.1 = Return (PyInt 0)
             ∧ _market_cap_cache out.2 = _market_cap_cache w
         end)
    ∧ (∀ v later,
          _market_cap_cache w !! ticker = Some v →
          let w' := world_after (apply_get_market_cap env later) w in
          _market_cap_cache w' !! ticker = Some v
          ∧ lookups_of ticker w' = lookups_of ticker w).
  Proof.
    intros Hkey. split; [|split].
    - intros v Hv. by rewrite get_market_cap_run, Hkey, Hv.
    - intros Hnone. simpl. rewrite get_market_cap_run, Hkey, Hnone. simpl.
      destruct (lookup_result env (length (lookups w)) ticker); simpl; done.
    - intros v later Hv. by apply apply_get_market_cap_cached.
  Qed.

Lemma market_cap_cached_after_successful_lookup_witness :
    let env := demo_env (always trades) provider_up stable_argsort in
    let w := world_after (_get_market_cap env "ACME") (init (Some "demo")) in
    _market_cap_cache w !! "ACME" = Some (of_Z 50000000)
    ∧ lookups_of "ACME"
        (world_after (apply_get_market_cap env ["INIT"; "ACME"; "ACME"]) w)
      = 1%nat.
  Proof.
    set (env := demo_env (always trades) provider_up stable_argsort).
    set (w := world_after (_get_market_cap env "ACME") (init (Some "demo"))).
    assert (Hkey : has_api_key w = true) by (vm_compute; reflexivity).
    assert (Hv : _market_cap_cache w !! "ACME" = Some (of_Z 50000000))
      by (vm_compute; reflexivity).
    split; [exact Hv|].
    destruct (market_cap_cached_after_successful_lookup env w "ACME" Hkey)
      as (_ & _ & Hlater).
    pose proof (Hlater _ ["INIT"; "ACME"; "ACME"] Hv) as [_ Hcount].
    etransitivity; [exact Hcount|].
    vm_compute. reflexivity.
  Defined.

End market_cap.

(* ===================================================================== *)
(** * Processing (lines 122-151) *)
(* ===================================================================== *)

Section processing.
  Import PyFloat FloatParse PyStr Pandas Tracker Spec Demo.

Lemma heap_get_market_cap env ticker : keeps heap (_get_market_cap env ticker).
  Proof.
    intros w. unfold world_after. rewrite get_market_cap_run.
    repeat case_match; reflexivity.
  Qed.

Lemma attrs_get_market_cap env ticker : keeps attrs (_get_market_cap env ticker).
  Proof.
    intros w. unfold world_after. rewrite get_market_cap_run.
    repeat case_match; reflexivity.
  Qed.

Lemma attrs_apply_get_market_cap env ts : keeps attrs (apply_get_market_cap env ts).
  Proof.
    induction ts as [|t ts IH]; simpl; [apply keeps_ret|].
    apply keeps_bind; [apply attrs_get_market_cap | intros x].
    apply keeps_bind; [apply IH | intros; apply keeps_ret].
  Qed.

Lemma heap_apply_get_market_cap env ts : keeps heap (apply_get_market_cap env ts).
  Proof.
    induction ts as [|t ts IH]; simpl; [apply keeps_ret|].
    apply keeps_bind; [apply heap_get_market_cap | intros x].
    apply keeps_bind; [apply IH | intros; apply keeps_ret].
  Qed.

Lemma value_of_converted date value cost cap pct df old dup dup' :
    getitem "Value ($)" dup (setitem "Date" (ColTime date) df) = inr old →
    getitem "Value ($)" dup' (converted date value cost cap pct df)
    = inr (ColFloat value).
  Proof.
    intros Hold. unfold converted.
    rewrite !getitem_setitem_ne by discriminate.
    by eapply getitem_setitem.
  Qed.

Lemma insert_insert_heap (h : list DataFrame) r d1 d2 :
    <[r := d2]> (<[r := d1]> h) = <[r := d2]> h.
  Proof. apply list_insert_insert_eq. Qed.

  (** A successful run of [process_insider_data], spelled out. *)
Lemma process_success env r w s w' :
    process_insider_data env (Some r) w = (Return (Some s), w') →
    ∃ df date value cost cap pct,
      heap w !! r = Some df
      ∧ empty df = false
      ∧ s = length (heap w)
      ∧ heap w' = <[r := converted date value cost cap pct df]> (heap w)
                  ++ [reorder (argsort_desc env value)
                              (converted date value cost cap pct df)]
      ∧ getitem "Value ($)" ValueError (converted date value cost cap pct df)
        = inr (ColFloat value)
      ∧ _cached_data w' = _cached_data w
      ∧ _last_fetch_time w' = _last_fetch_time w
      ∧ getitem "Cost" ValueError (converted date value cost cap pct df)
        = inr (ColFloat cost)
      ∧ ∃ value_cells cost_cells,
          getitem "Value ($)" AttributeError df = inr (ColStr value_cells)
          ∧ mapM normalize_value value_cells = Some value
          ∧ getitem "Cost" AttributeError df = inr (ColStr cost_cells)
          ∧ mapM normalize_cost cost_cells = Some cost.
  Proof.
    unfold process_insider_data. intros Hrun.
    apply bind_inv in Hrun as (df & w0 & [Hdf ->]%deref_inv & Hrun).
    destruct (empty df) eqn:Hempty; [discriminate|].
    apply try_except_some_inv in Hrun;
      [|intros e w1 w2 res [= <- _]; reflexivity].
    assert (Hr : (r < length (heap w))%nat) by by eapply lookup_lt_Some.
    (* line 129 *)
    apply bind_inv in Hrun as (c0 & w1 & (d & Hd & Hc0 & ->)%series_inv & Hrun).
    rewrite Hdf in Hd. injection Hd as <-.
    apply bind_inv in Hrun as (date & w1 & [Hdate ->]%lift_inv & Hrun).
    apply bind_inv in Hrun as (u & w1 & (d & Hd & ->)%update_inv & Hrun).
    rewrite Hdf in Hd. injection Hd as <-.
    set (d1 := setitem "Date" (ColTime date) df) in *.
    (* line 132 *)
    apply bind_inv in Hrun as (c1 & w1 & (d & Hd & Hc1 & ->)%series_inv & Hrun).
    cbn [heap set_heap] in Hd.
    rewrite list_lookup_insert_eq in Hd by exact Hr. injection Hd as <-.
    apply bind_inv in Hrun as (v0 & w1 & [Hv0 ->]%lift_inv & Hrun).
    apply bind_inv in Hrun as (value & w1 & [Hvalue ->]%lift_inv & Hrun).
    apply bind_inv in Hrun as (u1 & w1 & (d & Hd & ->)%update_inv & Hrun).
    cbn [heap set_heap] in Hd, Hrun.
    rewrite list_lookup_insert_eq in Hd by exact Hr. injection Hd as <-.
    rewrite list_insert_insert_eq in Hrun.
    set (d2 := setitem "Value ($)" (ColFloat value) d1) in *.
    (* line 133 *)
    apply bind_inv in Hrun as (c2 & w1 & (d & Hd & Hc2 & ->)%series_inv & Hrun).
    cbn [heap set_heap] in Hd.
    rewrite list_lookup_insert_eq in Hd by exact Hr. injection Hd as <-.
    apply bind_inv in Hrun as (k0 & w1 & [Hk0 ->]%lift_inv & Hrun).
    apply bind_inv in Hrun as (k1 & w1 & [Hk1 ->]%lift_inv & Hrun).
    apply bind_inv in Hrun as (cost & w1 & [Hcost ->]%lift_inv & Hrun).
    apply bind_inv in Hrun as (u2 & w1 & (d & Hd & ->)%update_inv & Hrun).
    cbn [heap set_heap] in Hd, Hrun.
    rewrite list_lookup_insert_eq in Hd by exact Hr. injection Hd as <-.
    rewrite list_insert_insert_eq in Hrun.
    set (d3 := setitem "Cost" (ColFloat cost) d2) in *.
    (* lines 136-142 *)
    apply bind_inv in Hrun as (wk & w1 & [-> ->]%get_inv & Hrun).
    apply bind_inv in Hrun as (u3 & w4 & Henrich & Hrun).
    assert (∃ cap pct,
              heap w4 = <[r := setitem "Trade % of Market Cap" pct
                                 (setitem "Market Cap" cap d3)]> (heap w)
              ∧ _cached_data w4 = _cached_data w
              ∧ _last_fetch_time w4 = _last_fetch_time w)
      as (cap & pct & Hheap4 & Hcached4 & Htime4).
    { destruct (has_api_key _).
      - apply bind_inv in Henrich as (u4 & w1 & ->%logger_inv & Henrich).
        apply bind_inv in Henrich
          as (t0 & w1 & (? & _ & Ht0 & ->)%series_inv & Henrich).
        apply bind_inv in Henrich as (ts & w1 & [Hts ->]%lift_inv & Henrich).
        apply bind_inv in Henrich as (caps & w2 & Hcaps & Henrich).
        lazymatch type of Hcaps with
        | apply_get_market_cap _ _ ?w0 = _ =>
            pose proof (heap_apply_get_market_cap env ts w0) as Hheap2;
            pose proof (attrs_apply_get_market_cap env ts w0) as Hattrs2
        end.
        unfold world_after in Hheap2, Hattrs2. rewrite Hcaps in Hheap2, Hattrs2.
        cbn [heap set_heap set_log snd] in Hheap2.
        injection Hattrs2 as Hcached2 Htime2.
        apply bind_inv in Henrich as (u5 & w1 & (d & Hd' & ->)%update_inv & Henrich).
        rewrite Hheap2, list_lookup_insert_eq in Hd' by exact Hr.
        injection Hd' as <-.
        apply bind_inv in Henrich
          as (v2 & w1 & (? & _ & _ & ->)%series_inv & Henrich).
        apply bind_inv in Henrich
          as (m2 & w1 & (? & _ & _ & ->)%series_inv & Henrich).
        apply bind_inv in Henrich as (ratio & w1 & [_ ->]%lift_inv & Henrich).
        apply update_inv in Henrich as (d & Hd' & ->).
        cbn [heap set_heap] in Hd'.
        rewrite Hheap2, list_insert_insert_eq, list_lookup_insert_eq in Hd'
          by exact Hr.
        injection Hd' as <-.
        exists (infer_numbers caps), (ColFloat (mul100 ratio)).
        cbn [heap set_heap _cached_data _last_fetch_time].
        rewrite Hheap2, !list_insert_insert_eq. done.
      - apply bind_inv in Henrich as (u4 & w1 & (d & Hd' & ->)%update_inv & Henrich).
        cbn [heap set_heap] in Hd'.
        rewrite list_lookup_insert_eq in Hd' by exact Hr. injection Hd' as <-.
        apply update_inv in Henrich as (d & Hd' & ->).
        cbn [heap set_heap] in Hd'.
        rewrite list_insert_insert_eq, list_lookup_insert_eq in Hd' by exact Hr.
        injection Hd' as <-.
        eexists _, _. cbn [heap set_heap _cached_data _last_fetch_time].
        rewrite !list_insert_insert_eq. unfold setitem_zero.
        split; [|done]. f_equal. }
    (* line 145 *)
    apply bind_inv in Hrun as (sorted & w5 & Hsort & [[= ->] ->]%ret_inv).
    unfold sort_values_desc in Hsort.
    apply bind_inv in Hsort as (d & w1 & [Hd ->]%deref_inv & Hsort).
    rewrite Hheap4, list_lookup_insert_eq in Hd by exact Hr. injection Hd as <-.
    apply bind_inv in Hsort as (key & w1 & [Hkey ->]%lift_inv & Hsort).
    change (setitem "Trade % of Market Cap" pct (setitem "Market Cap" cap d3))
      with (converted date value cost cap pct df) in *.
    rewrite (value_of_converted _ _ _ _ _ _ c1 AttributeError) in Hkey
      by exact Hc1.
    injection Hkey as <-.
    apply alloc_inv in Hsort as [-> ->].
    exists df, date, value, cost, cap, pct.
    cbn [heap set_heap _cached_data _last_fetch_time].
    rewrite Hheap4, length_insert.
    destruct (value_cells_inv _ _ _ Hv0 Hvalue) as (vcells & -> & Hvcells).
    destruct (cost_cells_inv _ _ _ _ Hk0 Hk1 Hcost) as (ccells & -> & Hccells).
    unfold d2, d1 in Hc1, Hc2.
    rewrite !getitem_setitem_ne in Hc2 by discriminate.
    rewrite getitem_setitem_ne in Hc1 by discriminate.
    repeat split; try done.
    - eapply value_of_converted. unfold d1.
      rewrite getitem_setitem_ne by discriminate. exact Hc1.
    - unfold converted. rewrite !getitem_setitem_ne by discriminate.
      eapply getitem_setitem.
      rewrite !getitem_setitem_ne by discriminate. exact Hc2.
    - exists vcells, ccells. done.
  Qed.

  (** C5, as stated, fails for the value column: line 132 removes the
      thousands separators and no currency symbol, so that [float] refuses
      the cell (and with it the whole page), while the same text in the cost
      column is converted. *)
Lemma currency_symbol_in_value_refused :
    let env := demo_env (always trades_with_symbol) provider_down stable_argsort in
    normalize_value "$1,234.50" = None
    ∧ normalize_cost "$1,234.50" = Some (Prim2SF 1234.5%float)
    ∧ result_of (process_insider_data env (Some 0%nat))
                (set_heap [from_rows trades_with_symbol headers] (init None))
      = Return None.
  Proof. vm_compute. repeat split; reflexivity. Qed.

  (** C5 (amended): normalization removes the thousands separators from a
      value cell, and the currency symbol and the thousands separators from
      a cost cell, and converts what is left with [float]: when that is a
      decimal numeral the cell becomes the float nearest to it.  The columns
      of a processed frame hold these conversions of the cells of the raw
      frame.  In particular the cost cell ["$1,234.50"] and the value cell
      ["1,234.50"] become exactly 1234.5.  (A value cell that carries a
      currency symbol is not covered.) *)
Theorem currency_cells_normalized :
    (∀ s ip frac,
        ip ≠ [] → is_digits ip → is_digits (default [] frac) →
        (chars (remove_char "," (remove_char "$" s)) = decimal_text ip frac →
         normalize_cost s = Some (decimal_float ip frac))
        ∧ (chars (remove_char "," s) = decimal_text ip frac →
           normalize_value s = Some (decimal_float ip frac)))
    ∧ (∀ env r w s w',
          process_insider_data env (Some r) w = (Return (Some s), w') →
          ∃ df processed value_cells cost_cells value cost,
            heap w !! r = Some df
            ∧ getitem "Value ($)" AttributeError df = inr (ColStr value_cells)
            ∧ getitem "Cost" AttributeError df = inr (ColStr cost_cells)
            ∧ mapM normalize_value value_cells = Some value
            ∧ mapM normalize_cost cost_cells = Some cost
            ∧ heap w' !! r = Some processed
            ∧ getitem "Value ($)" ValueError processed = inr (ColFloat value)
            ∧ getitem "Cost" ValueError processed = inr (ColFloat cost))
    ∧ normalize_cost "$1,234.50" = Some (Prim2SF 1234.5%float)
    ∧ normalize_value "1,234.50" = Some (Prim2SF 1234.5%float).
  Proof.
    split; [|split; [|split]].
    - intros s ip frac Hne Hip Hfrac. split; intros Hs.
      + unfold normalize_cost. by apply py_float_decimal.
      + unfold normalize_value. by apply py_float_decimal.
    - intros env r w s w' Hrun.
      apply process_success in Hrun
        as (df & date & value & cost & cap & pct & Hdf & _ & -> & Hheap & Hkey
            & _ & _ & Hcostcol & vcells & ccells & Hv & Hvm & Hc & Hcm).
      pose proof (lookup_lt_Some _ _ _ Hdf) as Hr.
      exists df, (converted date value cost cap pct df), vcells, ccells, value, cost.
      repeat split; try done.
      rewrite Hheap, lookup_app_l by (rewrite length_insert; exact Hr).
      by apply list_lookup_insert_eq.
    - vm_compute. reflexivity.
    - vm_compute. reflexivity.
  Qed.

Lemma currency_cells_normalized_witness :
    normalize_cost "$1,234.50" = Some (decimal_float [1; 2; 3; 4]%nat (Some [5; 0]%nat))
    ∧ decimal_float [1; 2; 3; 4]%nat (Some [5; 0]%nat) = Prim2SF 1234.5%float.
  Proof.
    split; [|vm_compute; reflexivity].
    apply (proj1 currency_cells_normalized "$1,234.50" [1; 2; 3; 4]%nat
                 (Some [5; 0]%nat)).
    - discriminate.
    - repeat constructor.
    - repeat constructor.
    - vm_compute. reflexivity.
  Defined.

  (** C10: [process_insider_data] works on the frame it is given.  When it
      returns a frame, the caller's object holds the converted [Date],
      [Value ($)] and [Cost] columns and the two enrichment columns
      [Market Cap] and [Trade % of Market Cap], and the sorted result is
      another, new object.  When it fails partway the caller's object keeps
      what was written before the failure: on a page whose value cell
      carries a currency symbol the [Date] column of the caller's frame has
      become a datetime column while its [Value ($)] column is still
      text. *)
Theorem process_insider_data_mutates_its_argument env r w :
    (∀ s w',
        process_insider_data env (Some r) w = (Return (Some s), w') →
        ∃ df date value cost cap pct,
          heap w !! r = Some df
          ∧ heap w' !! r = Some (converted date value cost cap pct df)
          ∧ s ≠ r
          ∧ heap w' !! s
            = Some (reorder (argsort_desc env value)
                            (converted date value cost cap pct df)))
    ∧ (let env := demo_env (always trades_with_symbol) provider_down stable_argsort in
       let df := from_rows trades_with_symbol headers in
       let out := process_insider_data env (Some 0%nat)
                    (set_heap [df] (init None)) in
       out.1 = Return None
       ∧ heap out.2 = [setitem "Date" (ColTime [Some (midnight 19783)]) df]
       ∧ getitem "Value ($)" ValueError df = inr (ColStr ["$1,234.50"])).
  Proof.
    split.
    - intros s w' Hrun.
      apply process_success in Hrun
        as (df & date & value & cost & cap & pct & Hdf & _ & -> & Hheap & _).
      exists df, date, value, cost, cap, pct.
      pose proof (lookup_lt_Some _ _ _ Hdf) as Hr.
      rewrite Hheap. repeat split.
      + exact Hdf.
      + rewrite lookup_app_l by (rewrite length_insert; exact Hr).
        by apply list_lookup_insert_eq.
      + lia.
      + rewrite lookup_app_r by (rewrite length_insert; lia).
        rewrite length_insert, Nat.sub_diag. reflexivity.
    - vm_compute. repeat split; reflexivity.
  Qed.

Lemma process_insider_data_mutates_its_argument_witness :
    let env := demo_env (always trades) provider_up stable_argsort in
    let w := set_heap [from_rows trades headers] (init (Some "demo")) in
    let w' := world_after (process_insider_data env (Some 0%nat)) w in
    ∃ df date value cost cap pct,
      heap w !! 0%nat = Some df
      ∧ heap w' !! 0%nat = Some (converted date value cost cap pct df)
      ∧ 1%nat ≠ 0%nat
      ∧ heap w' !! 1%nat
        = Some (reorder (argsort_desc env value)
                        (converted date value cost cap pct df)).
  Proof.
    intros env w w'.
    assert (result_of (process_insider_data env (Some 0%nat)) w
            = Return (Some 1%nat)) as Hres by (vm_compute; reflexivity).
    exact (proj1 (process_insider_data_mutates_its_argument env 0%nat w)
                 1%nat w' (run_eq _ w _ Hres)).
  Defined.

  (** C6, as stated, fails: [sort_values] is called with its default
      [kind], the quicksort of NumPy, which sorts a column of more than 17
      numbers by partitions and does not keep equal keys in their order.  On
      a page of twenty trades of two values in turn the trades come out in
      descending order of value, and the trades of equal value are not in
      the order of their rows. *)
Lemma equal_values_reordered :
    let env := demo_env (always tied_trades) provider_down
                 PandasSort.nargsort_desc in
    let w := world_after (fetch_insider_data env true) (init None) in
    let sorted_values :=
      replicate 10 (of_Z 2000000) ++ replicate 10 (of_Z 1000000) in
    _cached_data w = Some 1%nat
    ∧ ∃ raw out,
        heap w !! 0%nat = Some raw
        ∧ index raw = seq 0 20
        ∧ heap w !! 1%nat = Some out
        ∧ getitem "Value ($)" ValueError out = inr (ColFloat sorted_values)
        ∧ ¬ ties_in_row_order (zip sorted_values (index out)).
  Proof.
    split; [vm_compute; reflexivity|].
    eexists _, _. split; [vm_compute; reflexivity|].
    split; [vm_compute; reflexivity|].
    split; [vm_compute; reflexivity|].
    split; [vm_compute; reflexivity|].
    vm_compute. intros [Hlt _]. specialize (Hlt eq_refl). lia.
  Qed.

  (** C6 (amended): the frame that processing returns holds the rows of the
      processed frame rearranged, with the trade values in descending order
      and the NaN values last, whenever the sorting routine of [sort_values]
      does what pandas promises of every [kind]; and the routine of the
      default [kind] does.  The order of rows with equal trade value is that
      of the routine: nothing is promised of it. *)
Theorem processed_frame_sorted_by_value :
    (∀ env r w s w',
        sorts_descending (argsort_desc env) →
        process_insider_data env (Some r) w = (Return (Some s), w') →
        ∃ processed value p,
          heap w' !! r = Some processed
          ∧ getitem "Value ($)" ValueError processed = inr (ColFloat value)
          ∧ p ≡ₚ seq 0 (length value)
          ∧ heap w' !! s = Some (reorder p processed)
          ∧ getitem "Value ($)" ValueError (reorder p processed)
            = inr (ColFloat (take p value))
          ∧ descending_nan_last (take p value))
    ∧ sorts_descending PandasSort.nargsort_desc.
  Proof.
    split; [|apply nargsort_desc_sorts].
    intros env r w s w' Hsort Hrun.
    apply process_success in Hrun
      as (df & date & value & cost & cap & pct & Hdf & _ & -> & Hheap & Hkey & _).
    pose proof (lookup_lt_Some _ _ _ Hdf) as Hr.
    destruct (Hsort value) as [Hperm Hdesc].
    exists (converted date value cost cap pct df), value, (argsort_desc env value).
    rewrite Hheap. repeat split.
    - rewrite lookup_app_l by (rewrite length_insert; exact Hr).
      by apply list_lookup_insert_eq.
    - exact Hkey.
    - exact Hperm.
    - rewrite lookup_app_r by (rewrite length_insert; lia).
      rewrite length_insert, Nat.sub_diag. reflexivity.
    - unfold reorder. by rewrite getitem_map_rows, Hkey.
    - exact Hdesc.
  Qed.

Lemma processed_frame_sorted_by_value_witness :
    let env := demo_env (always tied_trades) provider_down
                 PandasSort.nargsort_desc in
    let w := set_heap [from_rows tied_trades headers] (init None) in
    let w' := world_after (process_insider_data env (Some 0%nat)) w in
    ∃ processed value p,
      heap w' !! 0%nat = Some processed
      ∧ getitem "Value ($)" ValueError processed = inr (ColFloat value)
      ∧ p ≡ₚ seq 0 (length value)
      ∧ heap w' !! 1%nat = Some (reorder p processed)
      ∧ getitem "Value ($)" ValueError (reorder p processed)
        = inr (ColFloat (take p value))
      ∧ descending_nan_last (take p value).
  Proof.
    intros env w w'.
    assert (result_of (process_insider_data env (Some 0%nat)) w
            = Return (Some 1%nat)) as Hres by (vm_compute; reflexivity).
    exact (proj1 processed_frame_sorted_by_value env 0%nat w 1%nat w'
             (proj2 processed_frame_sorted_by_value) (run_eq _ w _ Hres)).
  Defined.

End processing.

(* ===================================================================== *)
(** * The queries on a cached frame (lines 153-230) *)
(* ===================================================================== *)

Section answers.
  Import PyFloat Html Pandas Tracker Spec.

  (** The masks of [filter_trades], run. *)
Lemma value_mask_run x d w :
    (lift (getitem "Value ($)" ValueError d) ≫= λ col, lift (ge_num col x)) w
    = lift (value_mask x d) w.
  Proof.
    unfold value_mask, mbind, M_bind.
    destruct (getitem "Value ($)" ValueError d); reflexivity.
  Qed.

Lemma date_mask_run t d w :
    (lift (getitem "Date" ValueError d) ≫= λ col, lift (gt_time col t)) w
    = lift (date_mask t d) w.
  Proof.
    unfold date_mask, mbind, M_bind.
    destruct (getitem "Date" ValueError d); reflexivity.
  Qed.

Lemma type_mask_run l d w :
    (lift (getitem "Transaction" AttributeError d) ≫= λ col, mret (isin col l)) w
    = lift (type_mask l d) w.
  Proof.
    unfold type_mask, mbind, M_bind.
    destruct (getitem "Transaction" AttributeError d); reflexivity.
  Qed.




  (** [get_recent_trades] on a tracker with a cached frame. *)
Lemma get_recent_trades_cached env days min_value w c d :
    _cached_data w = Some c → heap w !! c = Some d →
    get_recent_trades env days min_value w
    = if empty d then (Return None, w)
      else
        match recent_trades (now env (clock_reads w)) days min_value d with
        | inr res =>
            (Return (Some (length (heap w))),
             with_frames [res] (S (clock_reads w)) w)
        | inl e => (Raise e, with_frames [] (S (clock_reads w)) w)
        end.
  Proof.
    intros Hc Hd. unfold get_recent_trades.
    erewrite bind_run by by apply cached_or_fetch_cached. cbv beta iota.
    erewrite bind_run by by apply deref_run. cbv beta iota.
    destruct (empty d); [reflexivity|].
    erewrite bind_run by reflexivity. cbv beta iota.
    unfold recent_trades, with_frames. rewrite app_nil_r.
    set (w1 := set_clock_reads _ w).
    assert (heap w1 !! c = Some d) as Hd1 by exact Hd.
    destruct (days_before _ days) as [e|cutoff]; [reflexivity|].
    erewrite bind_run by reflexivity. cbv beta iota.
    unfold and_then, date_mask, value_mask.
    destruct (getitem "Date" ValueError d) as [e|date] eqn:Hdate.
    { erewrite bind_raise; [reflexivity|].
      by rewrite (series_run _ d), Hdate by exact Hd1. }
    erewrite bind_run by (by rewrite (series_run _ d), Hdate by exact Hd1).
    cbv beta iota.
    destruct (gt_time date cutoff) as [e|recent]; [reflexivity|].
    erewrite bind_run by reflexivity. cbv beta iota.
    destruct (getitem "Value ($)" ValueError d) as [e|value] eqn:Hvalue.
    { erewrite bind_raise; [reflexivity|].
      by rewrite (series_run _ d), Hvalue by exact Hd1. }
    erewrite bind_run by (by rewrite (series_run _ d), Hvalue by exact Hd1).
    cbv beta iota.
    destruct (ge_num value min_value) as [e|large]; [reflexivity|].
    erewrite bind_run by reflexivity. cbv beta iota.
    erewrite bind_run by by apply deref_run. cbv beta iota.
    reflexivity.
  Qed.







End answers.

(* ===================================================================== *)
(** * Fetching and the cache (lines 58-120) *)
(* ===================================================================== *)

Section fetching.
  Import PyFloat FloatParse PyStr Html Pandas Tracker Spec Demo.

Lemma requests_blind : blind requests.
  Proof. repeat split. Qed.

Lemma world_after_bind {A C} (m : M A) (k : A → M C) w a w1 :
    m w = (Return a, w1) → world_after (m ≫= k) w = world_after (k a) w1.
  Proof. intros H. unfold world_after, mbind, M_bind. by rewrite H. Qed.

Lemma result_of_bind {A C} (m : M A) (k : A → M C) w a w1 :
    m w = (Return a, w1) → result_of (m ≫= k) w = result_of (k a) w1.
  Proof. intros H. unfold result_of, mbind, M_bind. by rewrite H. Qed.

Lemma requests_get_market_cap env ticker :
    keeps requests (_get_market_cap env ticker).
  Proof.
    intros w. unfold world_after. rewrite get_market_cap_run.
    repeat case_match; reflexivity.
  Qed.

Lemma requests_apply_get_market_cap env ts :
    keeps requests (apply_get_market_cap env ts).
  Proof.
    induction ts as [|t ts IH]; simpl; [apply keeps_ret|].
    apply keeps_bind; [apply requests_get_market_cap | intros x].
    apply keeps_bind; [apply IH | intros; apply keeps_ret].
  Qed.

Lemma requests_process env df : keeps requests (process_insider_data env df).
  Proof.
    pose proof requests_blind.
    unfold process_insider_data, sort_values_desc.
    repeat first [apply requests_apply_get_market_cap | keeps_step]; done.
  Qed.

Lemma requests_try_except {A} (body : M A) handler w :
    (∀ e, keeps requests (handler e)) →
    requests (world_after (try_except body handler) w)
    = requests (world_after body w).
  Proof.
    intros Hh. unfold world_after, try_except.
    destruct (body w) as [[a|e] w1]; [reflexivity | apply Hh].
  Qed.

  (** The network path sends exactly one request. *)
Lemma fetch_from_network_sends_request env : sends_request (fetch_from_network env).
  Proof.
    pose proof requests_blind as Hblind.
    intros w. unfold fetch_from_network.
    rewrite requests_try_except by (intros; keeps_auto).
    erewrite world_after_bind by reflexivity.
    unfold world_after at 1, mbind at 1, M_bind at 1, requests_get at 1.
    cbn [requests set_requests set_log].
    destruct (http_get env (requests w)) as [doc|]; [|reflexivity].
    lazymatch goal with
    | |- requests (?k ?a ?w1).2 = _ =>
        change (requests (world_after (k a) w1) = S (requests w));
        transitivity (requests w1); [|reflexivity];
        assert (keeps requests (k a)) as Hk; [|apply Hk]
    end.
    cbv beta. unfold find_table.
    repeat first [apply requests_process | keeps_step]; done.
  Qed.

  (** The network path returns, whatever happens. *)
Lemma fetch_from_network_returns env w :
    ∃ res, result_of (fetch_from_network env) w = Return res.
  Proof.
    unfold result_of, fetch_from_network, try_except.
    lazymatch goal with
    | |- context [match ?body w with _ => _ end] =>
        destruct (body w) as [[a|e] w1]
    end; simpl; eauto.
  Qed.

Lemma cached_copy_run env use_cache w :
    cached_copy env use_cache w
    = match use_cache, _cached_data w, _last_fetch_time w with
      | true, Some cached, Some last =>
          let w1 := set_clock_reads (S (clock_reads w)) w in
          if bool_decide (now env (clock_reads w) - last < _cache_duration)
          then
            let w2 := set_log (log w ++ [(INFO, MsgUsingCache)]) w1 in
            match heap w !! cached with
            | Some df =>
                (Return (Some (length (heap w))), set_heap (heap w ++ [df]) w2)
            | None => (Raise InvalidReference, w2)
            end
          else (Return None, w1)
      | _, _, _ => (Return None, w)
      end.
  Proof.
    unfold cached_copy, mbind, M_bind, get.
    destruct use_cache, (_cached_data w), (_last_fetch_time w); try reflexivity.
    unfold datetime_now. case_bool_decide; [|reflexivity].
    unfold logger, modify, copy, deref, alloc, mbind, M_bind. simpl.
    destruct (heap w !! r); reflexivity.
  Qed.

  (** [fetch_insider_data(True)] sends a request exactly when the cache is
      missing or too old. *)
Lemma fetch_requests env w :
    requests (world_after (fetch_insider_data env true) w)
    = if cache_is_fresh env w then requests w else S (requests w).
  Proof.
    unfold fetch_insider_data, world_after, mbind, M_bind, cache_is_fresh.
    rewrite cached_copy_run.
    destruct (_cached_data w) as [c|], (_last_fetch_time w) as [t|];
      try exact (fetch_from_network_sends_request env w).
    case_bool_decide.
    - cbn. destruct (heap w !! c); reflexivity.
    - exact (fetch_from_network_sends_request env
               (set_clock_reads (S (clock_reads w)) w)).
  Qed.






  (** A request that fails, or a page without the table, ends the fetch
      with [None] and leaves the cache attributes as they were. *)
Lemma fetch_failure_before_processing env w :
    (http_get env (requests w) = None
     ∨ http_get env (requests w)
       = Some {| table_by_id := None; content_tables := None |}) →
    result_of (fetch_from_network env) w = Return None
    ∧ attrs (world_after (fetch_from_network env) w) = attrs w.
  Proof.
    unfold result_of, world_after, fetch_from_network, try_except, mbind,
      M_bind, logger, modify, requests_get.
    cbn [requests set_log].
    intros [-> | ->]; split; reflexivity.
  Qed.

  (** C1 fails on the code at the processing stage.  A tracker has fetched
      and cached a page; ten minutes later it fetches again, and the page now
      has a value cell that [float] refuses.  [process_insider_data] catches
      the error itself and returns [None], which line 112 stores: the call
      returns [None], and the cached frame is gone and the fetch time is the
      new one. *)
Theorem failed_processing_clears_cache :
    let env := demo_env (then_rows trades_with_symbol) provider_down stable_argsort in
    let w1 := world_after (fetch_insider_data env true) (init None) in
    let out := fetch_insider_data env true w1 in
    attrs w1 = (Some 1%nat, Some (midnight 19785))
    ∧ cache_is_fresh env w1 = false
    ∧ out.1 = Return None
    ∧ attrs out.2 = (None, Some (midnight 19785 + 10 * 60 * 1000000))
    ∧ last (log out.2) = Some (ERROR, MsgErrorFetching AttributeError).
  Proof. vm_compute. repeat split; reflexivity. Qed.

  (** C2 fails on the code when a credential is configured and the market
      capitalisation of a ticker is 0 (the provider failed, or its record has
      no such field): line 139 divides by it.  The percentage of a trade of
      non-zero value is then an infinity, and that of a trade of value zero
      is NaN; neither is 0.0.  (When every lookup has failed the column of
      the capitalisations is an integer column of zeros.) *)
Theorem zero_market_cap_percent_not_zero :
    (∀ s m e, mul100 (zip_with fdiv [S754_finite s m e] [zero]) = [inf s])
    ∧ mul100 (zip_with fdiv [zero] [zero]) = [nan]
    ∧ (let env := demo_env (always trades_with_zero) provider_down stable_argsort in
       let w := world_after (fetch_insider_data env true) (init (Some "demo")) in
       _cached_data w = Some 1%nat
       ∧ ∃ out, heap w !! 1%nat = Some out
           ∧ getitem "Value ($)" ValueError out
             = inr (ColFloat [of_Z 1000; zero])
           ∧ getitem "Market Cap" ValueError out = inr (ColInt [0; 0])
           ∧ getitem "Trade % of Market Cap" ValueError out
             = inr (ColFloat [inf false; nan])).
  Proof.
    split; [|split].
    - intros [] m e; reflexivity.
    - reflexivity.
    - split; [vm_compute; reflexivity|].
      eexists. split; [vm_compute; reflexivity|].
      vm_compute. repeat split; reflexivity.
  Qed.

End fetching.

(* ===================================================================== *)
(** * What no method does *)
(* ===================================================================== *)

Section evolution.
  Import PyFloat Pandas Tracker Spec More.

Lemma evolves_refl w : evolves w w.
  Proof. split; try done. Qed.

Lemma has_api_key_eq w w' :
    av_api_key w' = av_api_key w → has_api_key w' = has_api_key w.
  Proof. unfold has_api_key. by intros ->. Qed.

Lemma evolves_trans w1 w2 w3 : evolves w1 w2 → evolves w2 w3 → evolves w1 w3.
  Proof.
    intros [] []. split; try (etransitivity; eassumption).
    intros Hkey.
    destruct (ev_no_key0 Hkey) as [Hl Hc].
    destruct ev_no_key1 as [Hl' Hc'];
      [by rewrite (has_api_key_eq _ _ ev_key0)|].
    split; congruence.
  Qed.

Lemma steps_ret {A} (a : A) : steps (mret a).
  Proof. intros w. apply evolves_refl. Qed.

Lemma steps_raise {A} e : steps (raise (A := A) e).
  Proof. intros w. apply evolves_refl. Qed.

Lemma steps_get : steps get.
  Proof. intros w. apply evolves_refl. Qed.

Lemma steps_lift {A} (r : exn + A) : steps (lift r).
  Proof. destruct r; intros w; apply evolves_refl. Qed.

Lemma steps_bind {A C} (m : M A) (k : A → M C) :
    steps m → (∀ a, steps (k a)) → steps (m ≫= k).
  Proof.
    intros Hm Hk w. specialize (Hm w). unfold world_after in *.
    unfold mbind, M_bind. destruct (m w) as [[a|e] w']; simpl in *.
    - eapply evolves_trans; [exact Hm | apply Hk].
    - exact Hm.
  Qed.

Lemma steps_try_except {A} (body : M A) (handler : exn → M A) :
    steps body → (∀ e, steps (handler e)) → steps (try_except body handler).
  Proof.
    intros Hm Hk w. specialize (Hm w). unfold world_after, try_except in *.
    destruct (body w) as [[a|e] w']; simpl in *.
    - exact Hm.
    - eapply evolves_trans; [exact Hm | apply Hk].
  Qed.

Lemma steps_alloc df : steps (alloc df).
  Proof.
    intros w. split; try done. unfold world_after, alloc. simpl.
    rewrite length_app. lia.
  Qed.

Lemma steps_deref r : steps (deref r).
  Proof.
    intros w. unfold world_after, deref.
    destruct (heap w !! r); apply evolves_refl.
  Qed.

Lemma steps_update r g : steps (update r g).
  Proof.
    intros w. unfold world_after, update.
    destruct (heap w !! r); [|apply evolves_refl].
    split; try done. simpl. by rewrite length_insert.
  Qed.

Lemma steps_logger lv msg : steps (logger lv msg).
  Proof. intros w. split; try done. simpl. by apply prefix_app_r. Qed.

Lemma steps_copy r : steps (copy r).
  Proof. apply steps_bind; [apply steps_deref | intros; apply steps_alloc]. Qed.

Lemma steps_series r label dup : steps (series r label dup).
  Proof. apply steps_bind; [apply steps_deref | intros; apply steps_lift]. Qed.

Lemma steps_datetime_now env : steps (datetime_now env).
  Proof. intros w. split; try done. simpl. lia. Qed.

Lemma steps_requests_get env : steps (requests_get env).
  Proof.
    intros w. unfold world_after, requests_get.
    destruct (http_get env (requests w)); split; try done; simpl; lia.
  Qed.

Lemma steps_set_cached_data c : steps (modify (set_cached_data c)).
  Proof. intros w. split; done. Qed.

Lemma steps_set_last_fetch_time t : steps (modify (set_last_fetch_time t)).
  Proof. intros w. split; done. Qed.

Lemma steps_restrict r mask : (∀ d, steps (mask d)) → steps (restrict r mask).
  Proof.
    intros Hmask. apply steps_bind; [apply steps_deref | intros d].
    apply steps_bind; [apply Hmask | intros; apply steps_alloc].
  Qed.

Lemma steps_get_market_cap env ticker : steps (_get_market_cap env ticker).
  Proof.
    intros w. unfold world_after. rewrite get_market_cap_run.
    destruct (has_api_key w) eqn:Hkey; simpl; [|apply evolves_refl].
    destruct (_market_cap_cache w !! ticker) eqn:Hc; [apply evolves_refl|].
    destruct (lookup_result env (length (lookups w)) ticker); simpl.
    - split; simpl; try done; try congruence.
      + by apply prefix_app_r.
      + by apply prefix_app_r.
    - split; simpl; try done; try congruence.
      + by apply insert_subseteq.
      + by apply prefix_app_r.
  Qed.

Lemma steps_apply_get_market_cap env ts : steps (apply_get_market_cap env ts).
  Proof.
    induction ts as [|t ts IH]; simpl; [apply steps_ret|].
    apply steps_bind; [apply steps_get_market_cap | intros x].
    apply steps_bind; [apply IH | intros; apply steps_ret].
  Qed.

End evolution.

(** The steps of a proof that a method only moves the world forward. *)
Ltac steps_step :=
  lazymatch goal with
  | |- More.steps (mret _) => apply steps_ret
  | |- More.steps (Tracker.raise _) => apply steps_raise
  | |- More.steps Tracker.get => apply steps_get
  | |- More.steps (Tracker.lift _) => apply steps_lift
  | |- More.steps (Tracker.alloc _) => apply steps_alloc
  | |- More.steps (Tracker.deref _) => apply steps_deref
  | |- More.steps (Tracker.update _ _) => apply steps_update
  | |- More.steps (Tracker.logger _ _) => apply steps_logger
  | |- More.steps (Tracker.copy _) => apply steps_copy
  | |- More.steps (Tracker.series _ _ _) => apply steps_series
  | |- More.steps (Tracker.datetime_now _) => apply steps_datetime_now
  | |- More.steps (Tracker.requests_get _) => apply steps_requests_get
  | |- More.steps (Tracker.modify (Tracker.set_cached_data _)) =>
      apply steps_set_cached_data
  | |- More.steps (Tracker.modify (Tracker.set_last_fetch_time _)) =>
      apply steps_set_last_fetch_time
  | |- More.steps (Tracker.apply_get_market_cap _ _) =>
      apply steps_apply_get_market_cap
  | |- More.steps (Tracker._get_market_cap _ _) => apply steps_get_market_cap
  | |- More.steps (Tracker.restrict _ _) => apply steps_restrict; intros
  | |- More.steps (Tracker.try_except _ _) => apply steps_try_except; [|intros]
  | |- More.steps (_ ≫= _) => apply steps_bind; [|intros]
  | |- More.steps (match ?x with _ => _ end) => destruct x
  end.

Ltac steps_auto := repeat steps_step.

Section never.
  Import PyFloat Pandas Tracker Spec More.

Lemma steps_process env df : steps (process_insider_data env df).
  Proof. unfold process_insider_data, sort_values_desc. steps_auto. Qed.

Lemma steps_fetch_from_network env : steps (fetch_from_network env).
  Proof.
    unfold fetch_from_network, find_table.
    repeat first [apply steps_process | steps_step].
  Qed.

Lemma steps_fetch env use_cache : steps (fetch_insider_data env use_cache).
  Proof.
    unfold fetch_insider_data, cached_copy.
    repeat first [apply steps_fetch_from_network | steps_step].
  Qed.

Lemma steps_cached_or_fetch env : steps (cached_or_fetch env).
  Proof.
    unfold cached_or_fetch. repeat first [apply steps_fetch | steps_step].
  Qed.

  (** X1: No method of the tracker changes the credential, drops or changes an
      entry of the market-cap cache, or forgets a log record, a lookup, a
      request or a frame; and a tracker without credential never calls the
      market-cap provider and leaves the market-cap cache as it is. *)
Theorem methods_only_move_forward env :
    (∀ ticker, steps (_get_market_cap env ticker))
    ∧ (∀ df, steps (process_insider_data env df))
    ∧ (∀ use_cache, steps (fetch_insider_data env use_cache))
    ∧ (∀ days min_value, steps (get_recent_trades env days min_value))
    ∧ (∀ transaction_type, steps (get_trades_by_type env transaction_type))
    ∧ (∀ min_percent, steps (get_trades_by_market_cap_percent env min_percent))
    ∧ (∀ filters, steps (filter_trades env filters)).
  Proof.
    repeat apply conj; intros.
    - apply steps_get_market_cap.
    - apply steps_process.
    - apply steps_fetch.
    - unfold get_recent_trades.
      repeat first [apply steps_cached_or_fetch | steps_step].
    - unfold get_trades_by_type.
      repeat first [apply steps_cached_or_fetch | steps_step].
    - unfold get_trades_by_market_cap_percent.
      repeat first [apply steps_cached_or_fetch | steps_step].
    - unfold filter_trades.
      repeat first [apply steps_cached_or_fetch | steps_step].
  Qed.

  (** An entry of the market-cap cache is never lost or changed, whatever
      the tracker does next. *)
Lemma cache_entry_kept w w' ticker v :
    evolves w w' →
    _market_cap_cache w !! ticker = Some v →
    _market_cap_cache w' !! ticker = Some v.
  Proof. intros [] Hv. by eapply lookup_weaken. Qed.

  (** X2: [_get_market_cap], [process_insider_data] and [fetch_insider_data]
      never raise: every exception of a lookup, of the processing or of
      the fetch is caught and turned into the value 0 or [None]. *)
Theorem resolution_processing_and_fetch_never_raise env :
    (∀ ticker w, returns (_get_market_cap env ticker) w)
    ∧ (∀ df w,
          (∀ r, df = Some r → is_Some (heap w !! r)) →
          returns (process_insider_data env df) w)
    ∧ (∀ use_cache w,
          cache_valid w → returns (fetch_insider_data env use_cache) w).
  Proof.
    split; [|split].
    - intros ticker w. unfold returns, result_of. rewrite get_market_cap_run.
      repeat case_match; simpl; eauto.
    - intros [r|] w Hvalid; unfold returns, result_of, process_insider_data;
        [|simpl; eauto].
      destruct (Hvalid r eq_refl) as [d Hd].
      unfold mbind at 1, M_bind at 1, deref at 1. rewrite Hd.
      destruct (empty d); [simpl; eauto|].
      unfold try_except.
      lazymatch goal with
      | |- context [match ?body w with _ => _ end] =>
          destruct (body w) as [[a|e] w1]
      end; simpl; eauto.
    - intros use_cache w Hvalid.
      unfold returns, result_of, fetch_insider_data, mbind, M_bind.
      rewrite cached_copy_run.
      assert (∀ w0, ∃ a, (fetch_from_network env w0).1 = Return a) as Hnet
        by apply fetch_from_network_returns.
      destruct use_cache; [|apply Hnet].
      destruct (_cached_data w) as [c|] eqn:Hc; [|apply Hnet].
      destruct (_last_fetch_time w) as [t|]; [|apply Hnet].
      case_bool_decide; [|apply Hnet].
      destruct (Hvalid c Hc) as [d ->]. simpl. eauto.
  Qed.

Lemma resolution_processing_and_fetch_never_raise_witness :
    let env := Demo.demo_env (Demo.always Demo.trades) Demo.provider_down
                 stable_argsort in
    returns (fetch_insider_data env true) Demo.fetched_once.
  Proof.
    intros env.
    apply (proj2 (proj2 (resolution_processing_and_fetch_never_raise env))).
    intros c Hc. vm_compute in Hc. injection Hc as <-.
    vm_compute. eauto.
  Defined.

End never.

(* ===================================================================== *)
(** * Lookups of a reliable provider *)
(* ===================================================================== *)

Section lookup_count.
  Import PyFloat Pandas Tracker Spec More.

Lemma lookups_of_snoc ticker other w :
    lookups_of ticker (set_lookups (lookups w ++ [other]) w)
    = (lookups_of ticker w + if bool_decide (other = ticker) then 1 else 0)%nat.
  Proof.
    unfold lookups_of. simpl. rewrite filter_app, length_app.
    case_bool_decide.
    - by rewrite filter_cons_True.
    - by rewrite filter_cons_False.
  Qed.

  (** One call, when the provider is reliable. *)
Lemma get_market_cap_reliable env ticker w :
    provider_reliable env → has_api_key w = true →
    ∃ v w',
      _get_market_cap env ticker w = (Return (PyFlt v), w')
      ∧ has_api_key w' = true
      ∧ _market_cap_cache w' !! ticker = Some v
      ∧ (∀ t, t ≠ ticker → _market_cap_cache w' !! t = _market_cap_cache w !! t)
      ∧ (∀ t, lookups_of t w'
              = (lookups_of t w
                 + if bool_decide (t = ticker ∧ _market_cap_cache w !! t = None)
                   then 1 else 0)%nat).
  Proof.
    intros Hrel Hkey. rewrite get_market_cap_run, Hkey. simpl.
    destruct (_market_cap_cache w !! ticker) as [c|] eqn:Hc.
    - exists c, w. repeat split; try done.
      intros t. case_bool_decide as Ht; [|lia].
      destruct Ht as [-> Ht]. congruence.
    - destruct (Hrel (length (lookups w)) ticker) as [v ->].
      eexists _, _. split; [reflexivity|]. simpl. repeat split.
      + exact Hkey.
      + apply lookup_insert_eq.
      + intros t Ht. by apply lookup_insert_ne.
      + intros t.
        change (lookups_of t (set_market_cap_cache _ ?w0))
          with (lookups_of t w0).
        rewrite lookups_of_snoc. f_equal.
        apply (f_equal (λ b : bool, if b then 1%nat else 0%nat)).
        apply bool_decide_ext.
        split; [intros <-; by split | by intros [-> _]].
  Qed.

  (** X3: With a credential and a provider that answers every lookup, a run of
      resolutions (the [apply] of line 138) returns for every ticker the
      float that the market-cap cache holds for it afterwards, and looks up each
      ticker exactly once if it was not cached before, and not at all if it
      was, however often it occurs. *)
Theorem each_uncached_ticker_looked_up_once env tickers : ∀ w,
    provider_reliable env → has_api_key w = true →
    ∃ caps w',
      apply_get_market_cap env tickers w = (Return (PyFlt <$> caps), w')
      ∧ has_api_key w' = true
      ∧ Forall2 (λ t v, _market_cap_cache w' !! t = Some v) tickers caps
      ∧ (∀ t, lookups_of t w'
              = (lookups_of t w
                 + if bool_decide (t ∈ tickers ∧ _market_cap_cache w !! t = None)
                   then 1 else 0)%nat).
  Proof.
    induction tickers as [|ticker tickers IH]; intros w Hrel Hkey.
    - exists [], w. repeat split; done.
    - destruct (get_market_cap_reliable env ticker w Hrel Hkey)
        as (v & w1 & Hrun & Hkey1 & Hv & Hother & Hcount1).
      destruct (IH w1 Hrel Hkey1) as (caps & w2 & Hrun2 & Hkey2 & Hcaps & Hcount2).
      exists (v :: caps), w2. simpl.
      unfold mbind, M_bind. rewrite Hrun, Hrun2. simpl.
      split; [reflexivity|]. split; [exact Hkey2|]. split.
      + constructor; [|exact Hcaps].
        destruct (steps_apply_get_market_cap env tickers w1) as [_ Hsub _ _ _ _ _ _].
        unfold world_after in Hsub. rewrite Hrun2 in Hsub. simpl in Hsub.
        by eapply lookup_weaken.
      + intros t. rewrite Hcount2, Hcount1.
        destruct (decide (t = ticker)) as [->|Hne].
        * rewrite Hv.
          rewrite (bool_decide_eq_false_2 (ticker ∈ tickers ∧ Some v = None))
            by (intros [_ ?]; discriminate).
          destruct (_market_cap_cache w !! ticker) as [c|].
          -- rewrite !bool_decide_eq_false_2
               by (intros [_ ?]; discriminate). lia.
          -- rewrite !bool_decide_eq_true_2; [lia | | done].
             split; [left | reflexivity].
        * rewrite (Hother t Hne).
          rewrite (bool_decide_eq_false_2 (t = ticker ∧ _)) by (by intros [? _]).
          rewrite (bool_decide_ext
                     (t ∈ ticker :: tickers ∧ _market_cap_cache w !! t = None)
                     (t ∈ tickers ∧ _market_cap_cache w !! t = None)); [lia|].
          rewrite elem_of_cons. tauto.
  Qed.

Lemma each_uncached_ticker_looked_up_once_witness :
    let env := Demo.demo_env (Demo.always Demo.trades) provider_const
                 stable_argsort in
    let w := world_after (apply_get_market_cap env ["ACME"; "INIT"; "ACME"; "ACME"])
                         (init (Some "demo")) in
    lookups w = ["ACME"; "INIT"].
  Proof.
    intros env w.
    assert (provider_reliable env) as Hrel.
    { intros n ticker. exists (of_Z 50000000). vm_compute. reflexivity. }
    destruct (each_uncached_ticker_looked_up_once env
                ["ACME"; "INIT"; "ACME"; "ACME"] (init (Some "demo")) Hrel eq_refl)
      as (caps & w' & Hrun & _).
    subst w. unfold world_after. rewrite Hrun. simpl.
    apply (f_equal snd) in Hrun. simpl in Hrun. subst w'.
    vm_compute. reflexivity.
  Defined.

End lookup_count.

(* ===================================================================== *)
(** * The two ends of a fetch from the network *)
(* ===================================================================== *)

Section fetch_paths.
  Import PyFloat Html Pandas Tracker Spec More.

  (** Lines 74-86, run. *)
Lemma find_table_run doc w :
    find_table doc w
    = let w1 := match table_by_id doc with
                | Some _ => w
                | None => set_log (log w ++ [(INFO, MsgTableNotFoundById)]) w
                end in
      match found_table doc with
      | Some t => (Return t, w1)
      | None => (Raise ValueError, w1)
      end.
  Proof.
    unfold find_table, found_table, mbind, M_bind, logger, modify.
    destruct (table_by_id doc); [reflexivity|].
    destruct (content_tables doc) as [tables|]; [|reflexivity].
    destruct (2 <=? length tables)%nat; [|reflexivity].
    destruct (tables !! 1%nat); reflexivity.
  Qed.

Lemma requests_get_inv env w doc w' :
    requests_get env w = (Return doc, w') →
    http_get env (requests w) = Some doc
    ∧ w' = set_requests (S (requests w)) w.
  Proof.
    unfold requests_get. destruct (http_get env (requests w));
      [by intros [= -> <-] | discriminate].
  Qed.

Lemma datetime_now_inv env w t w' :
    datetime_now env w = (Return t, w') →
    t = now env (clock_reads w) ∧ w' = set_clock_reads (S (clock_reads w)) w.
  Proof. by intros [= <- <-]. Qed.

Lemma modify_inv f w u w' : modify f w = (Return u, w') → w' = f w.
  Proof. by intros [= _ <-]. Qed.

Lemma insert_last_snoc {A} (l : list A) x y :
    <[length l := y]> (l ++ [x]) = l ++ [y].
  Proof.
    rewrite insert_app_r_alt by lia. by rewrite Nat.sub_diag.
  Qed.

  (** X4: A page that gives no frame (the request failed, no table was found,
      or no row has as many cells as the header row) ends the fetch with
      [None] after one request and one [ERROR] record; the cached frame, the
      fetch time, the market-cap cache and the clock are left as they
      were. *)
Theorem refused_page_keeps_cache env w :
    page_frame (http_get env (requests w)) = None →
    ∃ w' e,
      fetch_from_network env w = (Return None, w')
      ∧ attrs w' = attrs w
      ∧ requests w' = S (requests w)
      ∧ _market_cap_cache w' = _market_cap_cache w
      ∧ lookups w' = lookups w
      ∧ clock_reads w' = clock_reads w
      ∧ last (log w') = Some (ERROR, MsgErrorFetching e)
      ∧ (e = RequestException ∨ e = ValueError).
  Proof.
    intros Hpage.
    unfold fetch_from_network, try_except.
    unfold mbind at 1, M_bind at 1, logger at 1, modify at 1.
    unfold mbind at 1, M_bind at 1, requests_get at 1.
    cbn [requests set_log].
    destruct (http_get env (requests w)) as [doc|] eqn:Hget.
    - unfold mbind at 1, M_bind at 1. rewrite find_table_run. simpl in Hpage.
      destruct (found_table doc) as [t|] eqn:Hfound; cbn zeta iota.
      + destruct (empty (table_frame t)) eqn:Hempty; [|discriminate].
        unfold mbind at 1, M_bind at 1, alloc at 1.
        unfold mbind at 1, M_bind at 1, deref at 1.
        cbn [heap set_heap].
        rewrite lookup_app_r by (destruct (table_by_id doc); simpl; lia).
        replace (length (heap _) - length (heap _))%nat with 0%nat
          by (destruct (table_by_id doc); simpl; lia).
        cbn [lookup list_lookup].
        fold (table_frame t). rewrite Hempty.
        eexists _, ValueError. split; [reflexivity|].
        destruct (table_by_id doc); simpl; rewrite ?last_snoc; auto 10.
      + eexists _, ValueError. split; [reflexivity|].
        destruct (table_by_id doc); simpl; rewrite ?last_snoc; auto 10.
    - eexists _, RequestException. split; [reflexivity|].
      simpl. rewrite last_snoc. auto 10.
  Qed.

Lemma refused_page_keeps_cache_witness :
    let env := Demo.demo_env (Demo.then_rows [["ACME"; "Doe John"]])
                 Demo.provider_down stable_argsort in
    ∃ w' e,
      fetch_from_network env Demo.fetched_once = (Return None, w')
      ∧ attrs w' = attrs Demo.fetched_once
      ∧ requests w' = 2%nat
      ∧ _market_cap_cache w' = _market_cap_cache Demo.fetched_once
      ∧ lookups w' = lookups Demo.fetched_once
      ∧ clock_reads w' = clock_reads Demo.fetched_once
      ∧ last (log w') = Some (ERROR, MsgErrorFetching e)
      ∧ (e = RequestException ∨ e = ValueError).
  Proof.
    intros env.
    apply (refused_page_keeps_cache env Demo.fetched_once).
    vm_compute. reflexivity.
  Defined.

  (** A fetch from the network that returns a frame, spelled out: the raw
      frame of the page is a new object, processing converts it in place and
      adds the sorted frame, which becomes the cache, and the caller gets a
      copy of it. *)
Lemma fetch_from_network_success env w r w' :
    fetch_from_network env w = (Return (Some r), w') →
    ∃ raw date value cost cap pct,
      page_frame (http_get env (requests w)) = Some raw
      ∧ let n := length (heap w) in
        let processed := converted date value cost cap pct raw in
        let sorted := reorder (argsort_desc env value) processed in
        heap w' = heap w ++ [processed; sorted; sorted]
        ∧ _cached_data w' = Some (S n)
        ∧ r = S (S n)
        ∧ _last_fetch_time w' = Some (now env (clock_reads w' - 1))
        ∧ (0 < clock_reads w')%nat
        ∧ requests w' = S (requests w).
  Proof.
    unfold fetch_from_network. intros Hrun.
    apply try_except_some_inv in Hrun;
      [|intros e w1 w2 res [= <- _]; reflexivity].
    apply bind_inv in Hrun as (u0 & w1 & ->%logger_inv & Hrun).
    apply bind_inv in Hrun as (doc & w1 & [Hget ->]%requests_get_inv & Hrun).
    cbn [requests set_log] in Hget.
    apply bind_inv in Hrun as (t & w1 & Hfind & Hrun).
    rewrite find_table_run in Hfind. cbn zeta in Hfind.
    destruct (found_table doc) as [t'|] eqn:Hfound; [|discriminate].
    injection Hfind as -> <-.
    apply bind_inv in Hrun as (df & w2 & [-> ->]%alloc_inv & Hrun).
    apply bind_inv in Hrun as (d & w2 & [Hd ->]%deref_inv & Hrun).
    fold (table_frame t) in *.
    set (w1 := match table_by_id doc with
               | Some _ => _
               | None => _
               end) in *.
    assert (heap w1 = heap w) as Hheap1
      by (subst w1; destruct (table_by_id doc); reflexivity).
    assert (requests w1 = S (requests w)) as Hreq1
      by (subst w1; destruct (table_by_id doc); reflexivity).
    cbn [heap set_heap] in Hd.
    rewrite lookup_app_r, Nat.sub_diag in Hd by lia. injection Hd as <-.
    apply bind_inv in Hrun as (u1 & w2 & Hne & Hrun).
    destruct (empty (table_frame t)) eqn:Hempty; [discriminate|].
    apply ret_inv in Hne as [_ ->].
    apply bind_inv in Hrun as (processed & w2 & Hproc & Hrun).
    apply bind_inv in Hrun as (u2 & w3 & ->%modify_inv & Hrun).
    apply bind_inv in Hrun as (now_ & w3 & [-> ->]%datetime_now_inv & Hrun).
    apply bind_inv in Hrun as (u3 & w3 & ->%modify_inv & Hrun).
    apply bind_inv in Hrun as (d & w3 & [_ ->]%deref_inv & Hrun).
    apply bind_inv in Hrun as (u4 & w3 & ->%logger_inv & Hrun).
    destruct processed as [c|]; [|discriminate].
    lazymatch type of Hproc with
    | process_insider_data _ ?df ?w0 = _ =>
        pose proof (requests_process env df w0) as Hreq2
    end.
    unfold world_after in Hreq2. rewrite Hproc in Hreq2. simpl in Hreq2.
    apply process_success in Hproc
      as (df & date & value & cost & cap & pct & Hdf & _ & -> & Hheap2 & _).
    cbn [heap set_heap] in Hdf, Hheap2.
    rewrite lookup_app_r, Nat.sub_diag in Hdf by lia. injection Hdf as <-.
    rewrite insert_last_snoc in Hheap2.
    apply bind_inv in Hrun as (c' & w3 & Hcopy & [[= <-] ->]%ret_inv).
    apply bind_inv in Hcopy as (d' & w4 & [Hd ->]%deref_inv & [-> ->]%alloc_inv).
    cbn [heap set_heap set_log set_last_fetch_time set_clock_reads
         set_cached_data] in Hd.
    rewrite Hheap2 in Hd.
    rewrite (list_lookup_middle _ [] _ _) in Hd
      by (rewrite !length_app; simpl; lia).
    injection Hd as <-.
    exists (table_frame t), date, value, cost, cap, pct.
    split; [by rewrite Hget; simpl; rewrite Hfound, Hempty|].
    cbn [heap set_heap set_log set_last_fetch_time set_clock_reads
         set_cached_data _cached_data _last_fetch_time clock_reads requests].
    rewrite Hheap2, !length_app, Hheap1. simpl.
    rewrite <- !app_assoc. simpl. rewrite Nat.sub_0_r, Nat.add_1_r.
    repeat split; solve [done | lia].
  Qed.

  (** X5: Whenever [fetch_insider_data] returns a frame, from the cache or from
      the network, the frame is a new object, different from the cached
      one, that holds the same rows as the cached frame; what the caller
      writes into it does not reach the cache. *)
Theorem fetch_returns_copy_of_cache env use_cache w r w' :
    fetch_insider_data env use_cache w = (Return (Some r), w') →
    ∃ c df,
      _cached_data w' = Some c
      ∧ heap w' !! c = Some df
      ∧ heap w' !! r = Some df
      ∧ r ≠ c
      ∧ (length (heap w) ≤ r)%nat
      ∧ ∀ g, heap (world_after (update r g) w') !! c = Some df.
  Proof.
    intros Hrun.
    assert (∃ c df, _cached_data w' = Some c ∧ heap w' !! c = Some df
                    ∧ heap w' !! r = Some df ∧ r ≠ c
                    ∧ (length (heap w) ≤ r)%nat) as (c & df & Hc & Hdf & Hr & Hne & Hlen).
    { unfold fetch_insider_data in Hrun.
      apply bind_inv in Hrun as (hit & w1 & Hhit & Hrun).
      rewrite cached_copy_run in Hhit.
      assert (hit = None → w1 = w ∨ w1 = set_clock_reads (S (clock_reads w)) w)
        as Hmiss.
      { intros ->. destruct use_cache, (_cached_data w), (_last_fetch_time w);
          try (injection Hhit as <-; auto).
        case_bool_decide; [|injection Hhit as <-; auto].
        cbn zeta in Hhit. destruct (heap w !! r0); discriminate. }
      destruct hit as [c'|].
      - apply ret_inv in Hrun as [[= ->] ->].
        destruct use_cache; [|discriminate].
        destruct (_cached_data w) as [c|] eqn:Hc; [|discriminate].
        destruct (_last_fetch_time w); [|discriminate].
        case_bool_decide; [|discriminate]. cbn zeta in Hhit.
        destruct (heap w !! c) as [df|] eqn:Hdf; [|discriminate].
        injection Hhit as <- <-. exists c, df.
        pose proof (lookup_lt_Some _ _ _ Hdf).
        cbn [heap set_heap _cached_data set_log set_clock_reads].
        repeat split; try done.
        + by rewrite lookup_app_l.
        + by rewrite lookup_app_r, Nat.sub_diag.
        + lia.
      - apply fetch_from_network_success in Hrun
          as (raw & date & value & cost & cap & pct & _ & Hheap & Hc & -> & _).
        assert (heap w1 = heap w) as Hw1
          by (destruct (Hmiss eq_refl) as [-> | ->]; reflexivity).
        rewrite Hw1 in *.
        eexists _, _. split; [exact Hc|]. rewrite Hheap.
        repeat split.
        + rewrite lookup_app_r by lia.
          replace (S (length (heap w)) - length (heap w))%nat with 1%nat by lia.
          reflexivity.
        + rewrite lookup_app_r by lia.
          replace (S (S (length (heap w))) - length (heap w))%nat with 2%nat by lia.
          reflexivity.
        + lia.
        + lia. }
    exists c, df. repeat split; try done.
    intros g. unfold world_after, update. rewrite Hr. simpl.
    by rewrite list_lookup_insert_ne.
  Qed.

Lemma fetch_returns_copy_of_cache_witness :
    let env := Demo.demo_env (Demo.always Demo.trades) Demo.provider_down
                 stable_argsort in
    let w' := world_after (fetch_insider_data env true) (init None) in
    ∃ c df,
      _cached_data w' = Some c
      ∧ heap w' !! c = Some df
      ∧ heap w' !! 2%nat = Some df
      ∧ 2%nat ≠ c
      ∧ (length (heap (init None)) ≤ 2)%nat
      ∧ ∀ g, heap (world_after (update 2%nat g) w') !! c = Some df.
  Proof.
    intros env w'.
    assert (result_of (fetch_insider_data env true) (init None)
            = Return (Some 2%nat)) as Hres by (vm_compute; reflexivity).
    exact (fetch_returns_copy_of_cache env true (init None) 2%nat w'
             (run_eq _ _ _ Hres)).
  Defined.

End fetch_paths.

(* ===================================================================== *)
(** * The enrichment columns (lines 135-142) *)
(* ===================================================================== *)

Section enrichment.
  Import PyFloat FloatParse PyStr Pandas Tracker Spec More.

  (** A column that was written and can be read is the column written. *)
Lemma getitem_setitem_inv label dup col c df :
    getitem label dup (setitem label col df) = inr c → c = col.
  Proof.
    unfold getitem, setitem. simpl.
    destruct (existsb (has_label label) (columns df)) eqn:E.
    - rewrite filter_label_replace.
      destruct (filter _ (columns df)) as [|kc [|kc' rest]]; simpl;
        [discriminate | by intros [= <-] | discriminate].
    - rewrite filter_app, (existsb_has_label _ _ E).
      rewrite filter_cons_True by (unfold has_label; simpl; by apply bool_decide_eq_true).
      simpl. by intros [= <-].
  Qed.

Lemma apply_get_market_cap_length env ts : ∀ w caps w',
    apply_get_market_cap env ts w = (Return caps, w') →
    length caps = length ts.
  Proof.
    induction ts as [|t ts IH]; intros w caps w' Hrun.
    - by injection Hrun as <- _.
    - simpl in Hrun.
      apply bind_inv in Hrun as (x & w1 & _ & Hrun).
      apply bind_inv in Hrun as (xs & w2 & Hxs & [<- _]%ret_inv).
      simpl. f_equal. by eapply IH.
  Qed.

  (** The values of an inferred column are the floats of the numbers. *)
Lemma as_floats_infer_numbers caps :
    as_floats (infer_numbers caps) = Some (map to_float caps).
  Proof.
    unfold infer_numbers.
    destruct (mapM _ caps) as [zs|] eqn:Hzs; [|reflexivity].
    simpl. f_equal. revert zs Hzs.
    induction caps as [|[z|x] caps IH]; intros zs Hzs.
    - by injection Hzs as <-.
    - cbn in Hzs. destruct (mapM _ caps) as [zs'|]; [|discriminate].
      injection Hzs as <-. cbn. f_equal. by apply IH.
    - discriminate.
  Qed.

  (** A successful processing, with the columns it read and wrote. *)
Lemma process_details env r w s w' :
    process_insider_data env (Some r) w = (Return (Some s), w') →
    ∃ df raw_date date value cost,
      heap w !! r = Some df
      ∧ getitem "Date" ValueError df = inr raw_date
      ∧ pd_to_datetime env raw_date = inr date
      ∧ (∃ final keys,
            heap w' !! r = Some final
            ∧ s = length (heap w)
            ∧ heap w' !! s = Some (reorder (argsort_desc env keys) final)
            ∧ getitem "Date" ValueError final = inr (ColTime date)
            ∧ getitem "Value ($)" ValueError final = inr (ColFloat keys))
      ∧ if has_api_key w then
          ∃ tickers caps w2,
            getitem "Ticker" TypeError df = inr (ColStr tickers)
            ∧ apply_get_market_cap env tickers
                (before_lookups r (before_enrichment date value cost df) w)
              = (Return caps, w2)
            ∧ length caps = length tickers
            ∧ _market_cap_cache w' = _market_cap_cache w2
            ∧ lookups w' = lookups w2
            ∧ heap w' !! r
              = Some (converted date value cost (infer_numbers caps)
                        (ColFloat (mul100 (zip_with fdiv value
                                                    (map to_float caps)))) df)
        else
          heap w' !! r
          = Some (converted date value cost
                    (ColInt (replicate (len df) 0))
                    (ColInt (replicate (len df) 0)) df)
          ∧ lookups w' = lookups w.
  Proof.
    intros Hrun.
    pose proof (steps_process env (Some r) w) as Hev.
    unfold world_after in Hev. rewrite Hrun in Hev. simpl in Hev.
    unfold process_insider_data in Hrun.
    apply bind_inv in Hrun as (df & w0 & [Hdf ->]%deref_inv & Hrun).
    destruct (empty df) eqn:Hempty; [discriminate|].
    apply try_except_some_inv in Hrun;
      [|intros e w1 w2 res [= <- _]; reflexivity].
    assert (Hr : (r < length (heap w))%nat) by by eapply lookup_lt_Some.
    (* line 129 *)
    apply bind_inv in Hrun as (c0 & w1 & (d & Hd & Hc0 & ->)%series_inv & Hrun).
    rewrite Hdf in Hd. injection Hd as <-.
    apply bind_inv in Hrun as (date & w1 & [Hdate ->]%lift_inv & Hrun).
    apply bind_inv in Hrun as (u & w1 & (d & Hd & ->)%update_inv & Hrun).
    rewrite Hdf in Hd. injection Hd as <-.
    set (d1 := setitem "Date" (ColTime date) df) in *.
    (* line 132 *)
    apply bind_inv in Hrun as (c1 & w1 & (d & Hd & Hc1 & ->)%series_inv & Hrun).
    cbn [heap set_heap] in Hd.
    rewrite list_lookup_insert_eq in Hd by exact Hr. injection Hd as <-.
    apply bind_inv in Hrun as (v0 & w1 & [Hv0 ->]%lift_inv & Hrun).
    apply bind_inv in Hrun as (value & w1 & [Hvalue ->]%lift_inv & Hrun).
    apply bind_inv in Hrun as (u1 & w1 & (d & Hd & ->)%update_inv & Hrun).
    cbn [heap set_heap] in Hd, Hrun.
    rewrite list_lookup_insert_eq in Hd by exact Hr. injection Hd as <-.
    rewrite list_insert_insert_eq in Hrun.
    set (d2 := setitem "Value ($)" (ColFloat value) d1) in *.
    (* line 133 *)
    apply bind_inv in Hrun as (c2 & w1 & (d & Hd & Hc2 & ->)%series_inv & Hrun).
    cbn [heap set_heap] in Hd.
    rewrite list_lookup_insert_eq in Hd by exact Hr. injection Hd as <-.
    apply bind_inv in Hrun as (k0 & w1 & [Hk0 ->]%lift_inv & Hrun).
    apply bind_inv in Hrun as (k1 & w1 & [Hk1 ->]%lift_inv & Hrun).
    apply bind_inv in Hrun as (cost & w1 & [Hcost ->]%lift_inv & Hrun).
    apply bind_inv in Hrun as (u2 & w1 & (d & Hd & ->)%update_inv & Hrun).
    cbn [heap set_heap] in Hd, Hrun.
    rewrite list_lookup_insert_eq in Hd by exact Hr. injection Hd as <-.
    rewrite list_insert_insert_eq in Hrun.
    set (d3 := setitem "Cost" (ColFloat cost) d2) in *.
    (* lines 136-142 *)
    apply bind_inv in Hrun as (wk & w1 & [-> ->]%get_inv & Hrun).
    apply bind_inv in Hrun as (u3 & w4 & Henrich & Hrun).
    lazymatch type of Henrich with
    | (if has_api_key ?w0 then _ else _) _ = _ =>
        change (has_api_key w0) with (has_api_key w) in Henrich
    end.
    assert (∃ cap pct,
              heap w4 = <[r := converted date value cost cap pct df]> (heap w)
              ∧ if has_api_key w then
                  ∃ tickers caps w2,
                    getitem "Ticker" TypeError df = inr (ColStr tickers)
                    ∧ apply_get_market_cap env tickers
                        (before_lookups r (before_enrichment date value cost df) w)
                      = (Return caps, w2)
                    ∧ length caps = length tickers
                    ∧ _market_cap_cache w4 = _market_cap_cache w2
                    ∧ lookups w4 = lookups w2
                    ∧ cap = infer_numbers caps
                    ∧ pct = ColFloat (mul100 (zip_with fdiv value
                                                       (map to_float caps)))
                else cap = ColInt (replicate (len df) 0)
                     ∧ pct = ColInt (replicate (len df) 0))
      as (cap & pct & Hheap4 & Hcols).
    { unfold converted. fold d1. fold d2. fold d3.
      destruct (has_api_key w).
      - apply bind_inv in Henrich as (u4 & w1 & ->%logger_inv & Henrich).
        apply bind_inv in Henrich
          as (t0 & w1 & (d & Hd & Ht0 & ->)%series_inv & Henrich).
        cbn [heap set_heap set_log] in Hd.
        rewrite list_lookup_insert_eq in Hd by exact Hr. injection Hd as <-.
        apply bind_inv in Henrich as (ts & w1 & [Hts ->]%lift_inv & Henrich).
        destruct t0 as [ts'| | |]; try discriminate. injection Hts as ->.
        apply bind_inv in Henrich as (caps & w2 & Hcaps & Henrich).
        lazymatch type of Hcaps with
        | apply_get_market_cap _ _ ?w0 = _ =>
            pose proof (heap_apply_get_market_cap env ts w0) as Hheap2
        end.
        unfold world_after in Hheap2. rewrite Hcaps in Hheap2.
        cbn [heap set_heap set_log snd] in Hheap2.
        pose proof (apply_get_market_cap_length _ _ _ _ _ Hcaps) as Hlen.
        apply bind_inv in Henrich as (u5 & w1 & (d & Hd' & ->)%update_inv & Henrich).
        rewrite Hheap2, list_lookup_insert_eq in Hd' by exact Hr.
        injection Hd' as <-.
        apply bind_inv in Henrich
          as (v2 & w1 & (d & Hd' & Hv2 & ->)%series_inv & Henrich).
        cbn [heap set_heap] in Hd'.
        rewrite Hheap2, list_insert_insert_eq, list_lookup_insert_eq in Hd'
          by exact Hr.
        injection Hd' as <-.
        apply bind_inv in Henrich
          as (m2 & w1 & (d & Hd' & Hm2 & ->)%series_inv & Henrich).
        cbn [heap set_heap] in Hd'.
        rewrite Hheap2, list_insert_insert_eq, list_lookup_insert_eq in Hd'
          by exact Hr.
        injection Hd' as <-.
        apply getitem_setitem_inv in Hm2 as ->.
        unfold d3 in Hv2. rewrite !getitem_setitem_ne in Hv2 by discriminate.
        unfold d2 in Hv2. rewrite (getitem_setitem _ _ _ _ _ _ Hc1) in Hv2.
        injection Hv2 as <-.
        apply bind_inv in Henrich as (ratio & w1 & [Hratio ->]%lift_inv & Henrich).
        unfold truediv in Hratio. rewrite as_floats_infer_numbers in Hratio.
        injection Hratio as <-.
        apply update_inv in Henrich as (d & Hd' & ->).
        cbn [heap set_heap] in Hd'.
        rewrite Hheap2, list_insert_insert_eq, list_lookup_insert_eq in Hd'
          by exact Hr.
        injection Hd' as <-.
        exists (infer_numbers caps),
               (ColFloat (mul100 (zip_with fdiv value (map to_float caps)))).
        cbn [heap set_heap].
        rewrite Hheap2, !list_insert_insert_eq. split; [reflexivity|].
        exists ts, caps, w2. unfold d3, d2, d1 in Ht0.
        rewrite !getitem_setitem_ne in Ht0 by discriminate.
        repeat apply conj; solve [done | exact Hcaps].
      - apply bind_inv in Henrich as (u4 & w1 & (d & Hd' & ->)%update_inv & Henrich).
        cbn [heap set_heap] in Hd'.
        rewrite list_lookup_insert_eq in Hd' by exact Hr. injection Hd' as <-.
        apply update_inv in Henrich as (d & Hd' & ->).
        cbn [heap set_heap] in Hd'.
        rewrite list_insert_insert_eq, list_lookup_insert_eq in Hd' by exact Hr.
        injection Hd' as <-.
        eexists _, _. cbn [heap set_heap].
        rewrite !list_insert_insert_eq. unfold setitem_zero.
        split; [reflexivity|]. split; reflexivity. }
    (* line 145 *)
    apply bind_inv in Hrun as (sorted & w5 & Hsort & [[= ->] ->]%ret_inv).
    unfold sort_values_desc in Hsort.
    apply bind_inv in Hsort as (d & w1 & [Hd ->]%deref_inv & Hsort).
    apply bind_inv in Hsort as (key & w1 & [Hkey ->]%lift_inv & Hsort).
    destruct key as [|ks| |]; try discriminate.
    apply alloc_inv in Hsort as [-> ->].
    exists df, c0, date, value, cost. split; [exact Hdf|].
    split; [exact Hc0|]. split; [exact Hdate|].
    rewrite Hheap4, list_lookup_insert_eq in Hd by exact Hr. injection Hd as <-.
    split.
    { exists (converted date value cost cap pct df), ks.
      cbn [heap set_heap]. rewrite Hheap4, length_insert.
      split; [|split; [reflexivity|split; [|split; [|exact Hkey]]]].
      - rewrite lookup_app_l by (rewrite length_insert; exact Hr).
        by apply list_lookup_insert_eq.
      - by apply list_lookup_middle; rewrite length_insert.
      - unfold converted. rewrite !getitem_setitem_ne by discriminate.
        by eapply getitem_setitem. }
    cbn [heap set_heap lookups] in *.
    assert (∀ x y, (<[r := x]> (heap w) ++ [y]) !! r = Some x) as Hlook.
    { intros x y. rewrite lookup_app_l by (rewrite length_insert; exact Hr).
      by apply list_lookup_insert_eq. }
    rewrite Hheap4, Hlook.
    destruct (has_api_key w) eqn:Hkey'.
    - destruct Hcols as (ts & caps & w2 & Hts & Hcaps & Hlen & Hcache & Hlook2
                         & -> & ->).
      exists ts, caps, w2. done.
    - destruct Hcols as [-> ->]. split; [reflexivity|].
      destruct (ev_no_key _ _ Hev Hkey') as [Hl _]. exact Hl.
  Qed.

  (** X8: The two enrichment columns that a successful processing leaves.  With
      a credential the column [Market Cap] holds the results of
      [_get_market_cap] on the ticker cells, called row by row after the
      three conversions and the log record of line 137 (an integer column
      when every result is the integer 0, a float column otherwise), and the
      percentage of every row is its value divided by its market
      capitalisation, times 100, in float arithmetic; the market-cap cache
      and the lookups are left as these calls left them.  Without a
      credential both columns hold the integer 0 in every row, and the
      provider is not called. *)
Theorem enrichment_columns env r w s w' :
    process_insider_data env (Some r) w = (Return (Some s), w') →
    ∃ df date value cost,
      heap w !! r = Some df
      ∧ if has_api_key w then
          ∃ tickers caps w2,
            getitem "Ticker" TypeError df = inr (ColStr tickers)
            ∧ apply_get_market_cap env tickers
                (before_lookups r (before_enrichment date value cost df) w)
              = (Return caps, w2)
            ∧ length caps = length tickers
            ∧ _market_cap_cache w' = _market_cap_cache w2
            ∧ lookups w' = lookups w2
            ∧ heap w' !! r
              = Some (converted date value cost (infer_numbers caps)
                        (ColFloat (mul100 (zip_with fdiv value
                                                    (map to_float caps)))) df)
        else
          heap w' !! r
          = Some (converted date value cost
                    (ColInt (replicate (len df) 0))
                    (ColInt (replicate (len df) 0)) df)
          ∧ lookups w' = lookups w.
  Proof.
    intros Hrun.
    apply process_details in Hrun
      as (df & raw_date & date & value & cost & Hdf & _ & _ & _ & Hcols).
    exists df, date, value, cost. split; [exact Hdf | exact Hcols].
  Qed.

Lemma enrichment_columns_witness :
    let env := Demo.demo_env (Demo.always Demo.trades) Demo.provider_up
                 stable_argsort in
    let w := set_heap [from_rows Demo.trades Demo.headers] (init (Some "demo")) in
    let w' := world_after (process_insider_data env (Some 0%nat)) w in
    ∃ df date value cost,
      heap w !! 0%nat = Some df
      ∧ ∃ tickers caps w2,
          getitem "Ticker" TypeError df = inr (ColStr tickers)
          ∧ apply_get_market_cap env tickers
              (before_lookups 0%nat (before_enrichment date value cost df) w)
            = (Return caps, w2)
          ∧ length caps = length tickers
          ∧ _market_cap_cache w' = _market_cap_cache w2
          ∧ lookups w' = lookups w2
          ∧ heap w' !! 0%nat
            = Some (converted date value cost (infer_numbers caps)
                      (ColFloat (mul100 (zip_with fdiv value
                                                  (map to_float caps)))) df).
  Proof.
    intros env w w'.
    assert (result_of (process_insider_data env (Some 0%nat)) w
            = Return (Some 1%nat)) as Hres by (vm_compute; reflexivity).
    exact (enrichment_columns env 0%nat w 1%nat w' (run_eq _ w _ Hres)).
  Defined.

End enrichment.

(* ===================================================================== *)
(** * What the queries return (lines 153-230) *)
(* ===================================================================== *)

Section filters.
  Import PyFloat Html Pandas Tracker Spec More.

  (** *** Masks and selections *)

Lemma mask_list_fmap {A B} (f : A → B) m (l : list A) :
    map f (mask_list m l) = mask_list m (map f l).
  Proof.
    revert l. induction m as [|b m IH]; intros [|x l]; try reflexivity.
    simpl. destruct b; simpl; by rewrite IH.
  Qed.

Lemma mask_list_nil_r {A} (m : list bool) : mask_list m (@nil A) = [].
  Proof. by destruct m. Qed.

Lemma mask_list_mask_list {A} (m m0 : list bool) (l : list A) :
    mask_list (mask_list m m0) (mask_list m l) = mask_list (mask_and m m0) l.
  Proof.
    revert m0 l. induction m as [|b m IH]; intros m0 l; [reflexivity|].
    destruct m0 as [|b0 m0].
    - rewrite (mask_list_nil_r (b :: m)). reflexivity.
    - destruct l as [|x l].
      + by rewrite !mask_list_nil_r.
      + destruct b; simpl; [|apply IH].
        destruct b0; simpl; by rewrite IH.
  Qed.

  (** Selecting twice is selecting with the conjunction of the masks. *)
Lemma select_select m m0 d :
    select (mask_list m m0) (select m d) = select (mask_and m m0) d.
  Proof.
    unfold select, map_rows. simpl. f_equal.
    - apply mask_list_mask_list.
    - rewrite map_map. apply map_ext. intros [label col]. simpl. f_equal.
      destruct col; simpl; f_equal; apply mask_list_mask_list.
  Qed.

Lemma as_floats_select m col :
    as_floats (map_column (λ A, mask_list m) col)
    = mask_list m <$> as_floats col.
  Proof.
    destruct col; simpl; try reflexivity.
    f_equal. apply (mask_list_fmap of_Z).
  Qed.

Lemma ge_num_select m col x mv :
    ge_num col x = inr mv →
    ge_num (map_column (λ A, mask_list m) col) x = inr (mask_list m mv).
  Proof.
    unfold ge_num. rewrite as_floats_select.
    destruct (as_floats col) as [l|]; [|discriminate]. simpl.
    intros [= <-]. f_equal. apply (mask_list_fmap (λ v, fge v x)).
  Qed.

Lemma gt_time_select m col t md :
    gt_time col t = inr md →
    gt_time (map_column (λ A, mask_list m) col) t = inr (mask_list m md).
  Proof.
    destruct col; try discriminate. simpl. intros [= <-]. f_equal.
    apply (mask_list_fmap
             (λ d, match d with Some x => bool_decide (t < x) | None => false end)).
  Qed.

Lemma isin_select m col values :
    isin (map_column (λ A, mask_list m) col) values
    = mask_list m (isin col values).
  Proof.
    destruct col; simpl.
    - apply (mask_list_fmap (λ s, bool_decide (s ∈ values))).
    - apply (mask_list_fmap (λ _ : float, false)).
    - apply (mask_list_fmap (λ _ : Z, false)).
    - apply (mask_list_fmap (λ _ : option Z, false)).
  Qed.

Lemma value_mask_select x m d mv :
    value_mask x d = inr mv → value_mask x (select m d) = inr (mask_list m mv).
  Proof.
    unfold value_mask, select. rewrite getitem_map_rows.
    destruct (getitem "Value ($)" ValueError d); [discriminate|].
    apply ge_num_select.
  Qed.

Lemma date_mask_select t m d md :
    date_mask t d = inr md → date_mask t (select m d) = inr (mask_list m md).
  Proof.
    unfold date_mask, select. rewrite getitem_map_rows.
    destruct (getitem "Date" ValueError d); [discriminate|].
    apply gt_time_select.
  Qed.

Lemma type_mask_select l m d mt :
    type_mask l d = inr mt → type_mask l (select m d) = inr (mask_list m mt).
  Proof.
    unfold type_mask, select. rewrite getitem_map_rows.
    destruct (getitem "Transaction" AttributeError d); [discriminate|].
    intros [= <-]. by rewrite isin_select.
  Qed.

  (** X9: [filter_trades] with the three keys that [main] uses, on a tracker
      whose cache holds a frame with the three columns, and for a number of
      days for which the cutoff date [now - max_days] exists (a date of the
      years 1 to 9999): the result is a new frame with exactly the rows of
      the cached frame whose value is at least [min_value], whose date is
      after the cutoff and whose transaction type is listed (the three tests
      joined by "and"); the clock is read once, no request is sent, and the
      cached frame and the cache attributes are as before. *)
Theorem filter_trades_joins_filters env w c d x n l cutoff mv md mt :
    _cached_data w = Some c → heap w !! c = Some d → empty d = false →
    value_mask x d = inr mv →
    days_before (now env (clock_reads w)) n = inr cutoff →
    date_mask cutoff d = inr md →
    type_mask l d = inr mt →
    ∃ w',
      filter_trades env (main_filters x n l) w
      = (Return (Some (length (heap w) + 2)%nat), w')
      ∧ heap w' !! (length (heap w) + 2)%nat
        = Some (select (mask_and (mask_and mv md) mt) d)
      ∧ heap w' !! c = Some d
      ∧ attrs w' = attrs w
      ∧ requests w' = requests w
      ∧ clock_reads w' = S (clock_reads w).
  Proof.
    intros Hc Hd Hne Hmv Hcut Hmd Hmt.
    pose proof (lookup_lt_Some _ _ _ Hd) as Hlt.
    eexists. split.
    { unfold filter_trades.
      erewrite bind_run by by apply cached_or_fetch_cached. cbv beta iota.
      erewrite bind_run by by apply deref_run. cbv beta iota.
      rewrite Hne. cbn [main_filters min_value max_days transaction_types
                        min_market_cap_percent tickers].
      erewrite bind_run
        by (eapply restrict_run;
            [exact Hd | rewrite value_mask_run, Hmv; reflexivity]).
      cbv beta iota.
      erewrite bind_run by (erewrite bind_run by reflexivity; cbv beta;
        cbn [clock_reads set_heap]; rewrite Hcut;
        erewrite bind_run by reflexivity; cbv beta;
        eapply restrict_run;
        [ cbn [heap set_heap set_clock_reads]; by apply list_lookup_middle
        | rewrite date_mask_run; cbn [clock_reads set_heap];
          rewrite (date_mask_select _ _ _ _ Hmd); reflexivity ]).
      cbv beta iota. rewrite select_select.
      erewrite bind_run by (eapply restrict_run;
        [ cbn [heap set_heap set_clock_reads];
          apply list_lookup_middle; by rewrite length_app
        | rewrite type_mask_run;
          rewrite (type_mask_select _ _ _ _ Hmt); reflexivity ]).
      cbv beta iota. rewrite select_select.
      erewrite bind_run by reflexivity. cbv beta iota.
      erewrite bind_run by reflexivity. cbv beta iota.
      erewrite bind_run by reflexivity. cbv beta iota.
      unfold mret, M_ret.
      cbn [heap set_heap set_clock_reads].
      rewrite !length_app. simpl.
      replace (length (heap w) + 1 + 1)%nat with (length (heap w) + 2)%nat by lia.
      reflexivity. }
    cbn [heap set_heap set_clock_reads attrs _cached_data _last_fetch_time
         requests clock_reads].
    repeat split.
    - apply list_lookup_middle. rewrite !length_app. simpl. lia.
    - rewrite !lookup_app_l; try exact Hd; rewrite ?length_app; simpl; lia.
  Qed.

Lemma filter_trades_joins_filters_witness :
    let env := Demo.demo_env (Demo.always Demo.trades) Demo.provider_down
                 stable_argsort in
    ∃ w',
      filter_trades env (main_filters (of_Z 1000000) 10 ["Buy"]) Demo.fetched_once
      = (Return (Some (length (heap Demo.fetched_once) + 2)%nat), w')
      ∧ heap w' !! (length (heap Demo.fetched_once) + 2)%nat
        = Some (select (mask_and (mask_and [true; true; true] [true; true; true])
                                 [false; true; true]) cached_trades)
      ∧ heap w' !! 1%nat = Some cached_trades
      ∧ attrs w' = attrs Demo.fetched_once
      ∧ requests w' = requests Demo.fetched_once
      ∧ clock_reads w' = S (clock_reads Demo.fetched_once).
  Proof.
    intros env.
    apply (filter_trades_joins_filters env Demo.fetched_once 1%nat cached_trades
             _ _ _ (Demo.midnight 19775 + 10 * 60 * 1000000));
      vm_compute; reflexivity.
  Defined.

Lemma get_recent_trades_run env w c d days min_value cutoff md mv :
    _cached_data w = Some c → heap w !! c = Some d → empty d = false →
    days_before (now env (clock_reads w)) days = inr cutoff →
    date_mask cutoff d = inr md →
    value_mask min_value d = inr mv →
    get_recent_trades env days min_value w
    = (Return (Some (length (heap w))),
       set_heap (heap w ++ [select (mask_and md mv) d])
                (set_clock_reads (S (clock_reads w)) w)).
  Proof.
    intros Hc Hd Hne Hcut Hmd Hmv.
    rewrite (get_recent_trades_cached _ _ _ _ c d Hc Hd), Hne.
    unfold recent_trades. rewrite Hcut. cbn [and_then].
    rewrite Hmd. cbn [and_then]. rewrite Hmv. reflexivity.
  Qed.

  (** X10: Each of the three single queries, on a tracker whose cache holds a
      frame with the columns the query reads, returns a new frame with the
      selected rows and leaves the cached frame, the cache attributes and
      the record of requests as they were; only [get_recent_trades] reads
      the clock, and it selects the rows when its cutoff date [now - days]
      exists (a date of the years 1 to 9999) and raises [OverflowError]
      when it does not. *)
Theorem queries_select_into_new_frames env w c d :
    _cached_data w = Some c → heap w !! c = Some d → empty d = false →
    (∀ days min_value cutoff md mv,
        days_before (now env (clock_reads w)) days = inr cutoff →
        date_mask cutoff d = inr md →
        value_mask min_value d = inr mv →
        get_recent_trades env days min_value w
        = (Return (Some (length (heap w))),
           set_heap (heap w ++ [select (mask_and md mv) d])
                    (set_clock_reads (S (clock_reads w)) w)))
    ∧ (∀ days min_value e,
          days_before (now env (clock_reads w)) days = inl e →
          e = OverflowError
          ∧ get_recent_trades env days min_value w
            = (Raise OverflowError, set_clock_reads (S (clock_reads w)) w))
    ∧ (∀ transaction_type mt,
          type_mask (match transaction_type with inl s => [s] | inr l => l end) d
          = inr mt →
          get_trades_by_type env transaction_type w
          = (Return (Some (length (heap w))),
             set_heap (heap w ++ [select mt d]) w))
    ∧ (∀ min_percent mp,
          has_api_key w = true →
          percent_mask min_percent d = inr mp →
          get_trades_by_market_cap_percent env min_percent w
          = (Return (Some (length (heap w))),
             set_heap (heap w ++ [select mp d]) w)).
  Proof.
    intros Hc Hd Hne. split; [|split; [|split]].
    - intros days min_value cutoff md mv Hcut Hmd Hmv.
      by apply (get_recent_trades_run env w c d _ _ cutoff).
    - intros days min_value e Hcut.
      assert (e = OverflowError) as ->.
      { unfold days_before, timedelta_days, datetime_sub in Hcut.
        repeat case_bool_decide; congruence. }
      split; [reflexivity|].
      rewrite (get_recent_trades_cached _ _ _ _ c d Hc Hd), Hne.
      unfold recent_trades. rewrite Hcut. cbn [and_then].
      unfold with_frames. rewrite app_nil_r. by destruct w.
    - intros transaction_type mt Hmt. unfold get_trades_by_type.
      erewrite bind_run by by apply cached_or_fetch_cached. cbv beta iota.
      erewrite bind_run by by apply deref_run. cbv beta iota. rewrite Hne.
      cbv zeta. unfold type_mask in Hmt.
      destruct (getitem "Transaction" AttributeError d) as [|tcol] eqn:Htcol;
        [discriminate|]. injection Hmt as <-.
      erewrite bind_run by (rewrite (series_run _ d) by exact Hd;
                            rewrite Htcol; reflexivity).
      cbv beta iota.
      erewrite bind_run by reflexivity. reflexivity.
    - intros min_percent mp Hkey Hmp. unfold get_trades_by_market_cap_percent.
      erewrite bind_run by reflexivity. cbv beta iota. rewrite Hkey. cbn [negb].
      erewrite bind_run by by apply cached_or_fetch_cached. cbv beta iota.
      erewrite bind_run by by apply deref_run. cbv beta iota. rewrite Hne.
      unfold percent_mask in Hmp.
      destruct (getitem "Trade % of Market Cap" ValueError d) as [|pcol] eqn:Hpcol;
        [discriminate|].
      erewrite bind_run by (rewrite (series_run _ d) by exact Hd;
                            rewrite Hpcol; reflexivity).
      cbv beta iota.
      erewrite bind_run by (rewrite Hmp; reflexivity). cbv beta iota.
      erewrite bind_run by reflexivity. reflexivity.
  Qed.

Lemma queries_select_into_new_frames_witness :
    let env := Demo.demo_env (Demo.always Demo.trades) Demo.provider_down
                 stable_argsort in
    get_trades_by_type env (inl "Buy") Demo.fetched_once
    = (Return (Some (length (heap Demo.fetched_once))),
       set_heap (heap Demo.fetched_once
                 ++ [select [false; true; true] cached_trades])
                Demo.fetched_once).
  Proof.
    intros env.
    apply (proj1 (proj2 (proj2 (queries_select_into_new_frames
                                  env Demo.fetched_once
                                  1%nat cached_trades eq_refl eq_refl eq_refl)))
                 (inl "Buy") [false; true; true]).
    vm_compute. reflexivity.
  Defined.

  (** X11: The queries catch nothing.  When the cached frame has no column
      [Transaction] (the page had no such header; processing does not need
      it), [get_trades_by_type] raises [KeyError] where the other paths
      return [None], and so does [filter_trades] with the key
      [transaction_types]; the tracker is left as it was. *)
Theorem query_raises_on_missing_column env w c d :
    _cached_data w = Some c → heap w !! c = Some d → empty d = false →
    (∀ kc, kc ∈ columns d → kc.1 ≠ "Transaction") →
    (∀ transaction_type,
        get_trades_by_type env transaction_type w
        = (Raise (KeyError "Transaction"), w))
    ∧ (∀ l,
          filter_trades env
            {| min_value := None; max_days := None; transaction_types := Some l;
               min_market_cap_percent := None; tickers := None |} w
          = (Raise (KeyError "Transaction"), w)).
  Proof.
    intros Hc Hd Hne Hmissing.
    assert (∀ dup, getitem "Transaction" dup d = inl (KeyError "Transaction"))
      as Hget.
    { intros dup. unfold getitem.
      assert (filter (λ kc, has_label "Transaction" kc = true) (columns d) = [])
        as ->; [|reflexivity].
      induction (columns d) as [|kc cols IH]; [reflexivity|].
      rewrite filter_cons_False.
      - apply IH. intros kc' Hin. apply Hmissing. by right.
      - unfold has_label. rewrite bool_decide_eq_true.
        apply Hmissing. by left. }
    split.
    - intros transaction_type. unfold get_trades_by_type.
      erewrite bind_run by by apply cached_or_fetch_cached. cbv beta iota.
      erewrite bind_run by by apply deref_run. cbv beta iota. rewrite Hne.
      cbv zeta.
      erewrite bind_raise; [reflexivity|].
      rewrite (series_run _ d) by exact Hd. by rewrite Hget.
    - intros l. unfold filter_trades.
      erewrite bind_run by by apply cached_or_fetch_cached. cbv beta iota.
      erewrite bind_run by by apply deref_run. cbv beta iota. rewrite Hne.
      cbn [min_value max_days transaction_types].
      erewrite bind_run by reflexivity. cbv beta iota.
      erewrite bind_run by reflexivity. cbv beta iota.
      erewrite bind_raise; [reflexivity|].
      eapply restrict_raise; [exact Hd|].
      rewrite type_mask_run. unfold type_mask. by rewrite Hget.
  Qed.

Lemma query_raises_on_missing_column_witness :
    let env := Demo.demo_env page_without_transaction Demo.provider_down
                 stable_argsort in
    _cached_data fetched_without_transaction = Some 1%nat
    ∧ get_trades_by_type env (inl "Buy") fetched_without_transaction
      = (Raise (KeyError "Transaction"), fetched_without_transaction).
  Proof.
    intros env. split; [vm_compute; reflexivity|].
    destruct (heap fetched_without_transaction !! 1%nat) as [d|] eqn:Hd;
      [|vm_compute in Hd; discriminate].
    refine (proj1 (query_raises_on_missing_column env fetched_without_transaction
                     1%nat d _ Hd _ _) (inl "Buy")).
    - vm_compute. reflexivity.
    - revert Hd. vm_compute. intros [= <-]. reflexivity.
    - revert Hd. vm_compute. intros [= <-] kc Hin.
      repeat (apply elem_of_cons in Hin as [-> | Hin]; [discriminate|]).
      by apply elem_of_nil in Hin.
  Defined.

End filters.

(* ===================================================================== *)
(** * Queries after a fetch *)
(* ===================================================================== *)

Section after_fetch.
  Import PyFloat Html Pandas Tracker Spec More.

  (** [fetch_insider_data(use_cache=False)] is the network path. *)
Lemma fetch_without_cache env w :
    fetch_insider_data env false w = fetch_from_network env w.
  Proof.
    unfold fetch_insider_data, mbind, M_bind. by rewrite cached_copy_run.
  Qed.

  (** X6: [fetch_insider_data] sends no request when it is asked to use the
      cache and the cached frame is younger than five minutes, and exactly
      one request in every other case: with [use_cache=False] also when the
      cached frame is young. *)
Theorem fetch_request_count env use_cache w :
    requests (world_after (fetch_insider_data env use_cache) w)
    = if use_cache && cache_is_fresh env w
      then requests w else S (requests w).
  Proof.
    destruct use_cache; simpl.
    - apply fetch_requests.
    - unfold world_after. rewrite fetch_without_cache.
      apply fetch_from_network_sends_request.
  Qed.

  (** X7: A forced refresh that returns a frame replaces the cache: the raw
      frame of the new page is a new object that processing converts in
      place, the cache is the sorted frame made from it, the caller gets a
      third object with the same rows, and the fetch time is the reading of
      the clock taken after the processing.  The next call with
      [use_cache=True] is served from the cache exactly if the clock has
      advanced by less than five minutes since that reading. *)
Theorem forced_refresh_replaces_cache env w r w' :
    fetch_insider_data env false w = (Return (Some r), w') →
    ∃ raw date value cost cap pct,
      page_frame (http_get env (requests w)) = Some raw
      ∧ let n := length (heap w) in
        let processed := converted date value cost cap pct raw in
        let sorted := reorder (argsort_desc env value) processed in
        heap w' = heap w ++ [processed; sorted; sorted]
        ∧ _cached_data w' = Some (S n)
        ∧ r = S (S n)
        ∧ _last_fetch_time w' = Some (now env (clock_reads w' - 1))
        ∧ cache_is_fresh env w'
          = bool_decide (now env (clock_reads w') - now env (clock_reads w' - 1)
                         < _cache_duration).
  Proof.
    rewrite fetch_without_cache. intros Hrun.
    apply fetch_from_network_success in Hrun
      as (raw & date & value & cost & cap & pct & Hpage & Hrest).
    cbv zeta in Hrest.
    destruct Hrest as (Hheap & Hcache & Hr & Htime & _ & _).
    exists raw, date, value, cost, cap, pct. split; [exact Hpage|].
    cbv zeta. repeat apply conj; try assumption.
    unfold cache_is_fresh. by rewrite Hcache, Htime.
  Qed.

Lemma forced_refresh_replaces_cache_witness :
    let env := Demo.demo_env (Demo.always Demo.trades) Demo.provider_down
                 stable_argsort in
    let w' := world_after (fetch_insider_data env false) (init None) in
    ∃ raw date value cost cap pct,
      page_frame (http_get env (requests (init None))) = Some raw
      ∧ let n := length (heap (init None)) in
        let processed := converted date value cost cap pct raw in
        let sorted := reorder (argsort_desc env value) processed in
        heap w' = heap (init None) ++ [processed; sorted; sorted]
        ∧ _cached_data w' = Some (S n)
        ∧ 2%nat = S (S n)
        ∧ _last_fetch_time w' = Some (now env (clock_reads w' - 1))
        ∧ cache_is_fresh env w'
          = bool_decide (now env (clock_reads w') - now env (clock_reads w' - 1)
                         < _cache_duration).
  Proof.
    intros env w'.
    assert (result_of (fetch_insider_data env false) (init None)
            = Return (Some 2%nat)) as Hres by (vm_compute; reflexivity).
    exact (forced_refresh_replaces_cache env (init None) 2%nat w'
             (run_eq _ _ _ Hres)).
  Defined.




End after_fetch.

(* ===================================================================== *)
(** * The header row among the data rows (lines 89-104) *)
(* ===================================================================== *)

Section header_rows.
  Import PyStr Html Spec More.

  (** X13: The data rows are the rows after the first [tr], whatever row gave
      the headers.  So the first [tr] is never a data row; and when the row
      marked [header-row] is not the first one and is made of [td] cells, it
      comes back as the first data row. *)
Theorem header_row_kept_as_data first hdr rest :
    header_row_class first = false →
    header_row_class hdr = true →
    cells hdr ≠ [] →
    Forall (λ c, is_td c = true) (cells hdr) →
    let t := first :: hdr :: rest in
    let headers := extract_headers t in
    headers = map (λ th, strip (text th)) (cells hdr)
    ∧ extract_rows headers t
      = map visible_text (cells hdr)
        :: keep_rows headers (map row_of_tr rest)
    ∧ ∀ other, extract_rows headers (other :: hdr :: rest)
               = extract_rows headers t.
  Proof.
    intros Hfirst Hhdr Hne Htd t headers.
    assert (headers = map (λ th, strip (text th)) (cells hdr)) as Hheaders.
    { subst headers t. unfold extract_headers, header_row.
      cbn [filter list_filter]. rewrite Hfirst, Hhdr. reflexivity. }
    split; [exact Hheaders|]. split; [|reflexivity].
    clearbody headers. subst t.
    unfold extract_rows. cbn [tail map]. unfold keep_rows.
    assert (row_of_tr hdr = map visible_text (cells hdr)) as Hrow.
    { unfold row_of_tr. f_equal.
      clear -Htd. induction Htd as [|c l Hc _ IH]; [reflexivity|].
      by rewrite filter_cons_True, IH. }
    rewrite filter_cons_True; [by rewrite Hrow|].
    apply keep_row_valid. split.
    - rewrite Hrow. destruct (cells hdr); [done | discriminate].
    - rewrite Hrow, Hheaders. by rewrite !length_map.
  Qed.

Lemma header_row_kept_as_data_witness :
    let first := Demo.data_tr ["ACME"; "Buy"] in
    let hdr := {| header_row_class := true;
                  cells := [Demo.td "Ticker"; Demo.td "Transaction"] |} in
    extract_rows (extract_headers [first; hdr]) [first; hdr]
    = [["Ticker"; "Transaction"]].
  Proof.
    intros first hdr.
    refine (eq_trans (proj1 (proj2 (header_row_kept_as_data first hdr []
                                      eq_refl eq_refl _ _))) _).
    - discriminate.
    - repeat constructor.
    - vm_compute. reflexivity.
  Defined.

End header_rows.
